(** * SymbolicMemoryMCP: the symbol store, the taxonomy suggester, the gateway
      and the apply/undo workflow of the command-line client.

    The development follows [server.py] and [client.py].

    Modelling conventions.
    - Text is ASCII text ([string]); [len] is [String.length].
    - The two SQLite tables are the fields of [DB]: [texts] is the list of
      rows in rowid order (INSERT appends, UPDATE rewrites in place), and
      [aliases], whose only accesses are by primary key, is a finite map.
    - Python floats are modelled by the rational numbers they denote ([Q]);
      comparison and [min] are exact on floats, while [/], [+] and [round]
      are taken without binary rounding error.  The two float literals
      [0.10] and [0.65] are modelled by [1/10] and [13/20]: the double of
      each literal is the least double that is not below the fraction, so a
      double is below the literal exactly when it is below the fraction;
      and a quotient of two counts up to 160 (a token list has at most 80
      tokens) is below [1/10] exactly when its double is.
    - [hashlib.sha256] is a parameter ([sha256_text]); the clock reading of
      [now_iso()] is an explicit argument [ts].
    - A Python exception is an explicit [Raise] outcome. *)

From Stdlib Require Import Ascii String QArith Qminmax Qround Qabs Lia Lqa.
From stdpp Require Import base strings list gmap.

Local Open Scope string_scope.

(** ** Outcomes of code that may raise *)

Inductive Exn :=
| HTTPException (status_code : nat) (detail : string)
| ValidationError
| ValueError
| RuntimeError (msg : string)
| SystemExit (msg : string).

Inductive outcome (A : Type) :=
| Ret (a : A)
| Raise (e : Exn).
Arguments Ret {A} a.
Arguments Raise {A} e.

#[global] Instance outcome_ret : MRet outcome := fun A a => Ret a.
#[global] Instance outcome_bind : MBind outcome := fun A B k m =>
  match m with
  | Ret a => k a
  | Raise e => Raise e
  end.

(** ** Python strings *)

Definition in_range (lo hi : nat) (c : ascii) : bool :=
  let n := nat_of_ascii c in (lo <=? n)%nat && (n <=? hi)%nat.

Definition lower_char (c : ascii) : ascii :=
  if in_range 65 90 c then ascii_of_nat (nat_of_ascii c + 32) else c.

Fixpoint lower (s : string) : string :=
  match s with
  | EmptyString => EmptyString
  | String c s' => String (lower_char c) (lower s')
  end.

(** [str.isspace] on ASCII: TAB..CR, FS..US and the space. *)
Definition py_isspace (c : ascii) : bool :=
  in_range 9 13 c || in_range 28 32 c.

Fixpoint lstrip (s : string) : string :=
  match s with
  | EmptyString => EmptyString
  | String c s' => if py_isspace c then lstrip s' else s
  end.

Fixpoint rstrip (s : string) : string :=
  match s with
  | EmptyString => EmptyString
  | String c s' =>
      match rstrip s' with
      | EmptyString => if py_isspace c then EmptyString else String c EmptyString
      | r => String c r
      end
  end.

Definition strip (s : string) : string := rstrip (lstrip s).

Definition str_truthy (s : string) : bool := negb (bool_decide (s = "")).

(** Truthiness of an [Optional[str]]: [None] and [""] are falsy. *)
Definition truthy (o : option string) : bool :=
  match o with
  | Some s => str_truthy s
  | None => false
  end.

(** [needle in hay]. *)
Fixpoint contains (needle hay : string) : bool :=
  String.prefix needle hay ||
  match hay with
  | EmptyString => false
  | String _ hay' => contains needle hay'
  end.

(** [s.split(sep)] for a one-character separator. *)
Fixpoint split_char (sep : ascii) (s : string) : list string :=
  match s with
  | EmptyString => [EmptyString]
  | String c s' =>
      if bool_decide (c = sep) then EmptyString :: split_char sep s'
      else match split_char sep s' with
           | [] => [String c EmptyString]
           | p :: ps => String c p :: ps
           end
  end.

(** [s.split("::", 1)], [None] when the separator does not occur (the
    resulting list then has one element only). *)
Fixpoint split_once (s : string) : option (string * string) :=
  match s with
  | EmptyString => None
  | String c s' =>
      match s' with
      | String c' s'' =>
          if bool_decide (c = ":"%char) && bool_decide (c' = ":"%char)
          then Some (EmptyString, s'')
          else match split_once s' with
               | Some (a, b) => Some (String c a, b)
               | None => None
               end
      | EmptyString => None
      end
  end.

(** ** Python floats *)

Definition Qltb (x y : Q) : bool := negb (Qle_bool y x).

(** Truthiness of a float, and [x or y]. *)
Definition q_truthy (x : Q) : bool := negb (Qeq_bool x 0).
Definition q_or (x y : Q) : Q := if q_truthy x then x else y.

(** [min(a, b)]: the first argument unless the second is smaller. *)
Definition py_min (a b : Q) : Q := if Qltb b a then b else a.

(** Rounding to the nearest integer, ties to the even one. *)
Definition round_half_even (q : Q) : Z :=
  let f := Qfloor q in
  match Qcompare (q - inject_Z f) (1 # 2) with
  | Lt => f
  | Gt => (f + 1)%Z
  | Eq => if Z.even f then f else (f + 1)%Z
  end.

(** [round(q, 4)]. *)
Definition round4 (q : Q) : Q :=
  (round_half_even (q * 10000) # 10000)%Q.

Definition qsum (l : list Q) : Q := foldr Qplus 0%Q l.

(** ** Python dicts with string keys, in insertion order *)

Definition dict := list (string * Q).

Fixpoint dict_get (d : dict) (k : string) (default : Q) : Q :=
  match d with
  | [] => default
  | (k', v) :: d' => if bool_decide (k' = k) then v else dict_get d' k default
  end.

Fixpoint dict_set (d : dict) (k : string) (v : Q) : dict :=
  match d with
  | [] => [(k, v)]
  | (k', v') :: d' =>
      if bool_decide (k' = k) then (k, v) :: d' else (k', v') :: dict_set d' k v
  end.

(** [sorted(items, key=lambda kv: kv[1], reverse=True)]: a stable sort,
    equal scores keep their order. *)
Fixpoint insert_desc {A} (x : A * Q) (l : list (A * Q)) : list (A * Q) :=
  match l with
  | [] => [x]
  | y :: l' => if Qltb (snd x) (snd y) then y :: insert_desc x l' else x :: l
  end.

Definition sorted_desc {A} (l : list (A * Q)) : list (A * Q) :=
  foldr insert_desc [] l.

(** ** Tokenizer and similarity (server.py, [tokenize] and [jaccard]) *)

(** [_TOKEN_RE = re.compile(r"[a-z0-9_]+", re.IGNORECASE)]. *)
Definition token_char (c : ascii) : bool :=
  in_range 97 122 c || in_range 65 90 c || in_range 48 57 c
  || bool_decide (c = "_"%char).

(** [_TOKEN_RE.findall(s)]: the maximal runs of token characters; [cur] is
    the run being read. *)
Fixpoint findall (s : string) (cur : string) : list string :=
  match s with
  | EmptyString => if str_truthy cur then [cur] else []
  | String c s' =>
      if token_char c then findall s' (cur +:+ String c EmptyString)
      else if str_truthy cur then cur :: findall s' EmptyString
           else findall s' EmptyString
  end.

(** The de-duplicating loop of [tokenize]; [out] is the list built so far
    ([seen] holds the same elements). *)
Fixpoint dedup_loop (max_tokens : nat) (toks out : list string) : list string :=
  match toks with
  | [] => out
  | t :: toks' =>
      if bool_decide (t ∈ out) then dedup_loop max_tokens toks' out
      else let out' := (out ++ [t])%list in
           if (max_tokens <=? length out')%nat then out'
           else dedup_loop max_tokens toks' out'
  end.

Definition tokenize (text : string) (max_tokens : nat) : list string :=
  dedup_loop max_tokens (findall (lower text) EmptyString) [].

Definition jaccard (a b : list string) : Q :=
  let sa : gset string := list_to_set a in
  let sb : gset string := list_to_set b in
  if bool_decide (sa = ∅) && bool_decide (sb = ∅) then 0%Q
  else
    let inter := size (sa ∩ sb) in
    let union := size (sa ∪ sb) in
    if bool_decide (union = 0%nat) then 0%Q
    else (Z.of_nat inter # Pos.of_nat union)%Q.

(** ** The store (server.py, [init_db]) *)

(** A row of table [texts]. *)
Module Row.
Record t := mk {
    symbol : string;
    body : string;
    cat : option string;
    subcat : option string;
    hash : string;
    ts_created : string;
    ts_updated : string
  }.
End Row.

Record DB := mkDB {
  texts : list Row.t;
  aliases : gmap string string
}.

(** Both tables as [init_db] creates them in a fresh database file. *)
Definition init_db : DB := {| texts := []; aliases := ∅ |}.

(** [SELECT ... FROM texts WHERE symbol=?] followed by [fetchone()]. *)
Definition select_row (db : DB) (sym : string) : option Row.t :=
  List.find (fun r => bool_decide (Row.symbol r = sym)) (texts db).

Module SaveArgs.
Record t := mk {
    symbol : string;
    text : string;
    cat : option string;
    subcat : option string;
    aliases : option (list string)
  }.
End SaveArgs.

(** The [arguments] object of a request before validation: a field is
    absent ([None]) or holds a value of the declared type. *)
Module RawArgs.
Record t := mk {
    symbol : option string;
    text : option string;
    cat : option string;
    subcat : option string;
    aliases : option (list string)
  }.
End RawArgs.

Definition max_len_ok (n : nat) (o : option string) : bool :=
  match o with
  | Some s => (String.length s <=? n)%nat
  | None => true
  end.

(** Construction of [SaveArgs] from the request arguments, with the [Field]
    constraints of the model class. *)
Definition parse_SaveArgs (raw : RawArgs.t) : outcome SaveArgs.t :=
  match RawArgs.symbol raw, RawArgs.text raw with
  | Some s, Some t =>
      if (1 <=? String.length s)%nat && (String.length s <=? 128)%nat
         && (1 <=? String.length t)%nat
         && max_len_ok 64 (RawArgs.cat raw)
         && max_len_ok 128 (RawArgs.subcat raw)
      then Ret (SaveArgs.mk s t (RawArgs.cat raw) (RawArgs.subcat raw)
                            (RawArgs.aliases raw))
      else Raise ValidationError
  | _, _ => Raise ValidationError
  end.

Definition resolve_symbol (db : DB) (sym : string) : option string :=
  match select_row db sym with
  | Some _ => Some sym
  | None => aliases db !! sym
  end.

Definition get_existing_meta (db : DB) (symbol : string)
  : option string * option string :=
  match select_row db symbol with
  | None => (None, None)
  | Some row => (Row.cat row, Row.subcat row)
  end.

Module SaveResult.
Record t := mk {
    status : string;
    symbol : string;
    hash : string;
    ts_created : string;
    ts_updated : string;
    prev : option string * option string
  }.
End SaveResult.

(** The alias loop of [save_text]: [INSERT OR REPLACE] of every alias that
    is not blank once stripped. *)
Definition save_aliases (symbol : string) (al : option (list string))
    (m : gmap string string) : gmap string string :=
  match al with
  | Some l =>
      foldl (fun m a => let a := strip a in
                        if str_truthy a then <[a := symbol]> m else m) m l
  | None => m
  end.

(** ** The taxonomy suggester (server.py, [suggest_taxonomy]) *)

Module CatSug.
Record t := mk { value : string; score : Q }.
End CatSug.

Module SubSug.
Record t := mk { cat : string; value : string; score : Q }.
End SubSug.

Module Neighbor.
Record t := mk { symbol : string; sim : Q }.
End Neighbor.

Module Suggestions.
Record t := mk {
    cat : list CatSug.t;
    subcat : list SubSug.t;
    neighbors : list Neighbor.t
  }.
End Suggestions.

(** The three accumulators of the scan. *)
Record Acc := mkAcc {
  cat_scores : dict;
  subcat_scores : dict;
  neighbors : list (string * Q)
}.

Definition acc0 : Acc := mkAcc [] [] [].

(** [SELECT symbol, body, cat, subcat FROM texts
     WHERE cat IS NOT NULL OR subcat IS NOT NULL LIMIT ?]. *)
Definition tagged (r : Row.t) : bool :=
  bool_decide (is_Some (Row.cat r)) || bool_decide (is_Some (Row.subcat r)).

Definition select_tagged (db : DB) (limit_rows : nat) : list Row.t :=
  take limit_rows (filter (fun r => tagged r = true) (texts db)).

(** The text whose tokens stand for an entry: [f"{symbol} {text}"]. *)
Definition entry_text (symbol text : string) : string :=
  symbol +:+ " " +:+ text.

Definition pair_key (cat subcat : string) : string :=
  cat +:+ "::" +:+ subcat.

(** The similarity of a scanned row to the new entry's tokens. *)
Definition row_sim (new_toks : list string) (row : Row.t) : Q :=
  let toks := tokenize (entry_text (Row.symbol row) (Row.body row)) 80 in
  jaccard new_toks toks.

(** The test [if not cat and not subcat: continue], negated. *)
Definition has_taxonomy (row : Row.t) : bool :=
  truthy (Row.cat row) || truthy (Row.subcat row).

(** [d[key] = d.get(key, 0.0) + sim]. *)
Definition add_vote (d : dict) (key : string) (sim : Q) : dict :=
  dict_set d key (dict_get d key 0 + sim)%Q.

(** [if cat: ...] *)
Definition cat_vote (d : dict) (row : Row.t) (sim : Q) : dict :=
  match Row.cat row with
  | Some cat => if str_truthy cat then add_vote d cat sim else d
  | None => d
  end.

(** [if cat and subcat: ...] *)
Definition pair_vote (d : dict) (row : Row.t) (sim : Q) : dict :=
  match Row.cat row, Row.subcat row with
  | Some cat, Some subcat =>
      if str_truthy cat && str_truthy subcat
      then add_vote d (pair_key cat subcat) sim
      else d
  | _, _ => d
  end.

(** One iteration of the loop over [rows]. *)
Definition scan_step (new_toks : list string) (min_sim : Q)
    (acc : Acc) (row : Row.t) : Acc :=
  if negb (has_taxonomy row) then acc
  else
    let sim := row_sim new_toks row in
    if Qltb sim min_sim then acc
    else mkAcc (cat_vote (cat_scores acc) row sim)
               (pair_vote (subcat_scores acc) row sim)
               (neighbors acc ++ [(Row.symbol row, sim)])%list.

Definition scan (new_toks : list string) (min_sim : Q) (rows : list Row.t) : Acc :=
  foldl (scan_step new_toks min_sim) acc0 rows.

(** [sum(d.values()) or 1.0]. *)
Definition total (d : dict) : Q := q_or (qsum (snd <$> d)) 1.

(** The inner function [top_n]. *)
Definition top_n (d : dict) (n : nat) : list CatSug.t :=
  let items := take n (sorted_desc d) in
  let total := total d in
  (fun kv => CatSug.mk (fst kv) (round4 (snd kv / total))) <$> items.

(** The pair group: the same ranking, each key split back into its parts.
    Unpacking [k.split("::", 1)] raises when the key has no separator. *)
Fixpoint pair_items (total : Q) (items : list (string * Q))
  : outcome (list SubSug.t) :=
  match items with
  | [] => Ret []
  | (k, v) :: items' =>
      match split_once k with
      | Some (cat, subcat) =>
          out ← pair_items total items';
          Ret (SubSug.mk cat subcat (round4 (v / total)) :: out)
      | None => Raise ValueError
      end
  end.

Definition suggest_taxonomy_with (symbol text : string) (limit_rows : nat)
    (min_sim : Q) (db : DB) : outcome (option Suggestions.t) :=
  let new_toks := tokenize (entry_text symbol text) 80 in
  if bool_decide (new_toks = []) then Ret None
  else
    let rows := select_tagged db limit_rows in
    if bool_decide (rows = []) then Ret None
    else
      let acc := scan new_toks min_sim rows in
      if bool_decide (cat_scores acc = []) && bool_decide (subcat_scores acc = [])
      then Ret None
      else
        let neighbors := take 5 (sorted_desc (neighbors acc)) in
        let cats := top_n (cat_scores acc) 3 in
        subcats ← (if bool_decide (subcat_scores acc = []) then Ret []
                   else pair_items (total (subcat_scores acc))
                                   (take 3 (sorted_desc (subcat_scores acc))));
        Ret (Some (Suggestions.mk cats subcats
                     ((fun n => Neighbor.mk (fst n) (round4 (snd n))) <$> neighbors))).

(** The default arguments [limit_rows=2000] and [min_sim=0.10]. *)
Definition limit_rows_default : nat := 2000.
Definition min_sim_default : Q := 1 # 10.

Definition suggest_taxonomy (symbol text : string) (db : DB)
  : outcome (option Suggestions.t) :=
  suggest_taxonomy_with symbol text limit_rows_default min_sim_default db.

(** ** Requests, responses and the client's records *)

(** A JSON-RPC request: its [method] and the fields of [params] the
    handler reads.  [uri] is [None] when the field is absent or is not a
    string. *)
Module Request.
Record t := mk {
    method : string;
    name : option string;
    arguments : RawArgs.t;
    uri : option string
  }.
End Request.

Module Content.
Record t := mk { uri : string; type : string; text : string }.
End Content.

Module DefineBlock.
Record t := mk {
    symbol : option string;
    project : string;
    cat : option string;
    subcat : option string;
    tags : list string;
    aliases : list string;
    body : string
  }.
End DefineBlock.

(** The record kept in [LAST_APPLY_FILE]. *)
Module ApplyRecord.
Record t := mk {
    symbol : string;
    prev_cat : option string;
    prev_subcat : option string;
    new_cat : option string;
    new_subcat : option string;
    score : Q
  }.
End ApplyRecord.

(** ** Saving (server.py, [save_text]) *)

Section Server.

(** [hashlib.sha256(text.encode("utf-8")).hexdigest()]. *)
Variable sha256_text : string -> string.

(** The [UPDATE texts SET ... WHERE symbol=?] statement. *)
Definition update_row (args : SaveArgs.t) (h ts : string) (r : Row.t) : Row.t :=
  if bool_decide (Row.symbol r = SaveArgs.symbol args)
  then Row.mk (Row.symbol r) (SaveArgs.text args) (SaveArgs.cat args)
              (SaveArgs.subcat args) h (Row.ts_created r) ts
  else r.

(** The row written by the [INSERT INTO texts] statement. *)
Definition new_row (args : SaveArgs.t) (ts : string) : Row.t :=
  Row.mk (SaveArgs.symbol args) (SaveArgs.text args) (SaveArgs.cat args)
         (SaveArgs.subcat args) (sha256_text (SaveArgs.text args)) ts ts.

Definition save_text (args : SaveArgs.t) (ts : string) (db : DB)
  : SaveResult.t * DB :=
  let h := sha256_text (SaveArgs.text args) in
  let '(prev_cat, prev_subcat) := get_existing_meta db (SaveArgs.symbol args) in
  let existed := bool_decide (is_Some (select_row db (SaveArgs.symbol args))) in
  let '(texts', ts_created) :=
    if existed then
      let texts' := update_row args h ts <$> texts db in
      (texts',
       match select_row (mkDB texts' (aliases db)) (SaveArgs.symbol args) with
       | Some row => Row.ts_created row
       | None => ts
       end)
    else
      ((texts db ++ [new_row args ts])%list, ts) in
  let aliases' := save_aliases (SaveArgs.symbol args) (SaveArgs.aliases args)
                               (aliases db) in
  (SaveResult.mk (if negb existed then "created" else "updated")
                 (SaveArgs.symbol args) h ts_created ts (prev_cat, prev_subcat),
   mkDB texts' aliases').


(** ** The gateway (server.py, [mcp]) *)

Definition PROTOCOL_VERSION : string := "2025-06-18".

(** The [result] member of a response. *)
Inductive Result :=
| InitializeResult (protocolVersion server_name server_version : string)
| NullResult
| SaveOk (result : SaveResult.t) (suggestions : option Suggestions.t)
| ReadOk (contents : list Content.t).

(** The branch [name == "sm.texts.save"] of [tools/call]. *)
Definition tools_save (raw : RawArgs.t) (ts : string) (db : DB)
  : outcome Result * DB :=
  match parse_SaveArgs raw with
  | Raise e => (Raise e, db)
  | Ret parsed =>
      let '(result, db') := save_text parsed ts db in
      let suggestions :=
        if bool_decide (SaveArgs.cat parsed = None)
           || bool_decide (SaveArgs.subcat parsed = None)
        then suggest_taxonomy (SaveArgs.symbol parsed) (SaveArgs.text parsed) db'
        else Ret None in
      (sg ← suggestions; Ret (SaveOk result sg), db')
  end.

(** The store's get, the statements of the read branch from
    [resolved = resolve_symbol(symbol)] to [body = row[0]]. *)
Definition get (db : DB) (symbol : string) : outcome string :=
  match resolve_symbol db symbol with
  | None => Raise (HTTPException 404 "Not found")
  | Some resolved =>
      if negb (str_truthy resolved) then Raise (HTTPException 404 "Not found")
      else
        match select_row db resolved with
        | None => Raise (HTTPException 404 "Not found")
        | Some row => Ret (Row.body row)
        end
  end.

(** [uri.split("/")[-1]]. *)
Definition last_segment (uri : string) : string :=
  List.last (split_char "/" uri) EmptyString.

(** The branch [method == "resources/read"]. *)
Definition resources_read (uri : option string) (db : DB) : outcome Result :=
  match uri with
  | None => Raise (HTTPException 400 "Invalid uri")
  | Some uri =>
      if negb (contains "://" uri) then Raise (HTTPException 400 "Invalid uri")
      else
        body ← get db (last_segment uri);
        Ret (ReadOk [Content.mk uri "text" body])
  end.

Definition mcp (req : Request.t) (ts : string) (db : DB) : outcome Result * DB :=
  if bool_decide (Request.method req = "initialize")
  then (Ret (InitializeResult PROTOCOL_VERSION "sm-mcp" "0.1"), db)
  else if bool_decide (Request.method req = "notifications/initialized")
  then (Ret NullResult, db)
  else if bool_decide (Request.method req = "tools/call")
          && bool_decide (Request.name req = Some "sm.texts.save")
  then tools_save (Request.arguments req) ts db
  else if bool_decide (Request.method req = "resources/read")
  then (resources_read (Request.uri req) db, db)
  else (Raise (HTTPException 400 ("Unknown method: " +:+ Request.method req)), db).

(** ** The client (client.py) *)

Definition MIN_SCORE : Q := 13 # 20.

Definition no_args : RawArgs.t := RawArgs.mk None None None None None.

(** [MCPClient.rpc]: a response with status 400 or more raises. *)
Definition rpc (req : Request.t) (ts : string) (db : DB) : outcome Result * DB :=
  match mcp req ts db with
  | (Ret r, db') => (Ret r, db')
  | (Raise _, db') => (Raise (RuntimeError "HTTP error"), db')
  end.

Definition initialize (ts : string) (db : DB) : outcome Result * DB :=
  match rpc (Request.mk "initialize" None no_args None) ts db with
  | (Ret init, db') =>
      match rpc (Request.mk "notifications/initialized" None no_args None) ts db' with
      | (Ret _, db'') => (Ret init, db'')
      | (Raise e, db'') => (Raise e, db'')
      end
  | (Raise e, db') => (Raise e, db')
  end.

Definition tools_call (name : string) (arguments : RawArgs.t) (ts : string)
    (db : DB) : outcome Result * DB :=
  rpc (Request.mk "tools/call" (Some name) arguments None) ts db.

(** The local variables of [_pick_top_suggestion] when it reaches its last
    statement. *)
Record Selection := mkSel {
  top_cat : option string;
  top_cat_score : Q;
  chosen_sub : option string;
  chosen_sub_score : Q
}.

Definition select_top (suggestions : Suggestions.t) : Selection :=
  let cat_sug := Suggestions.cat suggestions in
  let sub_sug := Suggestions.subcat suggestions in
  let top_cat := CatSug.value <$> head cat_sug in
  let top_cat_score := default 0%Q (CatSug.score <$> head cat_sug) in
  match sub_sug with
  | [] => mkSel top_cat top_cat_score None 0
  | first :: _ =>
      match List.find (fun s => truthy top_cat
                                && bool_decide (Some (SubSug.cat s) = top_cat))
                      sub_sug with
      | Some s => mkSel top_cat top_cat_score (Some (SubSug.value s)) (SubSug.score s)
      | None =>
          if str_truthy (SubSug.cat first)
          then mkSel (Some (SubSug.cat first))
                     (q_or top_cat_score (SubSug.score first))
                     (Some (SubSug.value first)) (SubSug.score first)
          else mkSel top_cat top_cat_score
                     (Some (SubSug.value first)) (SubSug.score first)
      end
  end.

Definition _pick_top_suggestion (suggestions : Suggestions.t)
  : option string * option string * Q :=
  let st := select_top suggestions in
  let score :=
    if truthy (top_cat st) && truthy (chosen_sub st)
    then py_min (q_or (top_cat_score st) 0) (q_or (chosen_sub_score st) 0)
    else q_or (top_cat_score st) (chosen_sub_score st) in
  (top_cat st, chosen_sub st, score).

(** The default answer shown by [_prompt_apply]. *)
Definition prompt_default (score : Q) : string :=
  let default_yes := Qle_bool MIN_SCORE score in
  if default_yes then "Y" else "n".

(** [typed] is the line read by [input]. *)
Definition _prompt_apply (cat subcat : option string) (score : Q)
    (typed : string) : string :=
  let ans := strip typed in
  if negb (str_truthy ans) then prompt_default score else ans.

Definition _prompt_edit (cat subcat : option string)
    (typed_cat typed_sub : string) : option string * option string :=
  let keep (typed : string) (old : option string) :=
    if str_truthy (strip typed) then Some (strip typed)
    else if truthy old then old else None in
  (keep typed_cat cat, keep typed_sub subcat).

(** What [cmd_save] acts on: the server's database and the contents of
    [LAST_APPLY_FILE] ([None] when the file is missing or unreadable). *)
Record World := mkWorld {
  server : DB;
  last_apply_file : option ApplyRecord.t
}.

Definition _load_last_apply (w : World) : option ApplyRecord.t :=
  last_apply_file w.

Definition _save_last_apply (data : ApplyRecord.t) (w : World) : World :=
  mkWorld (server w) (Some data).

(** The lines typed at the three prompts. *)
Record UserInput := mkInput {
  answer : string;
  edit_cat : string;
  edit_subcat : string
}.

(** What [cmd_save] prints. *)
Inductive Printed :=
| PrintResult (r : Result)
| PrintNothingToUndo
| PrintUndo (r : Result)
| PrintApplied (r : Result).

Definition save_payload (symbol body : string) (cat subcat : option string)
    (aliases : list string) : RawArgs.t :=
  RawArgs.mk (Some symbol) (Some body) cat subcat (Some aliases).

(** [cmd_save] once the DEFINE block is parsed; [ts1] and [ts2] are the
    server's clock readings at the first and at the follow-up save. *)
Definition cmd_save (arg_symbol : option string) (blk : DefineBlock.t)
    (inp : UserInput) (ts1 ts2 : string) (w : World)
  : outcome (list Printed) * World :=
  match (if truthy arg_symbol then arg_symbol else DefineBlock.symbol blk) with
  | None => (Raise (SystemExit "Error: symbol missing."), w)
  | Some symbol =>
    if negb (str_truthy symbol) then (Raise (SystemExit "Error: symbol missing."), w)
    else
    match initialize ts1 (server w) with
    | (Raise e, db) => (Raise e, mkWorld db (last_apply_file w))
    | (Ret _, db) =>
    let body := DefineBlock.body blk in
    let aliases := DefineBlock.aliases blk in
    let payload := save_payload symbol body (DefineBlock.cat blk)
                                (DefineBlock.subcat blk) aliases in
    match tools_call "sm.texts.save" payload ts1 db with
    | (Raise e, db1) => (Raise e, mkWorld db1 (last_apply_file w))
    | (Ret result, db1) =>
      let w1 := mkWorld db1 (last_apply_file w) in
      let already_has := bool_decide (is_Some (DefineBlock.cat blk))
                         && bool_decide (is_Some (DefineBlock.subcat blk)) in
      match result with
      | SaveOk res (Some suggestions) =>
        if already_has then (Ret [PrintResult result], w1)
        else
          let '(sug_cat, sug_sub, score) := _pick_top_suggestion suggestions in
          if negb (truthy sug_cat) && negb (truthy sug_sub)
          then (Ret [PrintResult result], w1)
          else
            let ans := lower (_prompt_apply sug_cat sug_sub score (answer inp)) in
            if bool_decide (ans = "u") then
              match _load_last_apply w1 with
              | None => (Ret [PrintResult result; PrintNothingToUndo], w1)
              | Some last =>
                  let rb_payload :=
                    save_payload (ApplyRecord.symbol last) body
                                 (ApplyRecord.prev_cat last)
                                 (ApplyRecord.prev_subcat last) aliases in
                  match tools_call "sm.texts.save" rb_payload ts2 db1 with
                  | (Raise e, db2) => (Raise e, mkWorld db2 (last_apply_file w1))
                  | (Ret rb, db2) =>
                      (Ret [PrintResult result; PrintUndo rb],
                       mkWorld db2 (last_apply_file w1))
                  end
              end
            else
              let '(sug_cat, sug_sub, ans) :=
                if bool_decide (ans = "e")
                then let '(c, s) := _prompt_edit sug_cat sug_sub
                                                 (edit_cat inp) (edit_subcat inp) in
                     (c, s, "y")
                else (sug_cat, sug_sub, ans) in
              if bool_decide (ans = "y") then
                let prev := SaveResult.prev res in
                let apply_payload := save_payload symbol body sug_cat sug_sub aliases in
                match tools_call "sm.texts.save" apply_payload ts2 db1 with
                | (Raise e, db2) => (Raise e, mkWorld db2 (last_apply_file w1))
                | (Ret applied, db2) =>
                    (Ret [PrintResult result; PrintApplied applied],
                     _save_last_apply
                       (ApplyRecord.mk symbol (fst prev) (snd prev) sug_cat sug_sub score)
                       (mkWorld db2 (last_apply_file w1)))
                end
              else (Ret [PrintResult result], w1)
      | _ => (Ret [PrintResult result], w1)
      end
    end
    end
  end.

End Server.

(** ** Runs of the gateway *)

(** The database after a sequence of requests, each with the clock reading
    at its arrival. *)
Definition run (sha256_text : string -> string)
    (reqs : list (Request.t * string)) (db : DB) : DB :=
  foldl (fun db rq => (mcp sha256_text rq.1 rq.2 db).2) db reqs.

Definition reachable (sha256_text : string -> string) (db : DB) : Prop :=
  exists reqs, db = run sha256_text reqs init_db.

(** Every alias points at a stored entry. *)
Definition alias_targets_stored (db : DB) : Prop :=
  forall a s, aliases db !! a = Some s -> is_Some (select_row db s).

(** The score reported for an aggregate [kv] of a group that sums to [total]. *)
Definition pair_score (total : Q) (kv : string * Q) : Q := round4 (kv.2 / total).

(** All aggregates of a dict are positive. *)
Definition positive (d : dict) : Prop := forall kv, kv ∈ d -> (0 < kv.2)%Q.

(** What every reachable database satisfies: alias targets are stored,
    symbols are unique (the primary key) and none is empty. *)
Record store_inv (db : DB) : Prop := mk_store_inv {
  inv_alias : alias_targets_stored db;
  inv_unique : NoDup (Row.symbol <$> texts db);
  inv_named : forall r, r ∈ texts db -> Row.symbol r ≠ EmptyString
}.

(** The resource scheme as the specification words it: the fixed prefix
    followed by one path segment, the symbol or alias. *)
Definition matches_resource_scheme (uri : string) : bool :=
  let pre := "resource://sm/v1/texts/" in
  String.prefix pre uri
  && negb (contains "/" (String.substring (String.length pre)
                           (String.length uri - String.length pre) uri)).

(** The combined score as the specification states it, for a selection
    [cat], [sub] whose scores are [Cs] (category) and [Ps] (pair): the
    minimum of the two when a category and a subcategory are both selected;
    otherwise whichever score is present, that is not zero, the category
    score first, and 0 when neither is. *)
Definition combined_as_specified (cat sub : option string) (Cs Ps score : Q)
  : Prop :=
  (truthy cat && truthy sub = true -> (score == Qmin Cs Ps)%Q)
  /\ (truthy cat && truthy sub = false ->
      (~ (Cs == 0)%Q -> (score == Cs)%Q)
      /\ ((Cs == 0)%Q -> ~ (Ps == 0)%Q -> (score == Ps)%Q)
      /\ ((Cs == 0)%Q -> (Ps == 0)%Q -> (score == 0)%Q)).

(** ** Data of the worked examples *)

(** A stand-in for the digest: no statement below depends on its values. *)
Definition toy_digest (s : string) : string := s.

Definition save_request (symbol text : string) (cat subcat : option string)
    (aliases : option (list string)) : Request.t :=
  Request.mk "tools/call" (Some "sm.texts.save")
             (RawArgs.mk (Some symbol) (Some text) cat subcat aliases) None.

Definition read_request (uri : string) : Request.t :=
  Request.mk "resources/read" None no_args (Some uri).

(** The entries saved by the smoke test. *)
Definition smoke_db : DB :=
  run toy_digest
    [(save_request "TST.ONE" "hello world one" (Some "test") (Some "smoke.basic")
                   (Some ["one"; "first"]), "t1");
     (save_request "TST.NEIGHBOR" "hybrid intelligence symbolic memory"
                   (Some "ai") (Some "architecture.hybrid") None, "t2")]
    init_db.

(** An entry [B], then the arguments of a save of [A] under the alias [B]. *)
Definition shadow_db : DB :=
  run toy_digest [(save_request "B" "body of B" None None None, "t1")] init_db.

Definition shadow_args : SaveArgs.t :=
  SaveArgs.mk "A" "body of A" None None (Some ["B"]).

(** A save with a category and no subcategory whose symbol and text hold no
    token character. *)
Definition tokenless_raw : RawArgs.t :=
  RawArgs.mk (Some ".") (Some "!") (Some "c") None None.

(** Four entries with the same tokens, each in a category of its own. *)
Definition four_cats_db : DB :=
  run toy_digest
    [(save_request "a" "a b c d" (Some "c1") (Some "s") None, "t1");
     (save_request "b" "a b c d" (Some "c2") (Some "s") None, "t2");
     (save_request "c" "a b c d" (Some "c3") (Some "s") None, "t3");
     (save_request "d" "a b c d" (Some "c4") (Some "s") None, "t4")]
    init_db.

(** A store with one tagged neighbor, and no apply record yet. *)
Definition start_world : World :=
  mkWorld (run toy_digest
             [(save_request "N" "beta gamma alpha" (Some "k") (Some "s") None, "t0")]
             init_db)
          None.

Definition block_A : DefineBlock.t :=
  DefineBlock.mk (Some "A") "default" None None [] [] "alpha text".

Definition block_B : DefineBlock.t :=
  DefineBlock.mk (Some "B") "default" None None [] [] "beta gamma".

(** An empty line at the prompt takes the default; [u] asks for the undo. *)
Definition default_input : UserInput := mkInput "" "" "".
Definition undo_input : UserInput := mkInput "u" "" "".

(** The first save of the smoke test, as request arguments and validated. *)
Definition smoke_raw : RawArgs.t :=
  RawArgs.mk (Some "TST.ONE") (Some "hello world one") (Some "test")
             (Some "smoke.basic") (Some ["one"; "first"]).

Definition smoke_args : SaveArgs.t :=
  SaveArgs.mk "TST.ONE" "hello world one" (Some "test") (Some "smoke.basic")
              (Some ["one"; "first"]).

(** A save of a new entry with a category and no subcategory. *)
Definition two_raw : RawArgs.t :=
  RawArgs.mk (Some "TST.TWO") (Some "hybrid intelligence and symbolic memory")
             (Some "ai") None None.

Definition two_args : SaveArgs.t :=
  SaveArgs.mk "TST.TWO" "hybrid intelligence and symbolic memory"
              (Some "ai") None None.

(** What the suggester returns for a new entry [e] over [four_cats_db]. *)
Definition four_cats_suggestions : Suggestions.t :=
  Eval vm_compute in
    match suggest_taxonomy "e" "a b c d" four_cats_db with
    | Ret (Some sg) => sg
    | _ => Suggestions.mk [] [] []
    end.

(** The row of [TST.ONE] in [smoke_db], and the tokens of the third entry
    of the smoke test; they share one token out of ten. *)
Definition smoke_row_one : Row.t :=
  Row.mk "TST.ONE" "hello world one" (Some "test") (Some "smoke.basic")
         "hello world one" "t1" "t1".


From Stdlib Require Import Sorted.

(** ** Predicates on text *)

(** Every character of [s] passes the test [p]. *)
Fixpoint all_chars (p : ascii -> bool) (s : string) : bool :=
  match s with
  | EmptyString => true
  | String c s' => p c && all_chars p s'
  end.

(** The characters of a token once the text is lower-cased. *)
Definition lower_token_char (c : ascii) : bool :=
  in_range 97 122 c || in_range 48 57 c || bool_decide (c = "_"%char).

(** ** Well-formed rows *)

(** A row as a validated save writes it: the digest is that of the body and
    the fields meet the [Field] constraints of [SaveArgs]. *)
Definition row_valid (sha256_text : string -> string) (r : Row.t) : Prop :=
  Row.hash r = sha256_text (Row.body r)
  /\ (1 <= String.length (Row.symbol r) <= 128)%nat
  /\ (1 <= String.length (Row.body r))%nat
  /\ max_len_ok 64 (Row.cat r) = true
  /\ max_len_ok 128 (Row.subcat r) = true.

(** ** Rankings *)

(** A list of scores in non-increasing order. *)
Definition descending (l : list Q) : Prop :=
  forall i j x y, (i <= j)%nat -> l !! i = Some x -> l !! j = Some y -> (y <= x)%Q.

(** ** Reading through the client (client.py, [cmd_get]) *)

(** What [cmd_get] prints: the text of the first content descriptor, or
    the whole response when it has no [contents]. *)
Inductive GetPrinted :=
| PrintText (txt : string)
| PrintResp (resp : Result).

Section ClientGet.

Variable sha256_text : string -> string.

(** [MCPClient.resources_read]. *)
Definition MCPClient_resources_read (uri : string) (ts : string) (db : DB)
  : outcome Result * DB :=
  rpc sha256_text (Request.mk "resources/read" None no_args (Some uri)) ts db.

(** The uri that [cmd_get] reads: the resource prefix, then the symbol. *)
Definition resource_uri (symbol : string) : string :=
  "resource://sm/v1/texts/" +:+ symbol.

Definition cmd_get (symbol : string) (ts : string) (db : DB)
  : outcome GetPrinted * DB :=
  match initialize sha256_text ts db with
  | (Raise e, db') => (Raise e, db')
  | (Ret _, db') =>
      let uri := resource_uri symbol in
      match MCPClient_resources_read uri ts db' with
      | (Raise e, db'') => (Raise e, db'')
      | (Ret resp, db'') =>
          match resp with
          | ReadOk contents =>
              let txt := match contents with
                         | c :: _ => Content.text c
                         | [] => EmptyString
                         end in
              (Ret (PrintText txt), db'')
          | _ => (Ret (PrintResp resp), db'')
          end
      end
  end.

End ClientGet.

(** ** DEFINE blocks (client.py, [_parse_kv_headers] and
       [parse_last_define_block]) *)

(** The ASCII line boundaries of [str.splitlines]: LF, VT, FF, CR, FS, GS
    and RS; CR followed by LF is one boundary. *)
Definition is_linebreak (c : ascii) : bool :=
  in_range 10 13 c || in_range 28 30 c.

(** [s.splitlines()]; [cur] is the line being read.  No empty last line is
    produced after a final boundary. *)
Fixpoint splitlines_go (s : string) (cur : string) : list string :=
  match s with
  | EmptyString => if str_truthy cur then [cur] else []
  | String c s' =>
      if is_linebreak c then
        match s' with
        | String c' s'' =>
            if bool_decide (c = "013"%char) && bool_decide (c' = "010"%char)
            then cur :: splitlines_go s'' EmptyString
            else cur :: splitlines_go s' EmptyString
        | EmptyString => cur :: splitlines_go s' EmptyString
        end
      else splitlines_go s' (cur +:+ String c EmptyString)
  end.

Definition splitlines (s : string) : list string := splitlines_go s EmptyString.

(** Joining the lines with a newline between them, as [str.join] does. *)
Fixpoint join_lines (lines : list string) : string :=
  match lines with
  | [] => EmptyString
  | [l] => l
  | l :: ls => l +:+ String "010" (join_lines ls)
  end.

(** [str.rstrip] with the newline as the only character to remove. *)
Fixpoint rstrip_newlines (s : string) : string :=
  match s with
  | EmptyString => EmptyString
  | String c s' =>
      match rstrip_newlines s' with
      | EmptyString => if bool_decide (c = "010"%char) then EmptyString
                       else String c EmptyString
      | r => String c r
      end
  end.

(** The characters of a header key, [[A-Za-z0-9_.-]]. *)
Definition key_char (c : ascii) : bool :=
  in_range 65 90 c || in_range 97 122 c || in_range 48 57 c
  || bool_decide (c = "_"%char) || bool_decide (c = "."%char)
  || bool_decide (c = "-"%char).

(** The longest prefix of [s] whose characters pass [p], and the rest. *)
Fixpoint span (p : ascii -> bool) (s : string) : string * string :=
  match s with
  | EmptyString => (EmptyString, EmptyString)
  | String c s' =>
      if p c then let '(a, b) := span p s' in (String c a, b)
      else (EmptyString, s)
  end.

(** The header pattern of [_parse_kv_headers], matched at the start of a
    line without line boundary: a non-empty run of key characters, blanks,
    a colon, blanks, and the rest of the line.  The result holds the groups
    1 and 2 of the match.  The key is the longest
    run of key characters, since neither blanks nor the colon are key
    characters; group 2 starts after the blanks that follow the colon. *)
Definition match_header (line : string) : option (string * string) :=
  let '(key, rest) := span key_char line in
  if negb (str_truthy key) then None
  else
    match lstrip rest with
    | String c rest' =>
        if bool_decide (c = ":"%char) then Some (key, lstrip rest') else None
    | EmptyString => None
    end.

(** The loop of [_parse_kv_headers]: it stops at the first blank line,
    which it drops, or at the first line that is not a header, which it
    keeps. *)
Fixpoint headers_loop (lines : list string) (headers : gmap string string)
  : gmap string string * list string :=
  match lines with
  | [] => (headers, [])
  | line :: rest =>
      if negb (str_truthy (strip line)) then (headers, rest)
      else
        match match_header line with
        | None => (headers, lines)
        | Some (k, v) =>
            let key := lower (strip k) in
            let val := strip v in
            headers_loop rest (<[key := val]> headers)
        end
  end.

Definition _parse_kv_headers (text : string) : gmap string string * string :=
  let lines := splitlines text in
  let '(headers, body_lines) := headers_loop lines ∅ in
  (headers, rstrip_newlines (join_lines body_lines)).

(** [headers.get(key) or None]. *)
Definition header_or_None (headers : gmap string string) (key : string)
  : option string :=
  match headers !! key with
  | Some v => if str_truthy v then Some v else None
  | None => None
  end.

(** The comma-separated items of [raw], stripped, blank items dropped. *)
Definition comma_list (raw : string) : list string :=
  filter (fun x => str_truthy x = true) (strip <$> split_char "," raw).

(** [parse_last_define_block] from the list [blocks] that
    [_DEFINE_RE.findall(md_text)] returns; the search for the blocks in the
    markdown text is not part of the model. *)
Definition parse_last_define_block (blocks : list string) : outcome DefineBlock.t :=
  match last blocks with
  | None => Raise ValueError
  | Some raw =>
      let '(headers, body) := _parse_kv_headers raw in
      let symbol := header_or_None headers "symbol" in
      let project := default "default" (header_or_None headers "project") in
      let cat := header_or_None headers "cat" in
      let subcat := header_or_None headers "subcat" in
      let tags := comma_list (default EmptyString (header_or_None headers "tags")) in
      let aliases := comma_list (default EmptyString (header_or_None headers "aliases")) in
      if negb (str_truthy (strip body)) then Raise ValueError
      else Ret (DefineBlock.mk symbol project cat subcat tags aliases body)
  end.

(** A header value as the parser leaves it: not empty, without blanks at
    its ends and without line boundary. *)
Definition clean_value (s : string) : Prop :=
  s ≠ EmptyString /\ strip s = s
  /\ all_chars (fun c => negb (is_linebreak c)) s = true.

(** Text whose only line boundary is the newline. *)
Definition lf_only (s : string) : bool :=
  all_chars (fun c => negb (is_linebreak c) || bool_decide (c = "010"%char)) s.

(** ** The bridge to a tool-calling model (MCP2genericLLM.py) *)

Definition MAX_STEPS : nat := 8.

(** What the bridge can raise: the exceptions of the client, the
    [HTTPError] of [raise_for_status], a missing key of a dict, a subscript
    on a value that has none or a text expected where there is none
    ([TypeError]), a text that [json.loads] cannot decode, a member read on
    [None], and whatever [llm.chat] or the reading of its first choice
    raises. *)
Inductive Fault :=
| Py (e : Exn)
| HTTPError
| KeyError (key : string)
| TypeError
| JSONDecodeError
| AttributeError
| ChatError.

Inductive attempt (A : Type) :=
| Ok (a : A)
| Err (f : Fault).
Arguments Ok {A} a.
Arguments Err {A} f.

(** The [arguments] member of a tool call.  The chat API delivers the
    members [id], [function.name] and [function.arguments]; what the last
    one holds is written by the model: a value that is not a string, a
    string that is not a JSON text, the text of a JSON value that is not an
    object, or the text of an object.  A member that is absent or falsy is
    read as the text of the empty object.  The fields of an object that are
    present hold values of the declared types, as in [RawArgs]. *)
Inductive ToolArguments :=
| NotText
| NotJSON
| NotObject
| Object (fields : RawArgs.t).

(** What [json.loads] returns: an object or another JSON value. *)
Inductive Decoded :=
| DValue
| DObject (fields : RawArgs.t).

(** A tool call of the model. *)
Module ToolCall.
Record t := mk {
    id : option string;
    name : string;
    arguments : ToolArguments
  }.
End ToolCall.

(** The message of the first choice of a chat response: [content] is
    [None] when the member is absent, [tool_calls] is empty when the member
    is absent or empty. *)
Module AssistantMsg.
Record t := mk {
    content : option string;
    tool_calls : list ToolCall.t
  }.
End AssistantMsg.

(** The result handed back to the model for a tool call: the [result] of
    the gateway or an error object of the bridge. *)
Inductive ToolResult :=
| McpResult (r : Result)
| ErrorResult (error : string).

(** The conversation.  The content of a tool message is the result that
    [json.dumps] serialises. *)
Inductive Message :=
| UserMessage (content : string)
| AssistantMessage (msg : AssistantMsg.t)
| ToolMessage (tool_call_id name : string) (content : ToolResult).

(** [json.loads(fn.get("arguments") or "{}")]. *)
Definition json_loads (arguments : ToolArguments) : attempt Decoded :=
  match arguments with
  | NotText => Err TypeError
  | NotJSON => Err JSONDecodeError
  | NotObject => Ok DValue
  | Object fields => Ok (DObject fields)
  end.

(** The [params] built for a request. *)
Inductive McpParams :=
| ToolsCallParams (name : string) (arguments : Decoded)
| ResourcesReadParams (uri : string).

Record ToolMapEntry := mkToolMapEntry {
  llm_tool_name : string;
  mcp_kind : string;
  mcp_params_builder : Decoded -> attempt (string * McpParams)
}.

Definition _save_builder (args : Decoded) : attempt (string * McpParams) :=
  Ok ("tools_call", ToolsCallParams "sm.texts.save" args).

(** [args["symbol"]] raises [TypeError] on a value that is not an object
    and [KeyError] on an object without the key. *)
Definition _get_builder (args : Decoded) : attempt (string * McpParams) :=
  match args with
  | DValue => Err TypeError
  | DObject fields =>
      match RawArgs.symbol fields with
      | None => Err (KeyError "symbol")
      | Some sym => Ok ("resources_read", ResourcesReadParams (resource_uri sym))
      end
  end.

(** The mapping of [build_default_tools_for_sm_mcp]; the tool schemas it
    also returns are only passed on to the model. *)
Definition build_default_tools_for_sm_mcp : gmap string ToolMapEntry :=
  <["sm_save" := mkToolMapEntry "sm_save" "tools_call" _save_builder]>
  (<["sm_get" := mkToolMapEntry "sm_get" "resources_read" _get_builder]> ∅).

(** [extract_text_from_resources_read]: the text of the first content
    descriptor, [None] without contents. *)
Definition extract_text_from_resources_read (result : ToolResult)
  : attempt (option string) :=
  match result with
  | McpResult (ReadOk (c :: _)) => Ok (Some (Content.text c))
  | McpResult NullResult => Err AttributeError
  | _ => Ok None
  end.

(** The gateway as the bridge sees it: its store and the number of
    requests sent so far. *)
Record Link := mkLink { store : DB; sent : nat }.

Section Bridge.

Variable sha256_text : string -> string.

(** The reading of the gateway's clock during the request number [n]. *)
Variable now_iso : nat -> string.

(** [MCP.rpc]: a response with status 400 or more raises. *)
Definition MCP_rpc (req : Request.t) (l : Link) : attempt Result * Link :=
  match mcp sha256_text req (now_iso (sent l)) (store l) with
  | (Ret r, db') => (Ok r, mkLink db' (S (sent l)))
  | (Raise _, db') => (Err HTTPError, mkLink db' (S (sent l)))
  end.

(** [MCP.initialize], which ignores every exception. *)
Definition MCP_initialize (l : Link) : Link :=
  match MCP_rpc (Request.mk "initialize" None no_args None) l with
  | (Ok _, l') => (MCP_rpc (Request.mk "notifications/initialized" None no_args None) l').2
  | (Err _, l') => l'
  end.

(** [MCP.tools_call].  Arguments that are no object reach the gateway as
    they are: its handler reads them only when it unpacks them into
    [SaveArgs], which raises on a value that is not a mapping before any
    statement touches the store, and for another tool name the request is
    an unknown method; either way the response has an error status. *)
Definition MCP_tools_call (name : string) (arguments : Decoded) (l : Link)
  : attempt Result * Link :=
  match arguments with
  | DObject fields => MCP_rpc (Request.mk "tools/call" (Some name) fields None) l
  | DValue => (Err HTTPError, mkLink (store l) (S (sent l)))
  end.

Definition MCP_resources_read (uri : string) (l : Link) : attempt Result * Link :=
  MCP_rpc (Request.mk "resources/read" None no_args (Some uri)) l.

Definition exec_tool_call (mapping : gmap string ToolMapEntry) (tool_call : ToolCall.t)
    (l : Link) : attempt (string * string * ToolResult) * Link :=
  let name := ToolCall.name tool_call in
  match json_loads (ToolCall.arguments tool_call) with
  | Err e => (Err e, l)
  | Ok args =>
  let tc_id := if truthy (ToolCall.id tool_call)
               then default EmptyString (ToolCall.id tool_call)
               else EmptyString in
  match mapping !! name with
  | None => (Ok (tc_id, name, ErrorResult ("unknown tool: " +:+ name)), l)
  | Some entry =>
      match mcp_params_builder entry args with
      | Err e => (Err e, l)
      | Ok (kind, params) =>
          if bool_decide (kind = "tools_call") then
            match params with
            | ToolsCallParams n a =>
                match MCP_tools_call n a l with
                | (Ok res, l') => (Ok (tc_id, name, McpResult res), l')
                | (Err e, l') => (Err e, l')
                end
            | ResourcesReadParams _ => (Err (KeyError "name"), l)
            end
          else if bool_decide (kind = "resources_read") then
            match params with
            | ResourcesReadParams uri =>
                match MCP_resources_read uri l with
                | (Ok res, l') => (Ok (tc_id, name, McpResult res), l')
                | (Err e, l') => (Err e, l')
                end
            | ToolsCallParams _ _ => (Err (KeyError "uri"), l)
            end
          else
            (Ok (tc_id, name, ErrorResult ("unsupported mcp dispatch: " +:+ kind)), l)
      end
  end
  end.

(** The model: the message of the first choice of its answer to a
    conversation, [None] when [llm.chat] or the reading of that message
    raises. *)
Variable llm : list Message -> option AssistantMsg.t.

(** The inner loop of [run_loop] over the tool calls of one answer.  It
    ends the run with the text to print ([inl]) or goes on with the
    conversation ([inr]). *)
Fixpoint tool_calls_loop (strict_get : bool) (mapping : gmap string ToolMapEntry)
    (tool_calls : list ToolCall.t) (messages : list Message) (l : Link)
  : attempt (string + list Message) * Link :=
  match tool_calls with
  | [] => (Ok (inr messages), l)
  | tc :: rest =>
      match exec_tool_call mapping tc l with
      | (Err e, l') => (Err e, l')
      | (Ok (tc_id, tool_name, result), l') =>
          if strict_get && bool_decide (tool_name = "sm_get") then
            match extract_text_from_resources_read result with
            | Err e => (Err e, l')
            | Ok None =>
                (Err (Py (RuntimeError "strict-get: sm_get returned no text")), l')
            | Ok (Some txt) => (Ok (inl txt), l')
            end
          else
            tool_calls_loop strict_get mapping rest
              (messages ++ [ToolMessage tc_id tool_name result])%list l'
      end
  end.

(** The outer loop with [n] rounds left. *)
Fixpoint chat_rounds (n : nat) (strict_get : bool) (mapping : gmap string ToolMapEntry)
    (messages : list Message) (l : Link) : attempt string * Link :=
  match n with
  | O => (Err (Py (RuntimeError "Tool loop exceeded MAX_STEPS")), l)
  | S n' =>
      match llm messages with
      | None => (Err ChatError, l)
      | Some msg =>
          match AssistantMsg.tool_calls msg with
          | [] => (Ok (default EmptyString (AssistantMsg.content msg)), l)
          | tool_calls =>
              let messages := (messages ++ [AssistantMessage msg])%list in
              match tool_calls_loop strict_get mapping tool_calls messages l with
              | (Err e, l') => (Err e, l')
              | (Ok (inl txt), l') => (Ok txt, l')
              | (Ok (inr messages'), l') =>
                  chat_rounds n' strict_get mapping messages' l'
              end
          end
      end
  end.

(** [run_loop]; the result is the text it prints. *)
Definition run_loop (user_prompt : string) (strict_get : bool) (l : Link)
  : attempt string * Link :=
  let mapping := build_default_tools_for_sm_mcp in
  let l := MCP_initialize l in
  chat_rounds MAX_STEPS strict_get mapping [UserMessage user_prompt] l.

End Bridge.

(** The model never asks for the tool [sm_save]. *)
Definition never_saves (llm : list Message -> option AssistantMsg.t) : Prop :=
  forall messages msg tc,
    llm messages = Some msg -> tc ∈ AssistantMsg.tool_calls msg ->
    ToolCall.name tc ≠ "sm_save".

(** ** Further example data *)

(** The block [B] as [cmd_save] sends it, and the store after that save. *)
Definition block_B_args : SaveArgs.t :=
  SaveArgs.mk "B" "beta gamma" None None (Some []).

Definition block_B_db : DB :=
  (save_text toy_digest block_B_args "t1" (server start_world)).2.

(** What the suggester returns for [B] over that store, whose only tagged
    entry has the category [k]. *)
Definition block_B_suggestions : Suggestions.t :=
  Eval vm_compute in
    match suggest_taxonomy "B" "beta gamma" block_B_db with
    | Ret (Some sg) => sg
    | _ => Suggestions.mk [] [] []
    end.

(** A world whose apply record is that of [B]. *)
Definition undo_world : World :=
  mkWorld (server start_world)
          (Some (ApplyRecord.mk "B" None None (Some "k") (Some "s") 1)).

(** A DEFINE block with three headers, a blank line and a body. *)
Definition define_raw : string :=
  "Symbol: HGI.DEF" +:+ String "010"
  ("cat: ai" +:+ String "010"
  ("aliases: hgi, hybrid ," +:+ String "010"
  (String "010" "HGI is a symbiosis."))).

(** A clock that always reads the same, a model that reads the alias
    [one], a model that saves once and then answers, a model that keeps
    asking for a tool the bridge does not know, and a model whose answer
    holds a save followed by a call with arguments that do not decode. *)
Definition toy_clock (n : nat) : string := "t".

Definition get_llm (messages : list Message) : option AssistantMsg.t :=
  Some (AssistantMsg.mk None
          [ToolCall.mk None "sm_get"
                       (Object (RawArgs.mk (Some "one") None None None None))]).

Definition save_llm (messages : list Message) : option AssistantMsg.t :=
  match messages with
  | [_] => Some (AssistantMsg.mk None [ToolCall.mk (Some "call_1") "sm_save" (Object two_raw)])
  | _ => Some (AssistantMsg.mk (Some "saved") [])
  end.



(** A block that carries its own taxonomy, and the parsed [define_raw]. *)
Definition block_C : DefineBlock.t :=
  DefineBlock.mk (Some "C") "default" (Some "k") (Some "s") [] [] "gamma delta".

Definition define_block : DefineBlock.t :=
  Eval vm_compute in
    match parse_last_define_block [define_raw] with
    | Ret blk => blk
    | Raise _ => block_C
    end.

(** * Properties *)

(** ** Rows and aliases *)

Lemma select_row_Some db s r :
  select_row db s = Some r -> Row.symbol r = s /\ r ∈ texts db.
Proof.
  unfold select_row. induction (texts db) as [|x l IH]; simpl; [done|].
  case_bool_decide as Hx.
  - intros [= ->]. split; [done | left].
  - intros H. destruct (IH H) as [? ?]. split; [done | by right].
Qed.

Lemma select_row_None db s :
  select_row db s = None <-> forall r, r ∈ texts db -> Row.symbol r ≠ s.
Proof.
  unfold select_row. induction (texts db) as [|x l IH]; simpl.
  - split; [|done]. intros _ r Hr. by apply elem_of_nil in Hr.
  - case_bool_decide as Hx.
    + split; [done|]. intros H. exfalso. apply (H x); [left | done].
    + rewrite IH. split.
      * intros H r Hr. apply elem_of_cons in Hr as [-> | Hr]; [done | by apply H].
      * intros H r Hr. apply H. by right.
Qed.

Lemma select_row_unique db s r :
  NoDup (Row.symbol <$> texts db) ->
  r ∈ texts db -> Row.symbol r = s -> select_row db s = Some r.
Proof.
  unfold select_row. induction (texts db) as [|x l IH]; simpl.
  - intros _ Hr. by apply elem_of_nil in Hr.
  - intros Hnd Hr Hs. apply NoDup_cons in Hnd as [Hx Hnd].
    apply elem_of_cons in Hr as [-> | Hr].
    + by rewrite bool_decide_eq_true_2.
    + case_bool_decide as Hxs; [|by apply IH].
      exfalso. apply Hx. rewrite Hxs, <- Hs. by apply list_elem_of_fmap_2.
Qed.

Lemma find_symbol_fmap (f : Row.t -> Row.t) (l : list Row.t) s :
  (forall r, Row.symbol (f r) = Row.symbol r) ->
  List.find (fun r => bool_decide (Row.symbol r = s)) (f <$> l)
  = f <$> List.find (fun r => bool_decide (Row.symbol r = s)) l.
Proof.
  intros Hf. induction l as [|x l IH]; simpl; [done|].
  rewrite Hf. by case_bool_decide.
Qed.

Lemma find_symbol_snoc (l : list Row.t) x s :
  List.find (fun r => bool_decide (Row.symbol r = s)) (l ++ [x])
  = match List.find (fun r => bool_decide (Row.symbol r = s)) l with
    | Some r => Some r
    | None => if bool_decide (Row.symbol x = s) then Some x else None
    end.
Proof.
  induction l as [|y l IH]; simpl; [done|].
  destruct (bool_decide (Row.symbol y = s)); [done | apply IH].
Qed.

Lemma save_aliases_lookup sym al (m : gmap string string) k :
  save_aliases sym al m !! k = Some sym \/ save_aliases sym al m !! k = m !! k.
Proof.
  destruct al as [l|]; simpl; [|by right].
  revert m. induction l as [|a l IH]; intros m; simpl; [by right|].
  destruct (IH (if str_truthy (strip a) then <[strip a:=sym]> m else m)) as [H|H];
    [by left|].
  rewrite H. destruct (str_truthy (strip a)); [|by right].
  destruct (decide (strip a = k)) as [->|Hne].
  - left. apply lookup_insert_eq.
  - right. by apply lookup_insert_ne.
Qed.

Lemma save_aliases_keep sym l (m : gmap string string) k :
  m !! k = Some sym -> save_aliases sym (Some l) m !! k = Some sym.
Proof.
  intros Hk. destruct (save_aliases_lookup sym (Some l) m k) as [H|H]; [done|].
  by rewrite H.
Qed.

Lemma save_aliases_hit sym l (m : gmap string string) a :
  a ∈ l -> str_truthy (strip a) = true ->
  save_aliases sym (Some l) m !! strip a = Some sym.
Proof.
  revert m. induction l as [|b l IH]; intros m Hin Ha.
  - by apply elem_of_nil in Hin.
  - apply elem_of_cons in Hin as [<- | Hin].
    + simpl. rewrite Ha.
      apply (save_aliases_keep sym l). apply lookup_insert_eq.
    + apply (IH _ Hin Ha).
Qed.

(** ** The effect of [save_text] on the two tables *)

Section SaveFacts.

Variable sha256_text : string -> string.

Lemma save_text_db args ts db :
  (save_text sha256_text args ts db).2
  = mkDB (if bool_decide (is_Some (select_row db (SaveArgs.symbol args)))
          then update_row args (sha256_text (SaveArgs.text args)) ts <$> texts db
          else texts db ++ [new_row sha256_text args ts])%list
         (save_aliases (SaveArgs.symbol args) (SaveArgs.aliases args) (aliases db)).
Proof.
  unfold save_text. destruct (get_existing_meta _ _).
  by destruct (bool_decide (is_Some (select_row db (SaveArgs.symbol args)))).
Qed.

Lemma save_text_prev args ts db :
  SaveResult.prev (save_text sha256_text args ts db).1
  = get_existing_meta db (SaveArgs.symbol args).
Proof.
  unfold save_text. destruct (get_existing_meta _ _).
  by destruct (bool_decide (is_Some (select_row db (SaveArgs.symbol args)))).
Qed.

Lemma update_row_symbol args h ts r :
  Row.symbol (update_row args h ts r) = Row.symbol r.
Proof. unfold update_row. by case_bool_decide. Qed.

Lemma select_row_save args ts db s :
  select_row (save_text sha256_text args ts db).2 s
  = match select_row db s with
    | Some r => Some (update_row args (sha256_text (SaveArgs.text args)) ts r)
    | None => if bool_decide (SaveArgs.symbol args = s)
              then Some (new_row sha256_text args ts) else None
    end.
Proof.
  rewrite save_text_db. unfold select_row at 1. simpl.
  case_bool_decide as Hex.
  - rewrite find_symbol_fmap by apply update_row_symbol.
    fold (select_row db s). destruct (select_row db s) as [r|] eqn:Hs; [done|].
    simpl. case_bool_decide as Heq; [|done].
    subst s. rewrite Hs in Hex. by destruct Hex.
  - rewrite find_symbol_snoc. fold (select_row db s).
    destruct (select_row db s) as [r|] eqn:Hs; [|done].
    f_equal. unfold update_row. case_bool_decide as Heq; [|done].
    exfalso. apply Hex. destruct (select_row_Some _ _ _ Hs) as [Hs' _].
    rewrite <- Heq, Hs', Hs. by eexists.
Qed.

(** After a save the row of the saved symbol holds the saved values. *)
Lemma select_row_save_eq args ts db :
  exists row, select_row (save_text sha256_text args ts db).2 (SaveArgs.symbol args)
              = Some row
    /\ Row.symbol row = SaveArgs.symbol args
    /\ Row.body row = SaveArgs.text args
    /\ Row.cat row = SaveArgs.cat args
    /\ Row.subcat row = SaveArgs.subcat args.
Proof.
  rewrite select_row_save.
  destruct (select_row db (SaveArgs.symbol args)) as [r|] eqn:Hs.
  - apply select_row_Some in Hs as [Hs _]. eexists. split; [done|].
    unfold update_row. by rewrite bool_decide_eq_true_2.
  - rewrite bool_decide_eq_true_2 by done. by eexists.
Qed.

(** Rows of other symbols are left as they were. *)
Lemma select_row_save_ne args ts db s :
  s ≠ SaveArgs.symbol args ->
  select_row (save_text sha256_text args ts db).2 s = select_row db s.
Proof.
  intros Hne. rewrite select_row_save.
  destruct (select_row db s) as [r|] eqn:Hs.
  - apply select_row_Some in Hs as [Hs _]. unfold update_row.
    rewrite bool_decide_eq_false_2; [done | congruence].
  - rewrite bool_decide_eq_false_2; [done | congruence].
Qed.

Lemma select_row_save_mono args ts db s :
  is_Some (select_row db s) ->
  is_Some (select_row (save_text sha256_text args ts db).2 s).
Proof.
  intros [r Hr]. rewrite select_row_save, Hr. by eexists.
Qed.

Lemma aliases_save args ts db :
  aliases (save_text sha256_text args ts db).2
  = save_aliases (SaveArgs.symbol args) (SaveArgs.aliases args) (aliases db).
Proof. by rewrite save_text_db. Qed.

End SaveFacts.

(** ** Invariants of the store along runs of the gateway *)

Lemma parse_SaveArgs_Ret raw args :
  parse_SaveArgs raw = Ret args ->
  RawArgs.symbol raw = Some (SaveArgs.symbol args)
  /\ RawArgs.text raw = Some (SaveArgs.text args)
  /\ SaveArgs.cat args = RawArgs.cat raw
  /\ SaveArgs.subcat args = RawArgs.subcat raw
  /\ SaveArgs.aliases args = RawArgs.aliases raw
  /\ SaveArgs.symbol args ≠ EmptyString
  /\ SaveArgs.text args ≠ EmptyString.
Proof.
  unfold parse_SaveArgs.
  destruct (RawArgs.symbol raw) as [s|]; [|done].
  destruct (RawArgs.text raw) as [t|]; [|done].
  destruct (_ && _) eqn:Hc; [|done]. intros [= <-]. simpl.
  repeat apply andb_prop in Hc as [Hc ?].
  repeat split; try done.
  - intros ->. done.
  - intros ->. done.
Qed.

Section Invariants.

Variable sha256_text : string -> string.

Lemma tools_save_db raw ts db :
  (tools_save sha256_text raw ts db).2
  = match parse_SaveArgs raw with
    | Ret args => (save_text sha256_text args ts db).2
    | Raise _ => db
    end.
Proof.
  unfold tools_save. destruct (parse_SaveArgs raw) as [args|e]; [|done].
  by destruct (save_text sha256_text args ts db).
Qed.

(** A request leaves the database alone or is a validated save. *)
Lemma mcp_db req ts db :
  (mcp sha256_text req ts db).2 = db
  \/ exists args, parse_SaveArgs (Request.arguments req) = Ret args
       /\ (mcp sha256_text req ts db).2 = (save_text sha256_text args ts db).2.
Proof.
  unfold mcp. repeat (case_match; [by left|]).
  case_match; [|case_match; by left].
  rewrite tools_save_db.
  destruct (parse_SaveArgs (Request.arguments req)) as [args|e]; [|by left].
  right. by exists args.
Qed.

Lemma save_text_inv args ts db :
  SaveArgs.symbol args ≠ EmptyString ->
  store_inv db -> store_inv (save_text sha256_text args ts db).2.
Proof.
  intros Hsym [Ha Hu Hn]. split.
  - intros a s. rewrite aliases_save. intros Hl.
    destruct (save_aliases_lookup (SaveArgs.symbol args) (SaveArgs.aliases args)
                (aliases db) a) as [H|H]; rewrite H in Hl.
    + injection Hl as <-.
      destruct (select_row_save_eq sha256_text args ts db) as (row & -> & _).
      by eexists.
    + apply select_row_save_mono. by apply (Ha a).
  - rewrite save_text_db. simpl. case_bool_decide as Hex.
    + rewrite <- list_fmap_compose.
      erewrite list_fmap_ext; [exact Hu|].
      intros i r _. apply update_row_symbol.
    + rewrite fmap_app. simpl. apply NoDup_app. split; [done|]. split.
      * intros s Hs Hs'. apply list_elem_of_singleton in Hs'. subst s.
        apply list_elem_of_fmap in Hs as (r & Hr & Hin).
        apply Hex. rewrite (select_row_unique db _ r); [by eexists|done..].
      * apply NoDup_singleton.
  - intros r. rewrite save_text_db. simpl. case_bool_decide as Hex.
    + intros Hr. apply list_elem_of_fmap in Hr as (r0 & -> & Hin).
      rewrite update_row_symbol. by apply Hn.
    + intros Hr. apply elem_of_app in Hr as [Hr|Hr]; [by apply Hn|].
      apply list_elem_of_singleton in Hr. by subst r.
Qed.

Lemma init_db_inv : store_inv init_db.
Proof.
  split; simpl.
  - intros a s. unfold init_db. simpl. by rewrite lookup_empty.
  - apply NoDup_nil_2.
  - intros r Hr. by apply elem_of_nil in Hr.
Qed.

Lemma mcp_inv req ts db :
  store_inv db -> store_inv (mcp sha256_text req ts db).2.
Proof.
  intros Hinv. destruct (mcp_db req ts db) as [-> | (args & Hp & ->)]; [done|].
  apply save_text_inv; [|done]. by apply parse_SaveArgs_Ret in Hp as (_&_&_&_&_&?&_).
Qed.

Lemma run_inv reqs db :
  store_inv db -> store_inv (run sha256_text reqs db).
Proof.
  revert db. induction reqs as [|rq reqs IH]; intros db Hinv; [done|].
  simpl. apply IH. by apply mcp_inv.
Qed.

Lemma reachable_inv db : reachable sha256_text db -> store_inv db.
Proof. intros [reqs ->]. apply run_inv, init_db_inv. Qed.

(** Entries are never deleted. *)
Lemma mcp_keeps_rows req ts db s :
  is_Some (select_row db s) ->
  is_Some (select_row (mcp sha256_text req ts db).2 s).
Proof.
  intros Hs. destruct (mcp_db req ts db) as [-> | (args & _ & ->)]; [done|].
  by apply select_row_save_mono.
Qed.

End Invariants.

(** ** Save and get *)

Lemma get_resolved db x r :
  resolve_symbol db x = Some r ->
  get db x = if negb (str_truthy r) then Raise (HTTPException 404 "Not found")
             else match select_row db r with
                  | None => Raise (HTTPException 404 "Not found")
                  | Some row => Ret (Row.body row)
                  end.
Proof. unfold get. by intros ->. Qed.

Lemma str_truthy_true s : str_truthy s = true <-> s ≠ EmptyString.
Proof.
  unfold str_truthy. rewrite negb_true_iff. apply bool_decide_eq_false.
Qed.

Section StoreClaims.

Variable sha256_text : string -> string.

(** C1 (amended): after a validated save of [symbol] with [body], get of the
    symbol returns exactly [body]; and for every supplied alias that is not
    blank once stripped of surrounding whitespace and that is not the symbol
    of another stored entry, get of the stripped alias returns the same body
    as get of the symbol. *)
Theorem save_then_get raw args ts db :
  parse_SaveArgs raw = Ret args ->
  let db' := (save_text sha256_text args ts db).2 in
  get db' (SaveArgs.symbol args) = Ret (SaveArgs.text args)
  /\ forall al a,
       SaveArgs.aliases args = Some al -> a ∈ al ->
       str_truthy (strip a) = true ->
       select_row db (strip a) = None \/ strip a = SaveArgs.symbol args ->
       get db' (strip a) = get db' (SaveArgs.symbol args).
Proof.
  intros Hp db'. apply parse_SaveArgs_Ret in Hp as (_&_&_&_&_&Hsym&_).
  destruct (select_row_save_eq sha256_text args ts db) as (row & Hrow & _ & Hbody & _).
  fold db' in Hrow.
  assert (Hres : resolve_symbol db' (SaveArgs.symbol args) = Some (SaveArgs.symbol args)).
  { unfold resolve_symbol. by rewrite Hrow. }
  split.
  - rewrite (get_resolved _ _ _ Hres), Hrow, Hbody.
    apply str_truthy_true in Hsym. by rewrite Hsym.
  - intros al a Hal Hin Ha [Hnone | Heq]; [|by rewrite Heq].
    destruct (decide (strip a = SaveArgs.symbol args)) as [Heq|Hne]; [by rewrite Heq|].
    rewrite (get_resolved _ _ _ Hres). apply get_resolved.
    unfold resolve_symbol, db'. rewrite select_row_save_ne, Hnone by done.
    rewrite aliases_save, Hal. by apply save_aliases_hit.
Qed.

(** C2: the [prev] field of a save result is the (cat, subcat) pair stored
    for the symbol before the write, and (None, None) when the symbol had no
    entry; whatever taxonomy this save supplies, the next save of the same
    symbol reports it as its [prev]. *)
Theorem save_prev_is_prewrite args ts db :
  reachable sha256_text db ->
  let res := (save_text sha256_text args ts db).1 in
  let db' := (save_text sha256_text args ts db).2 in
  (forall row, row ∈ texts db -> Row.symbol row = SaveArgs.symbol args ->
     SaveResult.prev res = (Row.cat row, Row.subcat row))
  /\ ((forall row, row ∈ texts db -> Row.symbol row ≠ SaveArgs.symbol args) ->
      SaveResult.prev res = (None, None))
  /\ forall args2 ts2,
       SaveArgs.symbol args2 = SaveArgs.symbol args ->
       SaveResult.prev (save_text sha256_text args2 ts2 db').1
       = (SaveArgs.cat args, SaveArgs.subcat args).
Proof.
  intros Hreach res db'. apply reachable_inv in Hreach as [_ Hu _].
  unfold res. rewrite save_text_prev. unfold get_existing_meta. repeat split.
  - intros row Hin Hs. by rewrite (select_row_unique db _ row).
  - intros Hnone. apply select_row_None in Hnone. by rewrite Hnone.
  - intros args2 ts2 Hs. rewrite save_text_prev. unfold get_existing_meta.
    rewrite Hs. unfold db'.
    destruct (select_row_save_eq sha256_text args ts db) as (row & -> & _ & _ & -> & ->).
    done.
Qed.

(** C10: after every sequence of requests served from the empty store,
    every alias of the alias index maps to a symbol that has an entry in
    the text store; a further request deletes no entry, and the aliases it
    writes point at the symbol saved by that request. *)
Theorem aliases_point_at_entries reqs :
  let db := run sha256_text reqs init_db in
  alias_targets_stored db
  /\ forall req ts,
       let db' := (mcp sha256_text req ts db).2 in
       (forall s, is_Some (select_row db s) -> is_Some (select_row db' s))
       /\ forall a, aliases db' !! a = aliases db !! a
                    \/ exists args,
                         parse_SaveArgs (Request.arguments req) = Ret args
                         /\ aliases db' !! a = Some (SaveArgs.symbol args)
                         /\ is_Some (select_row db' (SaveArgs.symbol args)).
Proof.
  intros db. split.
  - apply (inv_alias db). apply run_inv, init_db_inv.
  - intros req ts db'. split.
    + intros s. apply mcp_keeps_rows.
    + intros a. unfold db'.
      destruct (mcp_db sha256_text req ts db) as [-> | (args & Hp & ->)]; [by left|].
      rewrite aliases_save.
      destruct (save_aliases_lookup (SaveArgs.symbol args) (SaveArgs.aliases args)
                  (aliases db) a) as [H|H]; [|by left].
      right. exists args. repeat split; [done..|].
      destruct (select_row_save_eq sha256_text args ts db) as (row & -> & _).
      by eexists.
Qed.

End StoreClaims.

(** C1, as stated, fails: an alias that is also the symbol of another entry
    resolves to that entry, since the exact symbol is looked up first. *)
Lemma alias_shadowed_by_symbol :
  let db' := (save_text toy_digest shadow_args "t2" shadow_db).2 in
  SaveArgs.aliases shadow_args = Some ["B"]
  /\ get db' "B" = Ret "body of B"
  /\ get db' (SaveArgs.symbol shadow_args) = Ret "body of A"
  /\ get db' "B" ≠ get db' (SaveArgs.symbol shadow_args).
Proof. vm_compute. repeat split; congruence. Qed.

(** ** Rationals *)

Lemma Qltb_lt x y : Qltb x y = true <-> (x < y)%Q.
Proof.
  unfold Qltb. rewrite negb_true_iff, <- not_true_iff_false, Qle_bool_iff.
  split; [apply Qnot_le_lt | apply Qlt_not_le].
Qed.

Lemma Qltb_ge x y : Qltb x y = false <-> (y <= x)%Q.
Proof.
  unfold Qltb. rewrite negb_false_iff. apply Qle_bool_iff.
Qed.

Lemma q_truthy_false x : q_truthy x = false <-> (x == 0)%Q.
Proof. unfold q_truthy. rewrite negb_false_iff. apply Qeq_bool_iff. Qed.

Lemma q_truthy_true x : q_truthy x = true <-> ~ (x == 0)%Q.
Proof.
  unfold q_truthy. rewrite negb_true_iff, <- not_true_iff_false.
  by rewrite Qeq_bool_iff.
Qed.

Lemma q_or_0 x : (q_or x 0 == x)%Q.
Proof.
  unfold q_or. destruct (q_truthy x) eqn:H; [reflexivity|].
  apply q_truthy_false in H. by rewrite H.
Qed.

Lemma py_min_Qmin a b : (py_min a b == Qmin a b)%Q.
Proof.
  unfold py_min. destruct (Qltb b a) eqn:H.
  - apply Qltb_lt in H. symmetry. apply Q.min_r. by apply Qlt_le_weak.
  - apply Qltb_ge in H. symmetry. by apply Q.min_l.
Qed.

Lemma round_half_even_err q :
  (Qabs (inject_Z (round_half_even q) - q) <= 1 # 2)%Q.
Proof.
  unfold round_half_even.
  pose proof (Qfloor_le q) as Hlo. pose proof (Qlt_floor q) as Hhi.
  rewrite inject_Z_plus in Hhi. change (inject_Z 1) with 1%Q in Hhi.
  apply Qabs_Qle_condition.
  destruct (Qcompare (q - inject_Z (Qfloor q)) (1 # 2)) eqn:Hc.
  - apply Qeq_alt in Hc.
    destruct (Z.even (Qfloor q)); [|rewrite inject_Z_plus; change (inject_Z 1) with 1%Q];
      split; lra.
  - apply Qlt_alt in Hc. split; lra.
  - apply Qgt_alt in Hc. rewrite inject_Z_plus. change (inject_Z 1) with 1%Q.
    split; lra.
Qed.

Lemma round4_err q : (Qabs (round4 q - q) <= 1 # 20000)%Q.
Proof.
  unfold round4. pose proof (round_half_even_err (q * 10000)) as H.
  apply Qabs_Qle_condition in H. apply Qabs_Qle_condition.
  rewrite (Qmake_Qdiv (round_half_even (q * 10000)) 10000).
  set (z := inject_Z (round_half_even (q * 10000))) in *.
  change (inject_Z (Z.pos 10000)) with 10000%Q.
  destruct H as [H1 H2]. clearbody z. unfold Qdiv.
  change (/ 10000)%Q with (1 # 10000)%Q. split; lra.
Qed.

(** ** Dicts and ranking *)

Lemma dict_get_set d k v k' default :
  dict_get (dict_set d k v) k' default
  = if bool_decide (k = k') then v else dict_get d k' default.
Proof.
  induction d as [|[k0 v0] d IH]; simpl.
  - by repeat case_bool_decide.
  - destruct (decide (k0 = k)) as [->|Hne].
    + rewrite bool_decide_eq_true_2 by done. simpl.
      by repeat case_bool_decide.
    + rewrite (bool_decide_eq_false_2 (k0 = k)) by done. simpl.
      rewrite IH. repeat case_bool_decide; congruence.
Qed.

Lemma dict_set_elem d k v kv :
  kv ∈ dict_set d k v -> kv = (k, v) \/ kv ∈ d.
Proof.
  induction d as [|[k0 v0] d IH]; simpl.
  - intros H. apply list_elem_of_singleton in H. by left.
  - case_bool_decide as Hk.
    + intros H. apply elem_of_cons in H as [->|H]; [by left|].
      right. by right.
    + intros H. apply elem_of_cons in H as [->|H]; [right; left|].
      destruct (IH H) as [->|?]; [by left | right; by right].
Qed.

Lemma dict_set_not_nil d k v : dict_set d k v ≠ [].
Proof. destruct d as [|[k0 v0] d]; simpl; [done|]. by case_bool_decide. Qed.

Lemma dict_get_nonneg d k :
  (forall kv, kv ∈ d -> (0 < kv.2)%Q) -> (0 <= dict_get d k 0)%Q.
Proof.
  intros Hd. induction d as [|[k0 v0] d IH]; simpl; [done|].
  case_bool_decide.
  - apply Qlt_le_weak. apply (Hd (k0, v0)). left.
  - apply IH. intros kv Hkv. apply Hd. by right.
Qed.

Lemma insert_desc_perm {A} (x : A * Q) l : insert_desc x l ≡ₚ x :: l.
Proof.
  induction l as [|y l IH]; simpl; [done|].
  destruct (Qltb x.2 y.2); [|done].
  rewrite IH. apply Permutation_swap.
Qed.

Lemma sorted_desc_perm {A} (l : list (A * Q)) : sorted_desc l ≡ₚ l.
Proof.
  induction l as [|x l IH]; simpl; [done|].
  rewrite insert_desc_perm. by rewrite IH.
Qed.

Lemma sorted_desc_elem {A} (l : list (A * Q)) x : x ∈ sorted_desc l <-> x ∈ l.
Proof. by rewrite sorted_desc_perm. Qed.

Lemma sorted_desc_length {A} (l : list (A * Q)) :
  length (sorted_desc l) = length l.
Proof. by rewrite sorted_desc_perm. Qed.

Lemma qsum_perm (l l' : list Q) : l ≡ₚ l' -> (qsum l == qsum l')%Q.
Proof.
  induction 1 as [|x l l' _ IH|x y l|l l' l'' _ IH1 _ IH2]; simpl.
  - reflexivity.
  - by rewrite IH.
  - ring.
  - by rewrite IH1.
Qed.

Lemma qsum_app (l l' : list Q) : (qsum (l ++ l') == qsum l + qsum l')%Q.
Proof.
  induction l as [|x l IH]; simpl; [ring|]. rewrite IH. ring.
Qed.

Lemma qsum_nonneg (l : list Q) : Forall (fun x => (0 <= x)%Q) l -> (0 <= qsum l)%Q.
Proof.
  induction 1 as [|x l Hx _ IH]; simpl; [done|]. lra.
Qed.

Lemma qsum_take_le n (l : list Q) :
  Forall (fun x => (0 <= x)%Q) l -> (qsum (take n l) <= qsum l)%Q.
Proof.
  intros Hl. rewrite <- (take_drop n l) at 2. rewrite qsum_app.
  assert (0 <= qsum (drop n l))%Q; [|lra].
  apply qsum_nonneg. eapply Forall_drop. done.
Qed.

Lemma qsum_scale (l : list Q) c :
  (qsum ((fun x => x / c) <$> l) == qsum l / c)%Q.
Proof.
  induction l as [|x l IH]; simpl.
  - unfold Qdiv. ring.
  - rewrite IH. unfold Qdiv. ring.
Qed.

(** Rounding each of [n] terms moves their sum by at most [n / 20000]. *)
Lemma qsum_round4 (l : list Q) :
  (Qabs (qsum (round4 <$> l) - qsum l) <= inject_Z (Z.of_nat (length l)) * (1 # 20000))%Q.
Proof.
  induction l as [|x l IH].
  - by vm_compute.
  - change (qsum (round4 <$> x :: l)) with (round4 x + qsum (round4 <$> l))%Q.
    change (qsum (x :: l)) with (x + qsum l)%Q.
    change (length (x :: l)) with (S (length l)).
    rewrite Nat2Z.inj_succ. unfold Z.succ. rewrite inject_Z_plus.
    change (inject_Z 1) with 1%Q.
    pose proof (round4_err x) as Hx.
    apply Qabs_Qle_condition in Hx as [Hx1 Hx2].
    apply Qabs_Qle_condition in IH as [IH1 IH2].
    set (n := inject_Z (Z.of_nat (length l))) in *. clearbody n.
    apply Qabs_Qle_condition. split; lra.
Qed.

(** ** Similarity *)

Lemma jaccard_self (a : list string) : a ≠ [] -> (jaccard a a == 1)%Q.
Proof.
  intros Ha. unfold jaccard.
  set (X := (list_to_set a : gset string)).
  assert (Hne : X ≠ ∅).
  { subst X. destruct a as [|x a]; [done|]. simpl. set_solver. }
  rewrite (bool_decide_eq_false_2 _ Hne). simpl. clearbody X.
  pose proof (idemp_L (∩) X) as Ei. pose proof (idemp_L (∪) X) as Eu.
  rewrite Ei, Eu.
  assert (Hsz : size X ≠ 0%nat).
  { intros Hz. apply size_empty_iff in Hz. apply Hne. by apply leibniz_equiv. }
  rewrite (bool_decide_eq_false_2 _ Hsz).
  destruct (size X) as [|n]; [done|].
  unfold Qeq. simpl. rewrite <- Pos.of_nat_succ, Zpos_P_of_succ_nat. lia.
Qed.

(** ** The scan *)

Lemma scan_step_skip toks m acc row :
  has_taxonomy row = false \/ (row_sim toks row < m)%Q ->
  scan_step toks m acc row = acc.
Proof.
  unfold scan_step. intros [-> | H]; [done|].
  apply Qltb_lt in H. rewrite H. by destruct (has_taxonomy row).
Qed.

Lemma scan_step_keep toks m acc row :
  has_taxonomy row = true -> (m <= row_sim toks row)%Q ->
  scan_step toks m acc row
  = mkAcc (cat_vote (cat_scores acc) row (row_sim toks row))
          (pair_vote (subcat_scores acc) row (row_sim toks row))
          (neighbors acc ++ [(Row.symbol row, row_sim toks row)]).
Proof.
  unfold scan_step. intros -> H. apply Qltb_ge in H. by rewrite H.
Qed.

Lemma scan_step_cases toks m acc row :
  scan_step toks m acc row = acc
  \/ (has_taxonomy row = true /\ (m <= row_sim toks row)%Q
      /\ scan_step toks m acc row
         = mkAcc (cat_vote (cat_scores acc) row (row_sim toks row))
                 (pair_vote (subcat_scores acc) row (row_sim toks row))
                 (neighbors acc ++ [(Row.symbol row, row_sim toks row)])).
Proof.
  destruct (has_taxonomy row) eqn:Ht; [|left; apply scan_step_skip; by left].
  destruct (Qltb (row_sim toks row) m) eqn:Hlt.
  - left. apply scan_step_skip. right. by apply Qltb_lt.
  - right. apply Qltb_ge in Hlt. repeat split; [done|]. by apply scan_step_keep.
Qed.

Lemma foldl_scan_ind (P : Acc -> Prop) toks m rows acc :
  P acc ->
  (forall acc row, row ∈ rows -> P acc -> P (scan_step toks m acc row)) ->
  P (foldl (scan_step toks m) acc rows).
Proof.
  revert acc. induction rows as [|r rows IH]; intros acc H0 Hstep; [done|].
  simpl. apply IH.
  - apply Hstep; [left | done].
  - intros acc' row Hin. apply Hstep. by right.
Qed.

Lemma add_vote_get d k sim c :
  dict_get (add_vote d k sim) c 0
  = if bool_decide (k = c) then (dict_get d k 0 + sim)%Q else dict_get d c 0.
Proof. apply dict_get_set. Qed.

Lemma add_vote_positive d k sim :
  positive d -> (0 < sim)%Q -> positive (add_vote d k sim).
Proof.
  intros Hd Hs kv Hkv. apply dict_set_elem in Hkv as [-> | Hkv]; [|by apply Hd].
  simpl. pose proof (dict_get_nonneg d k Hd). lra.
Qed.

Lemma cat_vote_positive d row sim :
  positive d -> (0 < sim)%Q -> positive (cat_vote d row sim).
Proof.
  intros Hd Hs. unfold cat_vote. destruct (Row.cat row) as [c|]; [|done].
  destruct (str_truthy c); [|done]. by apply add_vote_positive.
Qed.

Lemma pair_vote_positive d row sim :
  positive d -> (0 < sim)%Q -> positive (pair_vote d row sim).
Proof.
  intros Hd Hs. unfold pair_vote.
  destruct (Row.cat row) as [c|]; [|done].
  destruct (Row.subcat row) as [sc|]; [|done].
  destruct (_ && _); [|done]. by apply add_vote_positive.
Qed.

Lemma scan_positive toks m rows :
  (0 < m)%Q ->
  positive (cat_scores (scan toks m rows))
  /\ positive (subcat_scores (scan toks m rows)).
Proof.
  intros Hm. unfold scan. apply foldl_scan_ind.
  - split; intros kv Hkv; by apply elem_of_nil in Hkv.
  - intros acc row _ [Hc Hp].
    destruct (scan_step_cases toks m acc row) as [-> | (_ & Hsim & ->)]; [done|].
    simpl. split; [apply cat_vote_positive | apply pair_vote_positive];
      try done; lra.
Qed.

Lemma split_once_pair_key c s : is_Some (split_once (pair_key c s)).
Proof.
  unfold pair_key. induction c as [|x c IH].
  - simpl. by eexists.
  - change (String x c +:+ "::" +:+ s) with (String x (c +:+ "::" +:+ s)).
    destruct IH as [[a b] Hab]. simpl.
    destruct (c +:+ "::" +:+ s) as [|y rest] eqn:Hrest; [done|].
    destruct (_ && _); [by eexists|]. rewrite Hab. by eexists.
Qed.

Lemma scan_pair_keys toks m rows kv :
  kv ∈ subcat_scores (scan toks m rows) -> is_Some (split_once kv.1).
Proof.
  revert kv. unfold scan. apply foldl_scan_ind.
  - intros kv Hkv. by apply elem_of_nil in Hkv.
  - intros acc row _ IH kv.
    destruct (scan_step_cases toks m acc row) as [-> | (_ & _ & ->)]; [apply IH|].
    simpl. unfold pair_vote.
    destruct (Row.cat row) as [c|]; [|apply IH].
    destruct (Row.subcat row) as [sc|]; [|apply IH].
    destruct (_ && _); [|apply IH].
    intros Hkv. apply dict_set_elem in Hkv as [-> | Hkv]; [|by apply IH].
    apply split_once_pair_key.
Qed.

(** A pair aggregate exists only together with a category aggregate. *)
Lemma scan_pairs_need_cats toks m rows :
  cat_scores (scan toks m rows) = [] -> subcat_scores (scan toks m rows) = [].
Proof.
  unfold scan. apply foldl_scan_ind; [done|].
  intros acc row _ IH.
  destruct (scan_step_cases toks m acc row) as [-> | (_ & _ & ->)]; [done|].
  simpl. unfold cat_vote, pair_vote.
  destruct (Row.cat row) as [c|]; [|done].
  destruct (str_truthy c); simpl.
  - intros H. by apply dict_set_not_nil in H.
  - by destruct (Row.subcat row).
Qed.

(** ** The suggester returns *)

Lemma pair_items_Ret total items :
  (forall kv, kv ∈ items -> is_Some (split_once kv.1)) ->
  exists out, pair_items total items = Ret out
              /\ SubSug.score <$> out = pair_score total <$> items.
Proof.
  induction items as [|[k v] items IH]; intros Hk; simpl.
  - by exists [].
  - destruct (Hk (k, v)) as [[c sc] Hsplit]; [left|]. simpl in Hsplit.
    rewrite Hsplit.
    destruct IH as (out & -> & Hout).
    { intros kv Hkv. apply Hk. by right. }
    simpl. eexists. split; [done|]. rewrite !fmap_cons, Hout. done.
Qed.

Lemma elem_of_take_sorted {A} n (l : list (A * Q)) x :
  x ∈ take n (sorted_desc l) -> x ∈ l.
Proof.
  intros Hx. apply sorted_desc_elem. by apply (subseteq_take n).
Qed.

(** The value of [suggest_taxonomy] in terms of the scan. *)
Lemma suggest_taxonomy_with_eq symbol text limit_rows min_sim db :
  let new_toks := tokenize (entry_text symbol text) 80 in
  let acc := scan new_toks min_sim (select_tagged db limit_rows) in
  suggest_taxonomy_with symbol text limit_rows min_sim db
  = if bool_decide (new_toks = []) then Ret None
    else if bool_decide (cat_scores acc = []) then Ret None
    else
      match pair_items (total (subcat_scores acc))
                       (take 3 (sorted_desc (subcat_scores acc))) with
      | Ret subcats =>
          Ret (Some (Suggestions.mk
                       (top_n (cat_scores acc) 3) subcats
                       ((fun n => Neighbor.mk n.1 (round4 n.2))
                          <$> take 5 (sorted_desc (neighbors acc)))))
      | Raise e => Raise e
      end.
Proof.
  intros new_toks acc. unfold suggest_taxonomy_with. fold new_toks.
  case_bool_decide as Ht; [done|].
  assert (Hpn : cat_scores acc = [] -> subcat_scores acc = [])
    by apply scan_pairs_need_cats.
  case_bool_decide as Hrows.
  - assert (Hc : cat_scores acc = []) by (subst acc; by rewrite Hrows).
    by rewrite bool_decide_eq_true_2.
  - fold acc. clearbody acc. case_bool_decide as Hc; simpl.
    + by rewrite (Hpn Hc).
    + case_bool_decide as Hs; simpl; [|done].
      by rewrite Hs.
Qed.

Lemma top_n_not_nil d n : d ≠ [] -> (0 < n)%nat -> top_n d n ≠ [].
Proof.
  intros Hd Hn H. apply (f_equal length) in H. unfold top_n in H.
  rewrite length_fmap, length_take, sorted_desc_length in H. simpl in H.
  destruct d; [done|]. simpl in H. lia.
Qed.

Lemma suggest_taxonomy_with_Ret symbol text limit_rows min_sim db :
  exists r, suggest_taxonomy_with symbol text limit_rows min_sim db = Ret r.
Proof.
  rewrite suggest_taxonomy_with_eq.
  case_bool_decide; [by eexists|]. case_bool_decide; [by eexists|].
  edestruct pair_items_Ret as (out & -> & _); [|by eexists].
  intros kv Hkv. apply elem_of_take_sorted in Hkv.
  by apply scan_pair_keys in Hkv.
Qed.

Section SuggesterClaims.

Variable sha256_text : string -> string.

(** For validated arguments the save branch of the gateway returns the
    result of [save_text] and leaves the database as [save_text] left it. *)
Lemma tools_save_Ret raw args ts db :
  parse_SaveArgs raw = Ret args ->
  exists sg,
    tools_save sha256_text raw ts db
    = (Ret (SaveOk (save_text sha256_text args ts db).1 sg),
       (save_text sha256_text args ts db).2)
    /\ (sg = None
        \/ suggest_taxonomy (SaveArgs.symbol args) (SaveArgs.text args)
             (save_text sha256_text args ts db).2 = Ret sg).
Proof.
  intros Hp. unfold tools_save. rewrite Hp.
  destruct (save_text sha256_text args ts db) as [res db'] eqn:Hsave. simpl.
  destruct (_ || _).
  - destruct (suggest_taxonomy_with_Ret (SaveArgs.symbol args) (SaveArgs.text args)
                limit_rows_default min_sim_default db') as [sg Hsg].
    unfold suggest_taxonomy. rewrite Hsg. simpl. exists sg. split; [done | by right].
  - exists None. split; [done | by left].
Qed.

(** C8: the suggestion computation never raises; when the new entry has no
    token, or when the scan yields no category aggregate and no pair
    aggregate, it returns the absent result [None], which differs from
    every present result; a present result has a non-empty category
    group; and the gateway's save leaves the database exactly as
    [save_text] left it, the suggester writing nothing. *)
Theorem suggestion_never_faults symbol text limit_rows min_sim db :
  let new_toks := tokenize (entry_text symbol text) 80 in
  let acc := scan new_toks min_sim (select_tagged db limit_rows) in
  let out := suggest_taxonomy_with symbol text limit_rows min_sim db in
  (exists r, out = Ret r)
  /\ (new_toks = [] -> out = Ret None)
  /\ (cat_scores acc = [] /\ subcat_scores acc = [] -> out = Ret None)
  /\ (forall sg, out = Ret (Some sg) -> Suggestions.cat sg ≠ [])
  /\ (forall raw args ts,
        parse_SaveArgs raw = Ret args ->
        exists sg, tools_save sha256_text raw ts db
                   = (Ret (SaveOk (save_text sha256_text args ts db).1 sg),
                      (save_text sha256_text args ts db).2)).
Proof.
  intros new_toks acc out. repeat split.
  - apply suggest_taxonomy_with_Ret.
  - intros Ht. unfold out. rewrite suggest_taxonomy_with_eq. fold new_toks.
    by rewrite bool_decide_eq_true_2.
  - intros [Hc _]. unfold out. rewrite suggest_taxonomy_with_eq.
    fold new_toks acc. case_bool_decide; [done|]. by rewrite bool_decide_eq_true_2.
  - intros sg. unfold out. rewrite suggest_taxonomy_with_eq. fold new_toks acc.
    case_bool_decide; [done|]. case_bool_decide as Hc; [done|].
    destruct (pair_items _ _); [|done]. intros [= <-]. simpl.
    by apply top_n_not_nil; [|lia].
  - intros raw args ts Hp.
    destruct (tools_save_Ret raw args ts db Hp) as (sg & Hsg & _). by exists sg.
Qed.

End SuggesterClaims.

(** ** The similarity threshold *)



(** ** The vote of a scanned row *)

Lemma cat_vote_get_mono d row sim c :
  (0 <= sim)%Q -> (dict_get d c 0 <= dict_get (cat_vote d row sim) c 0)%Q.
Proof.
  intros Hs. unfold cat_vote. destruct (Row.cat row) as [k|]; [|lra].
  destruct (str_truthy k); [|lra]. rewrite add_vote_get.
  case_bool_decide as Hk; [subst k|]; lra.
Qed.

Lemma foldl_scan_cat_mono toks m rows acc c :
  (0 <= m)%Q ->
  (dict_get (cat_scores acc) c 0
   <= dict_get (cat_scores (foldl (scan_step toks m) acc rows)) c 0)%Q.
Proof.
  intros Hm. apply foldl_scan_ind; [lra|].
  intros acc' row _ IH.
  destruct (scan_step_cases toks m acc' row) as [-> | (_ & Hsim & ->)]; [done|].
  simpl. eapply Qle_trans; [exact IH|]. apply cat_vote_get_mono. lra.
Qed.

(** A row that passes both tests of the loop gives its similarity to the
    aggregate of its category. *)
Lemma scan_cat_lower_bound toks m rows row c :
  (0 <= m)%Q -> row ∈ rows -> Row.cat row = Some c -> c ≠ EmptyString ->
  (m <= row_sim toks row)%Q ->
  (row_sim toks row <= dict_get (cat_scores (scan toks m rows)) c 0)%Q.
Proof.
  intros Hm Hin Hc Hne Hsim.
  apply list_elem_of_split in Hin as (l1 & l2 & ->).
  unfold scan. rewrite foldl_app. simpl.
  eapply Qle_trans; [|by apply foldl_scan_cat_mono].
  pose proof (foldl_scan_cat_mono toks m l1 acc0 c Hm) as H1. simpl in H1.
  set (acc1 := foldl (scan_step toks m) acc0 l1) in *. clearbody acc1.
  assert (Ht : has_taxonomy row = true).
  { unfold has_taxonomy. rewrite Hc. simpl.
    apply str_truthy_true in Hne. by rewrite Hne. }
  rewrite (scan_step_keep _ _ _ _ Ht Hsim). simpl.
  unfold cat_vote. rewrite Hc. apply str_truthy_true in Hne. rewrite Hne.
  rewrite add_vote_get, bool_decide_eq_true_2 by done. lra.
Qed.

Lemma dict_get_nil_lt d c :
  (0 < dict_get d c 0)%Q -> d ≠ [].
Proof. intros H ->. simpl in H. lra. Qed.

Section OwnEntry.

Variable sha256_text : string -> string.

(** C9 (amended): a validated save that supplies a non-empty category and
    omits the subcategory, whose symbol and text hold at least one token,
    and after which the tagged rows fit within the scan limit, finds its own
    row among the scanned rows with similarity 1; the aggregate of its
    category is then at least 1 and the suggestion result is present. *)
Theorem own_entry_votes raw args ts db c :
  parse_SaveArgs raw = Ret args ->
  SaveArgs.cat args = Some c -> c ≠ EmptyString ->
  SaveArgs.subcat args = None ->
  tokenize (entry_text (SaveArgs.symbol args) (SaveArgs.text args)) 80 ≠ [] ->
  (length (filter (fun r => tagged r = true)
                  (texts (save_text sha256_text args ts db).2))
   <= limit_rows_default)%nat ->
  let db' := (save_text sha256_text args ts db).2 in
  let new_toks := tokenize (entry_text (SaveArgs.symbol args) (SaveArgs.text args)) 80 in
  let rows := select_tagged db' limit_rows_default in
  (exists row, row ∈ rows /\ Row.symbol row = SaveArgs.symbol args
               /\ (row_sim new_toks row == 1)%Q)
  /\ (1 <= dict_get (cat_scores (scan new_toks min_sim_default rows)) c 0)%Q
  /\ exists sg, tools_save sha256_text raw ts db
                = (Ret (SaveOk (save_text sha256_text args ts db).1 (Some sg)), db').
Proof.
  intros Hp Hc Hne Hsub Htok Hlim db' new_toks rows.
  destruct (select_row_save_eq sha256_text args ts db)
    as (row & Hrow & Hsym & Hbody & Hcat & _).
  fold db' in Hrow. apply select_row_Some in Hrow as [_ Hin].
  assert (Hrows : row ∈ rows).
  { unfold rows, select_tagged. rewrite take_ge by exact Hlim.
    apply list_elem_of_filter. split; [|done].
    unfold tagged. rewrite Hcat, Hc. done. }
  assert (Hsim : (row_sim new_toks row == 1)%Q).
  { unfold row_sim. rewrite Hsym, Hbody. fold new_toks. by apply jaccard_self. }
  assert (Hagg : (1 <= dict_get (cat_scores (scan new_toks min_sim_default rows)) c 0)%Q).
  { rewrite <- Hsim. apply scan_cat_lower_bound; try done.
    - by rewrite Hcat.
    - rewrite Hsim. done. }
  split; [by exists row|]. split; [done|].
  unfold tools_save. rewrite Hp.
  destruct (save_text sha256_text args ts db) as [res db1] eqn:Hsave.
  simpl in *. subst db'.
  replace (bool_decide (SaveArgs.subcat args = None)) with true
    by (symmetry; by apply bool_decide_eq_true_2).
  rewrite orb_true_r.
  unfold suggest_taxonomy. rewrite suggest_taxonomy_with_eq.
  fold new_toks. fold rows.
  rewrite (bool_decide_eq_false_2 _ Htok).
  rewrite bool_decide_eq_false_2.
  2:{ apply (dict_get_nil_lt _ c). lra. }
  edestruct pair_items_Ret as (out & -> & _); [|by eexists].
  intros kv Hkv. apply elem_of_take_sorted in Hkv.
  by apply scan_pair_keys in Hkv.
Qed.

End OwnEntry.

(** C9, as stated, fails: a save with a category and no subcategory whose
    symbol and text contain no token character gets no suggestion. *)
Lemma tokenless_save_has_no_suggestion :
  exists args res db',
    parse_SaveArgs tokenless_raw = Ret args
    /\ SaveArgs.cat args = Some "c" /\ SaveArgs.subcat args = None
    /\ tools_save toy_digest tokenless_raw "t" init_db = (Ret (SaveOk res None), db').
Proof. by repeat eexists. Qed.

(** ** Normalised scores *)

Lemma qsum_positive (d : dict) :
  positive d -> d ≠ [] -> (0 < qsum (snd <$> d))%Q.
Proof.
  destruct d as [|kv d]; [done|]. intros Hd _.
  assert (0 < kv.2)%Q by (apply Hd; left).
  assert (0 <= qsum (snd <$> d))%Q.
  { apply qsum_nonneg, Forall_fmap, Forall_forall. intros x Hx. simpl.
    apply Qlt_le_weak, Hd. by right. }
  rewrite fmap_cons. simpl. lra.
Qed.

Lemma total_positive (d : dict) :
  positive d -> d ≠ [] -> total d = qsum (snd <$> d) /\ (0 < total d)%Q.
Proof.
  intros Hd Hne. pose proof (qsum_positive d Hd Hne) as Hpos.
  unfold total, q_or.
  destruct (q_truthy (qsum (snd <$> d))) eqn:Ht; [done|].
  apply q_truthy_false in Ht. lra.
Qed.

Lemma pair_score_round4 T (l : list (string * Q)) :
  pair_score T <$> l = round4 <$> ((fun kv => kv.2 / T)%Q <$> l).
Proof. by rewrite <- list_fmap_compose. Qed.

Lemma ratio_sum_one (d : dict) :
  positive d -> d ≠ [] ->
  (qsum ((fun kv => kv.2 / total d)%Q <$> sorted_desc d) == 1)%Q.
Proof.
  intros Hd Hne. destruct (total_positive d Hd Hne) as [HT Hpos].
  rewrite (qsum_perm _ ((fun kv => kv.2 / total d)%Q <$> d))
    by (apply fmap_Permutation, sorted_desc_perm).
  change ((fun kv : string * Q => kv.2 / total d)%Q <$> d)
    with (((fun x => x / total d)%Q ∘ snd) <$> d).
  rewrite (list_fmap_compose snd (fun x => x / total d)%Q d).
  rewrite qsum_scale, <- HT. field. lra.
Qed.

Lemma ratio_nonneg (d : dict) (l : list (string * Q)) :
  positive d -> d ≠ [] -> (forall kv, kv ∈ l -> kv ∈ d) ->
  Forall (fun x => (0 <= x)%Q) ((fun kv => kv.2 / total d)%Q <$> l).
Proof.
  intros Hd Hne Hl. destruct (total_positive d Hd Hne) as [_ Hpos].
  apply Forall_fmap, Forall_forall. intros kv Hkv. simpl.
  apply Qle_shift_div_l; [done|]. rewrite Qmult_0_l.
  apply Qlt_le_weak, Hd, Hl, Hkv.
Qed.

(** The scores of a group: at most [n] of them; their sum exceeds 1 by no
    more than the rounding, and is 1 up to the rounding when the group has
    at most [n] aggregates. *)
Lemma group_scores_sum (d : dict) (n : nat) :
  positive d -> d ≠ [] ->
  let scores := pair_score (total d) <$> take n (sorted_desc d) in
  let eps := (inject_Z (Z.of_nat n) * (1 # 20000))%Q in
  (length scores <= n)%nat
  /\ (qsum scores <= 1 + eps)%Q
  /\ ((length d <= n)%nat -> (Qabs (qsum scores - 1) <= eps)%Q).
Proof.
  intros Hd Hne scores eps.
  assert (Hlen : (length scores <= n)%nat).
  { unfold scores. rewrite length_fmap, length_take. lia. }
  set (xs := (fun kv => kv.2 / total d)%Q <$> take n (sorted_desc d)).
  assert (Hround : (Qabs (qsum scores - qsum xs) <= eps)%Q).
  { unfold scores. rewrite pair_score_round4. fold xs.
    eapply Qle_trans; [apply qsum_round4|]. unfold eps.
    apply Qmult_le_compat_r; [|done].
    rewrite <- Zle_Qle. apply Nat2Z.inj_le.
    unfold xs. rewrite length_fmap, length_take. lia. }
  apply Qabs_Qle_condition in Hround as [Hr1 Hr2].
  pose proof (ratio_sum_one d Hd Hne) as Hone.
  assert (Hxs : (qsum xs <= 1)%Q).
  { rewrite <- Hone. unfold xs. rewrite fmap_take. apply qsum_take_le.
    apply ratio_nonneg; [done..|]. intros kv. apply sorted_desc_elem. }
  split; [done|]. split; [lra|].
  intros Hdn. apply Qabs_Qle_condition.
  assert (Hall : (qsum xs == 1)%Q).
  { rewrite <- Hone. unfold xs. rewrite take_ge; [reflexivity|].
    by rewrite sorted_desc_length. }
  split; lra.
Qed.

Lemma top_n_scores d n :
  CatSug.score <$> top_n d n = pair_score (total d) <$> take n (sorted_desc d).
Proof. unfold top_n. by rewrite <- list_fmap_compose. Qed.

(** C4 (amended): in a present suggestion result each group has at most
    three entries, each score being the aggregate divided by the sum of all
    aggregates of its group, rounded to four decimals.  The scores of a
    group never sum to more than 1 plus the rounding (3/20000), and they
    sum to 1 up to that rounding when the group is not empty and has at
    most three aggregates. *)
Theorem group_scores_normalised symbol text db sg :
  suggest_taxonomy symbol text db = Ret (Some sg) ->
  let acc := scan (tokenize (entry_text symbol text) 80) min_sim_default
                  (select_tagged db limit_rows_default) in
  let cs := CatSug.score <$> Suggestions.cat sg in
  let ss := SubSug.score <$> Suggestions.subcat sg in
  cs = pair_score (total (cat_scores acc)) <$> take 3 (sorted_desc (cat_scores acc))
  /\ ss = pair_score (total (subcat_scores acc))
            <$> take 3 (sorted_desc (subcat_scores acc))
  /\ (length cs <= 3)%nat /\ (length ss <= 3)%nat
  /\ (qsum cs <= 1 + (3 # 20000))%Q /\ (qsum ss <= 1 + (3 # 20000))%Q
  /\ ((length (cat_scores acc) <= 3)%nat -> (Qabs (qsum cs - 1) <= 3 # 20000)%Q)
  /\ (subcat_scores acc ≠ [] -> (length (subcat_scores acc) <= 3)%nat ->
      (Qabs (qsum ss - 1) <= 3 # 20000)%Q).
Proof.
  intros Hout acc cs ss. unfold suggest_taxonomy in Hout.
  rewrite suggest_taxonomy_with_eq in Hout. simpl in Hout. fold acc in Hout.
  destruct (scan_positive (tokenize (entry_text symbol text) 80) min_sim_default
              (select_tagged db limit_rows_default)) as [Hpc Hps]; [done|].
  fold acc in Hpc, Hps.
  assert (Hkeys : forall kv, kv ∈ take 3 (sorted_desc (subcat_scores acc)) ->
                             is_Some (split_once kv.1)).
  { intros kv Hkv. apply elem_of_take_sorted in Hkv. by apply scan_pair_keys in Hkv. }
  clearbody acc.
  case_bool_decide as Ht; [done|]. case_bool_decide as Hc; [done|].
  destruct (pair_items_Ret (total (subcat_scores acc)) _ Hkeys) as (out & Hpi & Hsc).
  rewrite Hpi in Hout. injection Hout as <-.
  assert (Hcs : cs = pair_score (total (cat_scores acc))
                       <$> take 3 (sorted_desc (cat_scores acc))).
  { unfold cs. simpl. apply top_n_scores. }
  assert (Hss : ss = pair_score (total (subcat_scores acc))
                       <$> take 3 (sorted_desc (subcat_scores acc))).
  { unfold ss. simpl. exact Hsc. }
  destruct (group_scores_sum (cat_scores acc) 3 Hpc Hc) as (Hc1 & Hc2 & Hc3).
  rewrite <- Hcs in Hc1, Hc2, Hc3.
  change (inject_Z (Z.of_nat 3) * (1 # 20000))%Q with ((3 # 1) * (1 # 20000))%Q
    in Hc2, Hc3.
  assert (He : ((3 # 1) * (1 # 20000) == 3 # 20000)%Q) by reflexivity.
  rewrite He in Hc2, Hc3.
  split; [done|]. split; [done|]. split; [done|].
  destruct (decide (subcat_scores acc = [])) as [Hs|Hs].
  - rewrite Hss, Hs. simpl. repeat split; try done; lia.
  - destruct (group_scores_sum (subcat_scores acc) 3 Hps Hs) as (Hs1 & Hs2 & Hs3).
    rewrite <- Hss in Hs1, Hs2, Hs3.
    change (inject_Z (Z.of_nat 3) * (1 # 20000))%Q with ((3 # 1) * (1 # 20000))%Q
      in Hs2, Hs3.
    rewrite He in Hs2, Hs3.
    repeat split; done.
Qed.

(** C4, as stated, fails: with four categories of equal aggregate the three
    returned category scores are 0.25 each and sum to 0.75, and so do the
    three returned pair scores. *)
Lemma top_three_of_four_sum_below_one :
  exists sg,
    suggest_taxonomy "e" "a b c d" four_cats_db = Ret (Some sg)
    /\ (qsum (CatSug.score <$> Suggestions.cat sg) == 3 # 4)%Q
    /\ (qsum (SubSug.score <$> Suggestions.subcat sg) == 3 # 4)%Q
    /\ ~ (qsum (CatSug.score <$> Suggestions.cat sg) == 1)%Q.
Proof. eexists. split; [by vm_compute|]. by vm_compute. Qed.

(** ** The read branch of the gateway *)

Section ReadClaims.

Variable sha256_text : string -> string.

Lemma mcp_read name arguments uri ts db :
  mcp sha256_text (Request.mk "resources/read" name arguments uri) ts db
  = (resources_read uri db, db).
Proof. reflexivity. Qed.

(** In a reachable store whatever resolves is a non-empty symbol with a row. *)
Lemma resolved_has_row db x r :
  reachable sha256_text db -> resolve_symbol db x = Some r ->
  str_truthy r = true /\ exists row, select_row db r = Some row.
Proof.
  intros Hreach Hres. apply reachable_inv in Hreach as [Ha _ Hn].
  assert (Hrow : exists row, select_row db r = Some row).
  { unfold resolve_symbol in Hres.
    destruct (select_row db x) as [row|] eqn:Hx.
    - injection Hres as <-. by exists row.
    - destruct (Ha x r Hres) as [row Hrow]. by exists row. }
  split; [|done]. destruct Hrow as [row Hrow].
  apply select_row_Some in Hrow as [<- Hin]. apply str_truthy_true. by apply Hn.
Qed.

(** C6 (amended): a read request leaves the store unchanged; a uri that is
    not a string or does not contain "://" fails with status 400; a uri
    with "://" whose last "/"-separated segment resolves to no symbol and
    no alias fails with status 404; otherwise the body of the resolved
    entry is returned in a single content descriptor that repeats the uri. *)
Theorem read_outcomes name arguments uri ts db :
  reachable sha256_text db ->
  let resp := mcp sha256_text (Request.mk "resources/read" name arguments uri) ts db in
  resp.2 = db
  /\ (uri = None \/ (exists u, uri = Some u /\ contains "://" u = false) ->
      resp.1 = Raise (HTTPException 400 "Invalid uri"))
  /\ (forall u, uri = Some u -> contains "://" u = true ->
        resolve_symbol db (last_segment u) = None ->
        resp.1 = Raise (HTTPException 404 "Not found"))
  /\ (forall u r, uri = Some u -> contains "://" u = true ->
        resolve_symbol db (last_segment u) = Some r ->
        exists row, select_row db r = Some row
          /\ resp.1 = Ret (ReadOk [Content.mk u "text" (Row.body row)])).
Proof.
  intros Hreach resp. unfold resp. rewrite mcp_read. simpl.
  split; [done|]. split; [|split].
  - intros [-> | (u & -> & Hu)]; [done|]. simpl. by rewrite Hu.
  - intros u -> Hu Hres. simpl. rewrite Hu. simpl. unfold get. by rewrite Hres.
  - intros u r -> Hu Hres. simpl. rewrite Hu. simpl.
    destruct (resolved_has_row db _ r Hreach Hres) as [Hr [row Hrow]].
    exists row. split; [done|].
    rewrite (get_resolved _ _ _ Hres), Hr, Hrow. done.
Qed.

End ReadClaims.

(** C6, as stated, fails: a uri outside the resource scheme is served as
    long as it contains "://". *)
Lemma off_scheme_uri_is_served :
  matches_resource_scheme "x://first" = false
  /\ (mcp toy_digest (read_request "x://first") "t" smoke_db).1
     = Ret (ReadOk [Content.mk "x://first" "text" "hello world one"]).
Proof. split; by vm_compute. Qed.

(** ** The selection step of the apply workflow *)

Lemma prompt_default_accept score :
  prompt_default score = "Y" <-> (13 # 20 <= score)%Q.
Proof.
  unfold prompt_default, MIN_SCORE. rewrite <- Qle_bool_iff.
  by destruct (Qle_bool (13 # 20) score).
Qed.

Lemma prompt_default_reject score :
  prompt_default score = "n" <-> (score < 13 # 20)%Q.
Proof.
  unfold prompt_default, MIN_SCORE.
  destruct (Qle_bool (13 # 20) score) eqn:H.
  - apply Qle_bool_iff in H. split; [done|]. intros Hlt. lra.
  - split; [|done]. intros _. apply Qnot_le_lt. intros Hle.
    apply Qle_bool_iff in Hle. congruence.
Qed.

(** The first element that passes a test. *)
Lemma find_first {A} (f : A -> bool) (l1 : list A) (p : A) (l2 : list A) :
  f p = true -> (forall q, q ∈ l1 -> f q = false) ->
  List.find f (l1 ++ p :: l2)%list = Some p.
Proof.
  intros Hp. induction l1 as [|x l1 IH]; intros Hl1; simpl.
  - by rewrite Hp.
  - rewrite (Hl1 x) by left. apply IH. intros q Hq. apply Hl1. by right.
Qed.

Lemma find_split {A} (f : A -> bool) (l : list A) (p : A) :
  List.find f l = Some p ->
  exists l1 l2, l = (l1 ++ p :: l2)%list /\ f p = true
                /\ forall q, q ∈ l1 -> f q = false.
Proof.
  induction l as [|x l IH]; [done|]. simpl. destruct (f x) eqn:Hx.
  - intros [= ->]. exists [], l. split; [done|]. split; [done|].
    intros q Hq. by apply elem_of_nil in Hq.
  - intros Hfind. destruct (IH Hfind) as (l1 & l2 & -> & Hp & Hl1).
    exists (x :: l1), l2. split; [done|]. split; [done|].
    intros q [->|Hq]%elem_of_cons; [done|by apply Hl1].
Qed.

(** The locals of the selection in terms of the payload: without pairs,
    with a pair of the top category, and without one. *)
Lemma select_top_no_pairs (sg : Suggestions.t) :
  Suggestions.subcat sg = [] ->
  select_top sg
  = mkSel (CatSug.value <$> head (Suggestions.cat sg))
          (default 0%Q (CatSug.score <$> head (Suggestions.cat sg))) None 0.
Proof. unfold select_top. by intros ->. Qed.

Lemma select_top_match (sg : Suggestions.t) l1 p l2 :
  Suggestions.subcat sg = (l1 ++ p :: l2)%list ->
  truthy (CatSug.value <$> head (Suggestions.cat sg)) = true ->
  Some (SubSug.cat p) = CatSug.value <$> head (Suggestions.cat sg) ->
  (forall q, q ∈ l1 ->
     Some (SubSug.cat q) ≠ CatSug.value <$> head (Suggestions.cat sg)) ->
  select_top sg
  = mkSel (CatSug.value <$> head (Suggestions.cat sg))
          (default 0%Q (CatSug.score <$> head (Suggestions.cat sg)))
          (Some (SubSug.value p)) (SubSug.score p).
Proof.
  intros Hpairs Htop Hp Hl1. unfold select_top. rewrite Hpairs.
  rewrite (find_first _ l1 p l2).
  - by destruct l1.
  - by rewrite Htop, bool_decide_eq_true_2.
  - intros q Hq. rewrite bool_decide_eq_false_2 by by apply Hl1.
    apply andb_false_r.
Qed.

Lemma select_top_no_match (sg : Suggestions.t) p rest :
  Suggestions.subcat sg = p :: rest ->
  (truthy (CatSug.value <$> head (Suggestions.cat sg)) = false
   \/ forall q, q ∈ Suggestions.subcat sg ->
         Some (SubSug.cat q) ≠ CatSug.value <$> head (Suggestions.cat sg)) ->
  select_top sg
  = if str_truthy (SubSug.cat p)
    then mkSel (Some (SubSug.cat p))
               (q_or (default 0%Q (CatSug.score <$> head (Suggestions.cat sg)))
                     (SubSug.score p))
               (Some (SubSug.value p)) (SubSug.score p)
    else mkSel (CatSug.value <$> head (Suggestions.cat sg))
               (default 0%Q (CatSug.score <$> head (Suggestions.cat sg)))
               (Some (SubSug.value p)) (SubSug.score p).
Proof.
  intros Hpairs Hnone. unfold select_top. rewrite Hpairs.
  destruct (List.find _ (p :: rest)) as [s|] eqn:Hfind; [|done].
  exfalso. apply List.find_some in Hfind as [Hin Hs].
  apply andb_prop in Hs as [Htop Hs]. apply bool_decide_eq_true in Hs.
  destruct Hnone as [Hfalse|Hall]; [congruence|].
  apply (Hall s); [|done]. rewrite Hpairs. by apply list_elem_of_In.
Qed.

(** The last statement of [_pick_top_suggestion], on its locals. *)
Lemma pick_combined (sg : Suggestions.t) :
  let st := select_top sg in
  _pick_top_suggestion sg
  = (top_cat st, chosen_sub st, (_pick_top_suggestion sg).2)
  /\ combined_as_specified (top_cat st) (chosen_sub st) (top_cat_score st)
                           (chosen_sub_score st) (_pick_top_suggestion sg).2.
Proof.
  intros st. split; [done|]. unfold _pick_top_suggestion. fold st. simpl.
  split.
  - intros ->. by rewrite py_min_Qmin, !q_or_0.
  - intros ->. unfold q_or. split; [|split].
    + intros HCs. apply q_truthy_true in HCs. by rewrite HCs.
    + intros HCs _. apply q_truthy_false in HCs. by rewrite HCs.
    + intros HCs HPs. apply q_truthy_false in HCs. by rewrite HCs.
Qed.

Lemma q_or_unset x y : q_or x y = if Qeq_bool x 0 then y else x.
Proof. unfold q_or, q_truthy. by destruct (Qeq_bool x 0). Qed.

(** C5: the selection step on a suggestions payload.  The top category [C]
    and its score [Cs] are those of the first entry of the category group.
    Without pairs the selection is [C] alone.  With a pair whose category
    is [C], the chosen pair is the first such pair.  Otherwise the chosen
    pair is the first pair; if it carries a category, that category
    replaces [C], and its score stands in for [Cs] when [Cs] is unset
    (zero).  In each case the combined score is the minimum of the category
    score and the chosen pair's score when a category and a subcategory are
    both selected; otherwise it is whichever of the two scores is present
    (not zero), and 0 when neither is.  The default answer of the prompt is
    "Y" (accept) exactly when the combined score is at least 0.65 and "n"
    (reject) otherwise, and an empty line takes that default. *)
Theorem combined_score_and_default (suggestions : Suggestions.t) :
  let cats := Suggestions.cat suggestions in
  let pairs := Suggestions.subcat suggestions in
  let C := CatSug.value <$> head cats in
  let Cs := default 0%Q (CatSug.score <$> head cats) in
  let '(cat, sub, score) := _pick_top_suggestion suggestions in
  (pairs = [] ->
     cat = C /\ sub = None /\ combined_as_specified cat sub Cs 0 score)
  /\ (forall l1 p l2,
        pairs = (l1 ++ p :: l2)%list ->
        truthy C = true -> Some (SubSug.cat p) = C ->
        (forall q, q ∈ l1 -> Some (SubSug.cat q) ≠ C) ->
        cat = C /\ sub = Some (SubSug.value p)
        /\ combined_as_specified cat sub Cs (SubSug.score p) score)
  /\ (forall p rest,
        pairs = p :: rest ->
        (truthy C = false \/ forall q, q ∈ pairs -> Some (SubSug.cat q) ≠ C) ->
        sub = Some (SubSug.value p)
        /\ (SubSug.cat p ≠ EmptyString ->
            cat = Some (SubSug.cat p)
            /\ combined_as_specified cat sub
                 (if Qeq_bool Cs 0 then SubSug.score p else Cs)
                 (SubSug.score p) score)
        /\ (SubSug.cat p = EmptyString ->
            cat = C /\ combined_as_specified cat sub Cs (SubSug.score p) score))
  /\ (prompt_default score = "Y" <-> (13 # 20 <= score)%Q)
  /\ (prompt_default score = "n" <-> (score < 13 # 20)%Q)
  /\ _prompt_apply cat sub score "" = prompt_default score.
Proof.
  intros cats pairs C Cs.
  destruct (pick_combined suggestions) as [Hpick Hcomb].
  destruct (_pick_top_suggestion suggestions) as [[cat sub] score].
  simpl in Hpick, Hcomb. injection Hpick as -> ->.
  split; [|split; [|split]].
  - intros Hnil. rewrite (select_top_no_pairs _ Hnil) in *. by simpl in *.
  - intros l1 p l2 Hpairs Htop Hp Hl1.
    rewrite (select_top_match _ l1 p l2 Hpairs Htop Hp Hl1) in *. by simpl in *.
  - intros p rest Hpairs Hnone.
    rewrite (select_top_no_match _ p rest Hpairs Hnone) in *.
    destruct (str_truthy (SubSug.cat p)) eqn:Hcat; simpl in *.
    + apply str_truthy_true in Hcat. rewrite q_or_unset in Hcomb.
      split; [done|]. split; [done|]. by intros ?.
    + apply negb_false_iff, bool_decide_eq_true in Hcat.
      split; [done|]. split; [by intros ?|]. done.
  - split; [apply prompt_default_accept|]. split; [apply prompt_default_reject|done].
Qed.

(** ** Undo *)

Section UndoFacts.

Variable sha256_text : string -> string.

(** An undo decision never rewrites [LAST_APPLY_FILE]: the record is read,
    not cleared. *)
Lemma undo_keeps_record arg_symbol blk inp ts1 ts2 w :
  lower (strip (answer inp)) = "u" ->
  last_apply_file (cmd_save sha256_text arg_symbol blk inp ts1 ts2 w).2
  = last_apply_file w.
Proof.
  intros Hu. unfold cmd_save.
  destruct (if truthy arg_symbol then arg_symbol else DefineBlock.symbol blk)
    as [symbol|]; [|done].
  destruct (negb (str_truthy symbol)); [done|].
  destruct (initialize sha256_text ts1 (server w)) as [[init|e] db]; [|done].
  destruct (tools_call _ _ _ _ _) as [[result|e] db1]; [|done].
  destruct result as [| |res [sg|]|]; try done.
  destruct (_ && _); [done|].
  destruct (_pick_top_suggestion sg) as [[sug_cat sug_sub] score].
  destruct (_ && _); [done|].
  assert (Hans : lower (_prompt_apply sug_cat sug_sub score (answer inp)) = "u").
  { unfold _prompt_apply. by destruct (strip (answer inp)). }
  rewrite Hans. simpl.
  destruct (last_apply_file w) as [last|]; [|done].
  by destruct (tools_call _ _ _ _ _) as [[rb|e] db2].
Qed.

Lemma prompt_apply_u cat subcat score typed :
  lower (strip typed) = "u" -> lower (_prompt_apply cat subcat score typed) = "u".
Proof. intros Hu. unfold _prompt_apply. by destruct (strip typed). Qed.

Lemma initialize_Ret ts db :
  initialize sha256_text ts db
  = (Ret (InitializeResult PROTOCOL_VERSION "sm-mcp" "0.1"), db).
Proof. reflexivity. Qed.

Lemma tools_call_save_db raw ts db :
  (tools_call sha256_text "sm.texts.save" raw ts db).2
  = (tools_save sha256_text raw ts db).2.
Proof.
  unfold tools_call, rpc.
  change (mcp sha256_text (Request.mk "tools/call" (Some "sm.texts.save") raw None) ts db)
    with (tools_save sha256_text raw ts db).
  by destruct (tools_save sha256_text raw ts db) as [[r|e] db'].
Qed.

(** The write of an undo decision: a save for the record's symbol with the
    recorded previous taxonomy, the aliases of the current block and the
    body of the current block; the record stays in place. *)
Lemma undo_write arg_symbol blk inp ts1 ts2 w symbol res sg db1 last :
  (if truthy arg_symbol then arg_symbol else DefineBlock.symbol blk) = Some symbol ->
  str_truthy symbol = true ->
  tools_call sha256_text "sm.texts.save"
    (save_payload symbol (DefineBlock.body blk) (DefineBlock.cat blk)
                  (DefineBlock.subcat blk) (DefineBlock.aliases blk)) ts1 (server w)
  = (Ret (SaveOk res (Some sg)), db1) ->
  bool_decide (is_Some (DefineBlock.cat blk))
  && bool_decide (is_Some (DefineBlock.subcat blk)) = false ->
  negb (truthy (_pick_top_suggestion sg).1.1)
  && negb (truthy (_pick_top_suggestion sg).1.2) = false ->
  lower (strip (answer inp)) = "u" ->
  last_apply_file w = Some last ->
  (cmd_save sha256_text arg_symbol blk inp ts1 ts2 w).2
  = mkWorld
      (tools_save sha256_text
         (save_payload (ApplyRecord.symbol last) (DefineBlock.body blk)
                       (ApplyRecord.prev_cat last) (ApplyRecord.prev_subcat last)
                       (DefineBlock.aliases blk)) ts2 db1).2
      (Some last).
Proof.
  intros Hsym Htruthy Hsave Hhas Hpick Hu Hlast. unfold cmd_save.
  rewrite Hsym, Htruthy, initialize_Ret. simpl. rewrite Hsave, Hhas.
  unfold _pick_top_suggestion in Hpick. simpl in Hpick. rewrite Hpick.
  rewrite (prompt_apply_u _ _ _ _ Hu). simpl. rewrite Hlast.
  rewrite <- tools_call_save_db.
  by destruct (tools_call sha256_text "sm.texts.save" _ ts2 db1) as [[rb|e] db2].
Qed.

(** When that save is accepted by the gateway, the row of the record's
    symbol ends with the recorded previous taxonomy and with the body of
    the current block, whatever body it held before. *)
Lemma undo_row blk ts2 db1 last args :
  parse_SaveArgs (save_payload (ApplyRecord.symbol last) (DefineBlock.body blk)
                               (ApplyRecord.prev_cat last) (ApplyRecord.prev_subcat last)
                               (DefineBlock.aliases blk)) = Ret args ->
  exists row,
    select_row (tools_save sha256_text
                  (save_payload (ApplyRecord.symbol last) (DefineBlock.body blk)
                                (ApplyRecord.prev_cat last) (ApplyRecord.prev_subcat last)
                                (DefineBlock.aliases blk)) ts2 db1).2
               (ApplyRecord.symbol last) = Some row
    /\ Row.cat row = ApplyRecord.prev_cat last
    /\ Row.subcat row = ApplyRecord.prev_subcat last
    /\ Row.body row = DefineBlock.body blk.
Proof.
  intros Hp. rewrite tools_save_db, Hp.
  apply parse_SaveArgs_Ret in Hp as (Hs & Ht & Hc & Hsc & _). simpl in *.
  injection Hs as Hs. injection Ht as Ht.
  destruct (select_row_save_eq sha256_text args ts2 db1)
    as (row & Hrow & _ & Hbody & Hcat & Hsub).
  exists row. rewrite Hs. split; [done|]. by rewrite Hcat, Hsub, Hbody, Hc, Hsc, Ht.
Qed.

End UndoFacts.

(** C3 fails on the code: after an accepted suggestion for [A], an undo
    decided while saving another entry [B] reverts the taxonomy of [A] to
    the recorded previous values and keeps the record, but it writes the
    body of [B] over the stored body of [A]. *)
Theorem undo_overwrites_recorded_body :
  let w1 := (cmd_save toy_digest None block_A default_input "t1" "t2" start_world).2 in
  let w2 := (cmd_save toy_digest None block_B undo_input "t3" "t4" w1).2 in
  ApplyRecord.symbol <$> last_apply_file w1 = Some "A"
  /\ get (server w1) "A" = Ret "alpha text"
  /\ get_existing_meta (server w1) "A" = (Some "k", Some "s")
  /\ get_existing_meta (server w2) "A" = (None, None)
  /\ get (server w2) "A" = Ret "beta gamma"
  /\ last_apply_file w2 = last_apply_file w1.
Proof. by vm_compute. Qed.

(** ** The theorems at concrete inputs *)

Lemma smoke_db_reachable : reachable toy_digest smoke_db.
Proof. by eexists. Qed.

(** The first save of the smoke test: read back by symbol and by alias. *)
Lemma save_then_get_witness :
  let db' := (save_text toy_digest smoke_args "t1" init_db).2 in
  get db' "TST.ONE" = Ret "hello world one"
  /\ get db' (strip "one") = get db' "TST.ONE".
Proof.
  destruct (save_then_get toy_digest smoke_raw smoke_args "t1" init_db eq_refl)
    as [Hsym Halias].
  split; [exact Hsym|].
  apply (Halias ["one"; "first"] "one").
  - reflexivity.
  - left.
  - reflexivity.
  - left. reflexivity.
Defined.

(** Saving [TST.ONE] again reports the taxonomy it held. *)
Lemma save_prev_is_prewrite_witness :
  SaveResult.prev (save_text toy_digest smoke_args "t3" smoke_db).1
  = (Some "test", Some "smoke.basic")
  /\ SaveResult.prev
       (save_text toy_digest smoke_args "t4"
          (save_text toy_digest two_args "t3" smoke_db).2).1
     = (Some "test", Some "smoke.basic").
Proof.
  split.
  - destruct (save_prev_is_prewrite toy_digest smoke_args "t3" smoke_db
                smoke_db_reachable) as (Hprev & _ & _).
    apply (Hprev (Row.mk "TST.ONE" "hello world one" (Some "test")
                         (Some "smoke.basic") "hello world one" "t1" "t1")).
    + vm_compute. left.
    + reflexivity.
  - reflexivity.
Defined.

(** The category group returned over [four_cats_db]. *)
Lemma group_scores_normalised_witness :
  (length (CatSug.score <$> Suggestions.cat four_cats_suggestions) <= 3)%nat
  /\ (qsum (CatSug.score <$> Suggestions.cat four_cats_suggestions)
      <= 1 + (3 # 20000))%Q.
Proof.
  destruct (group_scores_normalised "e" "a b c d" four_cats_db
              four_cats_suggestions) as (_ & _ & Hlen & _ & Hsum & _).
  - by vm_compute.
  - split; [exact Hlen | exact Hsum].
Defined.

(** Reading the alias [one] through its resource uri. *)
Lemma read_outcomes_witness :
  exists row,
    select_row smoke_db "TST.ONE" = Some row
    /\ (mcp toy_digest (read_request "resource://sm/v1/texts/one") "t" smoke_db).1
       = Ret (ReadOk [Content.mk "resource://sm/v1/texts/one" "text" (Row.body row)]).
Proof.
  destruct (read_outcomes toy_digest None no_args
              (Some "resource://sm/v1/texts/one") "t" smoke_db
              smoke_db_reachable) as (_ & _ & _ & Hok).
  apply (Hok "resource://sm/v1/texts/one" "TST.ONE"); reflexivity.
Defined.

(** [TST.TWO] saved with category [ai] gets a suggestion. *)
Lemma own_entry_votes_witness :
  exists sg,
    tools_save toy_digest two_raw "t3" smoke_db
    = (Ret (SaveOk (save_text toy_digest two_args "t3" smoke_db).1 (Some sg)),
       (save_text toy_digest two_args "t3" smoke_db).2).
Proof.
  destruct (own_entry_votes toy_digest two_raw two_args "t3" smoke_db "ai")
    as (_ & _ & Hsg).
  - reflexivity.
  - reflexivity.
  - discriminate.
  - reflexivity.
  - vm_compute. discriminate.
  - vm_compute. lia.
  - exact Hsg.
Defined.

(** Over [four_cats_suggestions] the first pair is a pair of the top
    category; the scores 0.25 and 0.25 combine to their minimum, below the
    threshold. *)
Lemma combined_score_and_default_witness :
  (_pick_top_suggestion four_cats_suggestions).1.1 = Some "c1"
  /\ (_pick_top_suggestion four_cats_suggestions).1.2 = Some "s"
  /\ ((_pick_top_suggestion four_cats_suggestions).2
      == Qmin (default 0 (CatSug.score <$> head (Suggestions.cat four_cats_suggestions)))
              (default 0 (SubSug.score
                            <$> head (Suggestions.subcat four_cats_suggestions))))%Q
  /\ prompt_default (_pick_top_suggestion four_cats_suggestions).2 = "n".
Proof.
  pose proof (combined_score_and_default four_cats_suggestions) as Hsel.
  cbv zeta in Hsel.
  destruct (_pick_top_suggestion four_cats_suggestions) as [[cat sub] score].
  destruct Hsel as (_ & Hmatch & _ & _ & Hreject & _).
  edestruct (Hmatch []) as (Hcat & Hsub & Hboth & _).
  - reflexivity.
  - reflexivity.
  - reflexivity.
  - intros q Hq. by apply elem_of_nil in Hq.
  - subst cat sub. simpl. split; [reflexivity|]. split; [reflexivity|].
    specialize (Hboth eq_refl). split; [exact Hboth|].
    apply (proj2 Hreject). rewrite Hboth. reflexivity.
Defined.


(** No token, no suggestion. *)
Lemma suggestion_never_faults_witness :
  suggest_taxonomy_with "." "!" limit_rows_default min_sim_default smoke_db
  = Ret None.
Proof.
  destruct (suggestion_never_faults toy_digest "." "!" limit_rows_default
              min_sim_default smoke_db) as (_ & Hempty & _).
  apply Hempty. reflexivity.
Defined.

(** The aliases of [smoke_db] point at stored entries. *)
Lemma aliases_point_at_entries_witness :
  alias_targets_stored smoke_db
  /\ is_Some (select_row smoke_db "TST.ONE").
Proof.
  destruct (aliases_point_at_entries toy_digest
              [(save_request "TST.ONE" "hello world one" (Some "test")
                             (Some "smoke.basic") (Some ["one"; "first"]), "t1");
               (save_request "TST.NEIGHBOR" "hybrid intelligence symbolic memory"
                             (Some "ai") (Some "architecture.hybrid") None, "t2")])
    as [Hinv _].
  split; [exact Hinv|]. apply (Hinv "one"). reflexivity.
Defined.

(** ** The smoke test of the repository on the model *)

(** [test_smoke.py]: the entry saved first is read back by symbol and by
    alias, and the save without taxonomy comes back with a non-empty
    category group. *)
Example smoke_test_passes :
  (mcp toy_digest (read_request "resource://sm/v1/texts/TST.ONE") "t3" smoke_db).1
  = Ret (ReadOk [Content.mk "resource://sm/v1/texts/TST.ONE" "text" "hello world one"])
  /\ (mcp toy_digest (read_request "resource://sm/v1/texts/one") "t3" smoke_db).1
     = Ret (ReadOk [Content.mk "resource://sm/v1/texts/one" "text" "hello world one"])
  /\ exists res sg db',
       mcp toy_digest
           (save_request "TST.TWO" "hybrid intelligence and symbolic memory"
                         None None None) "t3" smoke_db
       = (Ret (SaveOk res (Some sg)), db')
       /\ CatSug.value <$> head (Suggestions.cat sg) = Some "ai".
Proof.
  split; [by vm_compute|]. split; [by vm_compute|].
  do 3 eexists. split; [by vm_compute|]. reflexivity.
Qed.

(** * Further properties of the code *)

(** ** The tokenizer *)

Lemma lower_char_token c :
  token_char (lower_char c) = true -> lower_token_char (lower_char c) = true.
Proof.
  destruct c as [[] [] [] [] [] [] [] []]; vm_compute; congruence.
Qed.

Lemma all_chars_snoc p s c :
  all_chars p (s +:+ String c EmptyString) = all_chars p s && p c.
Proof.
  induction s as [|x s IH]; simpl.
  - by rewrite andb_true_r.
  - by rewrite IH, andb_assoc.
Qed.

Lemma snoc_not_empty s c : s +:+ String c EmptyString ≠ EmptyString.
Proof. by destruct s. Qed.

(** Every match of the token pattern in lower-cased text is a non-empty run
    of lower-case token characters. *)
Lemma findall_lower_tokens s cur t :
  all_chars lower_token_char cur = true ->
  t ∈ findall (lower s) cur ->
  t ≠ EmptyString /\ all_chars lower_token_char t = true.
Proof.
  revert cur. induction s as [|c s IH]; intros cur Hcur; simpl.
  - unfold str_truthy. case_bool_decide as He; simpl.
    + intros Ht. by apply elem_of_nil in Ht.
    + intros Ht. apply list_elem_of_singleton in Ht. by subst t.
  - destruct (token_char (lower_char c)) eqn:Hc.
    + apply IH. rewrite all_chars_snoc, Hcur. simpl. by apply lower_char_token.
    + unfold str_truthy. case_bool_decide as He; simpl.
      * by apply IH.
      * intros Ht. apply elem_of_cons in Ht as [-> | Ht]; [done|]. by apply IH in Ht.
Qed.

Lemma dedup_loop_elem n toks out t :
  t ∈ dedup_loop n toks out -> t ∈ out \/ t ∈ toks.
Proof.
  revert out. induction toks as [|x toks IH]; intros out; simpl; [by left|].
  case_bool_decide as Hx.
  - intros Ht. destruct (IH _ Ht); [by left | right; by right].
  - destruct (n <=? length (out ++ [x]))%nat.
    + intros Ht. apply elem_of_app in Ht as [Ht|Ht]; [by left|].
      apply list_elem_of_singleton in Ht. subst. right. left.
    + intros Ht. destruct (IH _ Ht) as [Ht'|Ht']; [|right; by right].
      apply elem_of_app in Ht' as [Ht'|Ht']; [by left|].
      apply list_elem_of_singleton in Ht'. subst. right. left.
Qed.

Lemma dedup_loop_NoDup n toks out :
  NoDup out -> NoDup (dedup_loop n toks out).
Proof.
  revert out. induction toks as [|x toks IH]; intros out Hnd; simpl; [done|].
  assert (x ∉ out -> NoDup (out ++ [x])).
  { intros Hx. apply NoDup_app. split; [done|]. split; [|apply NoDup_singleton].
    intros y Hy Hy'. apply list_elem_of_singleton in Hy'. by subst. }
  case_bool_decide as Hx; [by apply IH|].
  destruct (n <=? length (out ++ [x]))%nat; [auto | apply IH; auto].
Qed.

Lemma dedup_loop_length n toks out :
  (length out < Nat.max n 1)%nat ->
  (length (dedup_loop n toks out) <= Nat.max n 1)%nat.
Proof.
  revert out. induction toks as [|x toks IH]; intros out Hlen; simpl; [lia|].
  case_bool_decide as Hx; [by apply IH|].
  destruct (n <=? length (out ++ [x]))%nat eqn:Hn.
  - rewrite length_app. simpl. lia.
  - apply Nat.leb_gt in Hn. apply IH. rewrite length_app in *. simpl in *. lia.
Qed.

Lemma dedup_loop_prefix n toks out : out `prefix_of` dedup_loop n toks out.
Proof.
  revert out. induction toks as [|x toks IH]; intros out; simpl; [done|].
  case_bool_decide as Hx; [apply IH|].
  destruct (n <=? length (out ++ [x]))%nat.
  - by apply prefix_app_r.
  - etransitivity; [|apply IH]. by apply prefix_app_r.
Qed.

Lemma dedup_loop_take n m toks out :
  (n <= m)%nat -> (length out < Nat.max n 1)%nat ->
  dedup_loop n toks out = take (Nat.max n 1) (dedup_loop m toks out).
Proof.
  intros Hnm. revert out. induction toks as [|x toks IH]; intros out Hlen; simpl.
  - rewrite take_ge; [done | lia].
  - case_bool_decide as Hx; [by apply IH|].
    assert (Hl : length (out ++ [x]) = S (length out))
      by (rewrite length_app; simpl; lia).
    destruct (n <=? length (out ++ [x]))%nat eqn:Hn.
    + apply Nat.leb_le in Hn.
      assert (Hmax : Nat.max n 1 = length (out ++ [x])) by lia.
      assert (Hpre : (out ++ [x])%list `prefix_of`
                     (if (m <=? length (out ++ [x]))%nat then (out ++ [x])%list
                      else dedup_loop m toks (out ++ [x])%list)).
      { destruct (m <=? length (out ++ [x]))%nat; [done | apply dedup_loop_prefix]. }
      destruct Hpre as [rest ->]. by rewrite Hmax, take_app_length.
    + apply Nat.leb_gt in Hn.
      destruct (m <=? length (out ++ [x]))%nat eqn:Hm.
      * apply Nat.leb_le in Hm. lia.
      * apply IH. lia.
Qed.

(** X1. [tokenize] returns pairwise distinct tokens, each a non-empty run of
    lower-case letters, digits and underscores, and never more than
    [max_tokens] of them (one when [max_tokens] is 0: the bound is tested
    after a token is appended). *)
Theorem tokenize_tokens text max_tokens :
  let toks := tokenize text max_tokens in
  NoDup toks
  /\ (length toks <= Nat.max max_tokens 1)%nat
  /\ forall t, t ∈ toks -> t ≠ EmptyString /\ all_chars lower_token_char t = true.
Proof.
  unfold tokenize. split; [|split].
  - apply dedup_loop_NoDup, NoDup_nil_2.
  - apply dedup_loop_length. simpl. lia.
  - intros t Ht. apply dedup_loop_elem in Ht as [Ht|Ht].
    + by apply elem_of_nil in Ht.
    + by apply (findall_lower_tokens text EmptyString).
Qed.

(** X2. Truncation keeps the first distinct tokens: for [n <= m], the
    tokens under the bound [n] are the first [max n 1] tokens under the
    bound [m]; in particular the bounds 0 and 1 give the same list. *)
Theorem tokenize_truncates text n m :
  (n <= m)%nat ->
  tokenize text n = take (Nat.max n 1) (tokenize text m).
Proof.
  intros Hnm. unfold tokenize. apply dedup_loop_take; [done|]. simpl. lia.
Qed.

(** ** The similarity *)

Lemma count_ratio_bounds (i u : nat) :
  (i <= u)%nat -> u ≠ 0%nat ->
  (0 <= Z.of_nat i # Pos.of_nat u)%Q /\ (Z.of_nat i # Pos.of_nat u <= 1)%Q.
Proof.
  intros Hiu Hu. unfold Qle. simpl.
  destruct u as [|u]; [done|].
  rewrite <- Pos.of_nat_succ, Zpos_P_of_succ_nat. lia.
Qed.

Lemma count_ratio_one (i u : nat) :
  u ≠ 0%nat -> (Z.of_nat i # Pos.of_nat u == 1)%Q <-> i = u.
Proof.
  intros Hu. unfold Qeq. simpl. destruct u as [|u]; [done|].
  rewrite <- Pos.of_nat_succ, Zpos_P_of_succ_nat. lia.
Qed.

Lemma count_ratio_zero (i u : nat) :
  (Z.of_nat i # Pos.of_nat u == 0)%Q <-> i = 0%nat.
Proof. unfold Qeq. simpl. lia. Qed.

(** The value of [jaccard] on the two token sets. *)
Lemma jaccard_sets (a b : list string) :
  let X : gset string := list_to_set a in
  let Y : gset string := list_to_set b in
  jaccard a b = if bool_decide (X ∪ Y = ∅) then 0%Q
                else (Z.of_nat (size (X ∩ Y)) # Pos.of_nat (size (X ∪ Y)))%Q.
Proof.
  intros X Y. unfold jaccard. fold X. fold Y. clearbody X Y.
  destruct (decide (X ∪ Y = ∅)) as [He|Hne].
  - rewrite (bool_decide_eq_true_2 _ He).
    apply empty_union_L in He as [-> ->].
    by rewrite !bool_decide_eq_true_2 by done.
  - rewrite (bool_decide_eq_false_2 (X ∪ Y = ∅)) by done.
    assert (Hsz : size (X ∪ Y) ≠ 0%nat).
    { intros Hz. apply size_empty_iff in Hz. apply Hne. by apply leibniz_equiv. }
    rewrite (bool_decide_eq_false_2 _ Hsz).
    destruct (bool_decide (X = ∅)) eqn:HX; [|done].
    destruct (bool_decide (Y = ∅)) eqn:HY; [|done].
    apply bool_decide_eq_true in HX, HY. subst. exfalso. apply Hne.
    apply (left_id_L ∅ (∪)).
Qed.

(** X3. The similarity is a number between 0 and 1 and does not depend on
    the order of its arguments. *)
Theorem jaccard_range_sym (a b : list string) :
  (0 <= jaccard a b)%Q /\ (jaccard a b <= 1)%Q /\ jaccard a b = jaccard b a.
Proof.
  rewrite !jaccard_sets. cbv zeta.
  set (X := (list_to_set a : gset string)). set (Y := (list_to_set b : gset string)).
  clearbody X Y.
  assert (Hi : X ∩ Y = Y ∩ X) by apply (comm_L (∩)).
  assert (Hu : X ∪ Y = Y ∪ X) by apply (comm_L (∪)).
  rewrite <- Hi, <- Hu.
  case_bool_decide as He; [done|].
  assert (Hsz : size (X ∪ Y) ≠ 0%nat).
  { intros Hz. apply size_empty_iff in Hz. apply He. by apply leibniz_equiv. }
  assert (Hle : (size (X ∩ Y) <= size (X ∪ Y))%nat).
  { apply subseteq_size. clear. set_solver. }
  destruct (count_ratio_bounds _ _ Hle Hsz). done.
Qed.

(** X4. The similarity is 1 exactly when the two lists hold the same tokens
    and at least one, and it is 0 exactly when they share no token. *)
Theorem jaccard_one_zero (a b : list string) :
  ((jaccard a b == 1)%Q <->
     (list_to_set a : gset string) = list_to_set b /\ a ≠ [])
  /\ ((jaccard a b == 0)%Q <->
        (list_to_set a : gset string) ∩ list_to_set b = ∅).
Proof.
  rewrite jaccard_sets. cbv zeta.
  assert (Ha : a ≠ [] <-> (list_to_set a : gset string) ≠ ∅).
  { destruct a as [|x a]; simpl; [done|]. split; [|done]. intros _. clear. set_solver. }
  rewrite Ha. clear Ha.
  set (X := (list_to_set a : gset string)). set (Y := (list_to_set b : gset string)).
  clearbody X Y.
  case_bool_decide as He.
  - apply empty_union_L in He as [-> ->]. split.
    + split; [done|]. by intros [_ ?].
    + split; [|done]. intros _. apply (idemp_L (∩)).
  - assert (Hsz : size (X ∪ Y) ≠ 0%nat).
    { intros Hz. apply size_empty_iff in Hz. apply He. by apply leibniz_equiv. }
    split.
    + rewrite (count_ratio_one _ _ Hsz). split.
      * intros Hs.
        assert (Heq : X ∩ Y = X ∪ Y).
        { apply set_subseteq_size_eq; [clear; set_solver | lia]. }
        assert (X = Y) by (clear -Heq; set_solver).
        subst Y. split; [done|]. intros ->. apply He. apply (idemp_L (∪)).
      * intros [-> _]. f_equal. by rewrite (idemp_L (∩)), (idemp_L (∪)).
    + rewrite count_ratio_zero. split.
      * intros Hz. apply leibniz_equiv. by apply size_empty_iff.
      * intros ->. apply size_empty.
Qed.

(** ** Upserts *)

Lemma parse_SaveArgs_bounds raw args :
  parse_SaveArgs raw = Ret args ->
  (1 <= String.length (SaveArgs.symbol args) <= 128)%nat
  /\ (1 <= String.length (SaveArgs.text args))%nat
  /\ max_len_ok 64 (SaveArgs.cat args) = true
  /\ max_len_ok 128 (SaveArgs.subcat args) = true.
Proof.
  unfold parse_SaveArgs.
  destruct (RawArgs.symbol raw) as [s|]; [|done].
  destruct (RawArgs.text raw) as [t|]; [|done].
  destruct (_ && _) eqn:Hc; [|done]. intros [= <-]. simpl.
  repeat apply andb_prop in Hc as [Hc ?].
  repeat match goal with H : (_ <=? _)%nat = true |- _ => apply Nat.leb_le in H end.
  done.
Qed.

Lemma save_aliases_miss sym l (m : gmap string string) k :
  (forall a, a ∈ l -> strip a ≠ k) -> save_aliases sym (Some l) m !! k = m !! k.
Proof.
  revert m. induction l as [|a l IH]; intros m Hk; simpl; [done|].
  change (foldl _ ?m0 l) with (save_aliases sym (Some l) m0).
  rewrite IH by (intros b Hb; apply Hk; by right).
  destruct (str_truthy (strip a)); [|done].
  apply lookup_insert_ne. apply Hk. left.
Qed.

Section UpsertFacts.

Variable sha256_text : string -> string.

Lemma save_text_result args ts db :
  (save_text sha256_text args ts db).1
  = SaveResult.mk
      (if bool_decide (is_Some (select_row db (SaveArgs.symbol args)))
       then "updated" else "created")
      (SaveArgs.symbol args) (sha256_text (SaveArgs.text args))
      (match select_row db (SaveArgs.symbol args) with
       | Some row => Row.ts_created row
       | None => ts
       end)
      ts (get_existing_meta db (SaveArgs.symbol args)).
Proof.
  unfold save_text. destruct (get_existing_meta db (SaveArgs.symbol args)) as [pc ps].
  case_bool_decide as Hex; simpl.
  - destruct Hex as [row Hrow]. rewrite Hrow.
    pose proof (find_symbol_fmap
                  (update_row args (sha256_text (SaveArgs.text args)) ts)
                  (texts db) (SaveArgs.symbol args)
                  (update_row_symbol args _ ts)) as Hf.
    unfold select_row in *. simpl. rewrite Hf, Hrow. simpl.
    unfold update_row. by case_bool_decide.
  - destruct (select_row db (SaveArgs.symbol args)) as [row|] eqn:Hrow; [|done].
    exfalso. apply Hex. by eexists.
Qed.

(** X5. A save creates the entry exactly when the symbol has no row: the
    row is then appended with both timestamps set to the clock reading.
    Otherwise the save is an update: the number of rows and the creation
    timestamp stay, and body, taxonomy, digest and update timestamp are
    replaced. *)
Theorem save_text_upsert args ts db :
  let res := (save_text sha256_text args ts db).1 in
  let db' := (save_text sha256_text args ts db).2 in
  let sym := SaveArgs.symbol args in
  (select_row db sym = None ->
     SaveResult.status res = "created" /\ SaveResult.ts_created res = ts
     /\ texts db' = (texts db ++ [new_row sha256_text args ts])%list)
  /\ (forall row, select_row db sym = Some row ->
        SaveResult.status res = "updated"
        /\ SaveResult.ts_created res = Row.ts_created row
        /\ length (texts db') = length (texts db)
        /\ select_row db' sym
           = Some (Row.mk sym (SaveArgs.text args) (SaveArgs.cat args)
                          (SaveArgs.subcat args)
                          (sha256_text (SaveArgs.text args))
                          (Row.ts_created row) ts)).
Proof.
  intros res db' sym. unfold res, db'. rewrite save_text_result. split.
  - intros Hnone. fold sym. rewrite Hnone.
    rewrite save_text_db. fold sym. rewrite Hnone.
    rewrite bool_decide_eq_false_2 by (by intros [? ?]). done.
  - intros row Hrow. fold sym. rewrite Hrow.
    rewrite bool_decide_eq_true_2 by (by eexists). simpl.
    split; [done|]. split; [done|]. split.
    + rewrite save_text_db. fold sym. rewrite Hrow.
      rewrite bool_decide_eq_true_2 by (by eexists). simpl. apply length_fmap.
    + rewrite select_row_save. fold sym. rewrite Hrow. f_equal.
      unfold update_row. apply select_row_Some in Hrow as [Hs _].
      rewrite bool_decide_eq_true_2 by done. by rewrite Hs.
Qed.

(** X6. Saving the same arguments twice: the second save reports
    [updated] with the digest and the creation timestamp of the first, and
    leaves the row of the symbol as the first save wrote it, up to its
    update timestamp. *)
Theorem resave_identical args ts1 ts2 db :
  let r1 := (save_text sha256_text args ts1 db).1 in
  let db1 := (save_text sha256_text args ts1 db).2 in
  let r2 := (save_text sha256_text args ts2 db1).1 in
  let db2 := (save_text sha256_text args ts2 db1).2 in
  SaveResult.status r2 = "updated"
  /\ SaveResult.hash r2 = SaveResult.hash r1
  /\ SaveResult.ts_created r2 = SaveResult.ts_created r1
  /\ SaveResult.prev r2 = (SaveArgs.cat args, SaveArgs.subcat args)
  /\ length (texts db2) = length (texts db1)
  /\ exists row1 row2,
       select_row db1 (SaveArgs.symbol args) = Some row1
       /\ select_row db2 (SaveArgs.symbol args) = Some row2
       /\ row2 = Row.mk (Row.symbol row1) (Row.body row1) (Row.cat row1)
                        (Row.subcat row1) (Row.hash row1) (Row.ts_created row1) ts2.
Proof.
  intros r1 db1 r2 db2.
  assert (Hrow1 : exists row1,
             select_row db1 (SaveArgs.symbol args) = Some row1
             /\ row1 = Row.mk (SaveArgs.symbol args) (SaveArgs.text args)
                              (SaveArgs.cat args) (SaveArgs.subcat args)
                              (sha256_text (SaveArgs.text args))
                              (SaveResult.ts_created r1) ts1).
  { unfold db1, r1. rewrite save_text_result, select_row_save. simpl.
    destruct (select_row db (SaveArgs.symbol args)) as [row|] eqn:Hrow.
    - eexists. split; [done|]. unfold update_row.
      apply select_row_Some in Hrow as [Hs _].
      rewrite bool_decide_eq_true_2 by done. by rewrite Hs.
    - rewrite bool_decide_eq_true_2 by done. by eexists. }
  destruct Hrow1 as (row1 & Hsel1 & Hrow1).
  destruct (save_text_upsert args ts2 db1) as [_ Hupd].
  destruct (Hupd row1 Hsel1) as (Hst & Hts & Hlen & Hsel2).
  fold r2 in Hst, Hts. fold db2 in Hlen, Hsel2.
  split; [done|]. split.
  { unfold r2, r1. by rewrite !save_text_result. }
  split; [by rewrite Hts, Hrow1|]. split.
  { unfold r2. rewrite save_text_prev. unfold get_existing_meta.
    by rewrite Hsel1, Hrow1. }
  split; [done|]. exists row1. eexists. split; [done|]. split; [exact Hsel2|].
  by rewrite Hrow1.
Qed.

(** X7. Content digests and field bounds are invariants of the store: in
    every database reached from the empty store through the gateway, each
    row's digest is the digest of its current body, its symbol has 1 to 128
    characters, its body is not empty, and its category and subcategory
    have at most 64 and 128 characters. *)
Theorem stored_rows_valid db :
  reachable sha256_text db ->
  forall r, r ∈ texts db -> row_valid sha256_text r.
Proof.
  intros [reqs ->]. unfold run.
  assert (Hgen : forall db0,
             (forall r, r ∈ texts db0 -> row_valid sha256_text r) ->
             forall r,
               r ∈ texts (foldl (fun db rq => (mcp sha256_text rq.1 rq.2 db).2) db0 reqs) ->
               row_valid sha256_text r).
  { induction reqs as [|rq reqs IH]; intros db0 H0; [done|].
    simpl. apply IH. intros r.
    destruct (mcp_db sha256_text rq.1 rq.2 db0) as [-> | (args & Hp & ->)];
      [apply H0|].
    apply parse_SaveArgs_bounds in Hp as (Hs & Ht & Hc & Hsc).
    rewrite save_text_db. simpl. case_bool_decide as Hex.
    - intros Hr. apply list_elem_of_fmap in Hr as (r0 & -> & Hin).
      specialize (H0 r0 Hin). unfold update_row.
      case_bool_decide as Hsym; [|done].
      unfold row_valid in *. simpl. intuition lia.
    - intros Hr. apply elem_of_app in Hr as [Hr|Hr]; [by apply H0|].
      apply list_elem_of_singleton in Hr. subst r.
      unfold row_valid. simpl. intuition lia. }
  apply Hgen. intros r Hr. by apply elem_of_nil in Hr.
Qed.

(** X8. A save leaves every other name alone: get of a name that is not the
    saved symbol, is not one of the aliases written by the save, and did
    not resolve to the saved symbol gives what it gave before. *)
Theorem save_leaves_others args ts db x :
  x ≠ SaveArgs.symbol args ->
  (forall al a, SaveArgs.aliases args = Some al -> a ∈ al -> strip a ≠ x) ->
  resolve_symbol db x ≠ Some (SaveArgs.symbol args) ->
  get (save_text sha256_text args ts db).2 x = get db x.
Proof.
  intros Hx Hal Hres.
  assert (Hr : resolve_symbol (save_text sha256_text args ts db).2 x
               = resolve_symbol db x).
  { unfold resolve_symbol. rewrite select_row_save_ne by done.
    destruct (select_row db x); [done|]. rewrite aliases_save.
    destruct (SaveArgs.aliases args) as [al|] eqn:Hal'; [|done].
    apply save_aliases_miss. intros a Ha. by apply (Hal al). }
  unfold get. rewrite Hr.
  destruct (resolve_symbol db x) as [r|]; [|done].
  destruct (negb (str_truthy r)); [done|].
  rewrite select_row_save_ne; [done|]. congruence.
Qed.

(** X9. Resolution stops after one hop and is stable: in a reachable store,
    whatever a name resolves to is a stored symbol that resolves to itself,
    and get of the name is get of that symbol. *)
Theorem resolve_symbol_stable db x r :
  reachable sha256_text db ->
  resolve_symbol db x = Some r ->
  is_Some (select_row db r)
  /\ resolve_symbol db r = Some r
  /\ get db x = get db r.
Proof.
  intros Hreach Hres.
  destruct (resolved_has_row sha256_text db x r Hreach Hres) as [_ [row Hrow]].
  assert (Hrr : resolve_symbol db r = Some r).
  { unfold resolve_symbol. by rewrite Hrow. }
  split; [by eexists|]. split; [done|].
  by rewrite (get_resolved _ _ _ Hres), (get_resolved _ _ _ Hrr).
Qed.

(** X10. A request that is answered with an error has changed nothing in
    the store; and a [tools/call] that names any tool other than
    [sm.texts.save] is answered with status 400, as an unknown method. *)
Theorem mcp_error_keeps_store req ts db :
  (forall e, (mcp sha256_text req ts db).1 = Raise e ->
             (mcp sha256_text req ts db).2 = db)
  /\ (Request.method req = "tools/call" ->
      Request.name req ≠ Some "sm.texts.save" ->
      mcp sha256_text req ts db
      = (Raise (HTTPException 400 "Unknown method: tools/call"), db)).
Proof.
  split.
  - intros e. unfold mcp. repeat (case_match; [done|]).
    case_match; [|by case_match].
    destruct (parse_SaveArgs (Request.arguments req)) as [args|e'] eqn:Hp.
    + destruct (tools_save_Ret sha256_text _ args ts db Hp) as (sg & -> & _). done.
    + unfold tools_save. by rewrite Hp.
  - intros Hm Hn. unfold mcp. rewrite Hm.
    by rewrite (bool_decide_eq_false_2 (Request.name req = _)).
Qed.

End UpsertFacts.

(** ** Suggestions over a store without taxonomy *)

Section SuggesterFacts.

Variable sha256_text : string -> string.

(** X11. While no stored entry carries a category or a subcategory, a save
    without taxonomy gets no suggestion. *)
Theorem untagged_store_no_suggestions raw args ts db :
  parse_SaveArgs raw = Ret args ->
  SaveArgs.cat args = None -> SaveArgs.subcat args = None ->
  (forall r, r ∈ texts db -> tagged r = false) ->
  tools_save sha256_text raw ts db
  = (Ret (SaveOk (save_text sha256_text args ts db).1 None),
     (save_text sha256_text args ts db).2).
Proof.
  intros Hp Hc Hs Hdb.
  destruct (tools_save_Ret sha256_text raw args ts db Hp) as (sg & Hts & Hsg).
  rewrite Hts. destruct Hsg as [-> | Hsg]; [done|].
  assert (Hnone : select_tagged (save_text sha256_text args ts db).2
                                limit_rows_default = []).
  { unfold select_tagged. rewrite save_text_db. simpl.
    assert (Hf : forall l : list Row.t,
               (forall r, r ∈ l -> tagged r = false) ->
               filter (fun r => tagged r = true) l = []).
    { induction l as [|r l IH]; intros Hl; [done|].
      rewrite filter_cons. rewrite decide_False.
      - apply IH. intros r' Hr'. apply Hl. by right.
      - rewrite (Hl r) by left. done. }
    rewrite Hf; [by rewrite take_nil|].
    intros r. case_bool_decide as Hex.
    - intros Hr. apply list_elem_of_fmap in Hr as (r0 & -> & Hin).
      unfold update_row. case_bool_decide; [|by apply Hdb].
      unfold tagged. simpl. by rewrite Hc, Hs.
    - intros Hr. apply elem_of_app in Hr as [Hr|Hr]; [by apply Hdb|].
      apply list_elem_of_singleton in Hr. subst r.
      unfold tagged, new_row. simpl. by rewrite Hc, Hs. }
  unfold suggest_taxonomy in Hsg. rewrite suggest_taxonomy_with_eq in Hsg.
  rewrite Hnone in Hsg. simpl in Hsg.
  destruct (bool_decide (tokenize _ 80 = [])); by injection Hsg as <-.
Qed.

End SuggesterFacts.

(** ** Rankings are best first *)

(** Turn the outcome of a comparison into the order it stands for. *)
Ltac qcompare_in H :=
  match type of H with
  | Qcompare _ _ = Eq => apply Qeq_alt in H
  | Qcompare _ _ = Lt => apply Qlt_alt in H
  | Qcompare _ _ = Gt => apply Qgt_alt in H
  end.

Lemma round_half_even_mono x y :
  (x <= y)%Q -> (round_half_even x <= round_half_even y)%Z.
Proof.
  intros Hxy. unfold round_half_even.
  pose proof (Qfloor_resp_le _ _ Hxy) as Hf.
  pose proof (Qfloor_le x) as Hx1. pose proof (Qlt_floor x) as Hx2.
  pose proof (Qfloor_le y) as Hy1. pose proof (Qlt_floor y) as Hy2.
  rewrite inject_Z_plus in Hx2, Hy2. change (inject_Z 1) with 1%Q in Hx2, Hy2.
  destruct (Z.eq_dec (Qfloor x) (Qfloor y)) as [He|Hne].
  - rewrite <- He in *. clear He Hf.
    destruct (Qcompare (x - inject_Z (Qfloor x)) (1 # 2)) eqn:Hcx;
      destruct (Qcompare (y - inject_Z (Qfloor x)) (1 # 2)) eqn:Hcy;
      qcompare_in Hcx; qcompare_in Hcy;
      try (destruct (Z.even (Qfloor x))); try lia; exfalso; lra.
  - assert (Hlt : (Qfloor x + 1 <= Qfloor y)%Z) by lia.
    destruct (Qcompare (x - inject_Z (Qfloor x)) (1 # 2));
      destruct (Qcompare (y - inject_Z (Qfloor y)) (1 # 2));
      try (destruct (Z.even (Qfloor x))); try (destruct (Z.even (Qfloor y))); lia.
Qed.

Lemma round4_mono x y : (x <= y)%Q -> (round4 x <= round4 y)%Q.
Proof.
  intros Hxy. unfold round4, Qle. simpl.
  apply Z.mul_le_mono_nonneg_r; [lia|].
  apply round_half_even_mono. lra.
Qed.

Lemma insert_desc_sorted {A} (x : A * Q) l :
  StronglySorted (fun a b => (b.2 <= a.2)%Q) l ->
  StronglySorted (fun a b => (b.2 <= a.2)%Q) (insert_desc x l).
Proof.
  induction 1 as [|y l Hl IH Hy]; simpl.
  - by repeat constructor.
  - destruct (Qltb x.2 y.2) eqn:Hlt.
    + apply Qltb_lt in Hlt. constructor; [done|].
      apply Forall_forall. intros z Hz. rewrite insert_desc_perm in Hz.
      apply elem_of_cons in Hz as [-> | Hz]; [lra|].
      rewrite Forall_forall in Hy. by apply Hy.
    + apply Qltb_ge in Hlt. constructor; [by constructor|].
      constructor; [done|]. rewrite Forall_forall in *.
      intros z Hz. specialize (Hy z Hz). lra.
Qed.

Lemma sorted_desc_sorted {A} (l : list (A * Q)) :
  StronglySorted (fun a b => (b.2 <= a.2)%Q) (sorted_desc l).
Proof.
  induction l as [|x l IH]; simpl; [constructor|]. by apply insert_desc_sorted.
Qed.

Lemma sorted_impl {A} (R R' : A -> A -> Prop) (l : list A) :
  (forall a b, R a b -> R' a b) -> StronglySorted R l -> StronglySorted R' l.
Proof.
  intros HR. induction 1 as [|x l Hl IH Hx]; constructor; [done|].
  eapply Forall_impl; [exact Hx|]. intros y. apply HR.
Qed.

Lemma sorted_take {A} (R : A -> A -> Prop) n (l : list A) :
  StronglySorted R l -> StronglySorted R (take n l).
Proof.
  intros Hl. revert n. induction Hl as [|x l Hl IH Hx]; intros [|n]; simpl;
    try constructor; [apply IH|].
  rewrite Forall_forall in *. intros y Hy. apply Hx. by apply (subseteq_take n).
Qed.

Lemma sorted_descending {A} (f : A -> Q) (l : list A) :
  StronglySorted (fun a b => (f b <= f a)%Q) l -> descending (f <$> l).
Proof.
  induction 1 as [|a l Hl IH Ha]; intros i j x y Hij Hi Hj.
  - by destruct i.
  - destruct i as [|i], j as [|j]; simpl in *; try lia;
      change (list_fmap A Q f l) with (f <$> l) in *.
    + injection Hi as <-. injection Hj as <-. lra.
    + injection Hi as <-. rewrite Forall_forall in Ha.
      apply list_lookup_fmap_Some in Hj as (b & -> & Hb).
      apply Ha. by eapply list_elem_of_lookup_2.
    + apply (IH i j); [lia | done..].
Qed.

(** The ranked scores of a group with a positive total. *)
Lemma group_scores_descending (d : dict) n :
  (0 < total d)%Q -> descending (pair_score (total d) <$> take n (sorted_desc d)).
Proof.
  intros HT. apply sorted_descending. apply sorted_take.
  eapply sorted_impl; [|apply sorted_desc_sorted].
  intros a b Hab. simpl in Hab. unfold pair_score. apply round4_mono.
  unfold Qdiv. apply Qmult_le_compat_r; [done|].
  apply Qlt_le_weak, Qinv_lt_0_compat, HT.
Qed.

Lemma scan_neighbors_stored toks m rows n :
  n ∈ neighbors (scan toks m rows) ->
  exists row, row ∈ rows /\ Row.symbol row = n.1 /\ n.2 = row_sim toks row
              /\ (m <= n.2)%Q.
Proof.
  unfold scan. revert n.
  apply (foldl_scan_ind
           (fun acc => forall n, n ∈ neighbors acc ->
              exists row, row ∈ rows /\ Row.symbol row = n.1
                          /\ n.2 = row_sim toks row /\ (m <= n.2)%Q)).
  - intros n Hn. by apply elem_of_nil in Hn.
  - intros acc row Hin IH n.
    destruct (scan_step_cases toks m acc row) as [-> | (_ & Hsim & ->)]; [apply IH|].
    simpl. intros Hn. apply elem_of_app in Hn as [Hn|Hn]; [by apply IH|].
    apply list_elem_of_singleton in Hn. subst n. by exists row.
Qed.

(** X12. A present suggestion result is ranked best first: the category
    scores, the pair scores and the neighbor similarities are each in
    non-increasing order; at most five neighbors are listed, and each is
    the symbol of a stored entry that carries a category or subcategory. *)
Theorem suggestions_ranked symbol text db sg :
  suggest_taxonomy symbol text db = Ret (Some sg) ->
  descending (CatSug.score <$> Suggestions.cat sg)
  /\ descending (SubSug.score <$> Suggestions.subcat sg)
  /\ descending (Neighbor.sim <$> Suggestions.neighbors sg)
  /\ (length (Suggestions.neighbors sg) <= 5)%nat
  /\ forall n, n ∈ Suggestions.neighbors sg ->
       exists row, row ∈ texts db /\ tagged row = true
                   /\ Row.symbol row = Neighbor.symbol n.
Proof.
  intros Hout.
  unfold suggest_taxonomy in Hout. rewrite suggest_taxonomy_with_eq in Hout.
  cbv zeta in Hout.
  set (toks := tokenize (entry_text symbol text) 80) in *.
  set (rows := select_tagged db limit_rows_default) in *.
  destruct (scan_positive toks min_sim_default rows) as [Hpc Hps]; [done|].
  pose proof (scan_neighbors_stored toks min_sim_default rows) as Hnb.
  pose proof (scan_pair_keys toks min_sim_default rows) as Hkeys.
  set (acc := scan toks min_sim_default rows) in *. clearbody acc.
  case_bool_decide as Ht; [done|]. case_bool_decide as Hc; [done|].
  destruct (pair_items_Ret (total (subcat_scores acc))
              (take 3 (sorted_desc (subcat_scores acc)))) as (subcats & Hpi & Hss).
  { intros kv Hkv. apply elem_of_take_sorted in Hkv. by apply Hkeys. }
  rewrite Hpi in Hout. injection Hout as <-.
  simpl in *. split; [|split; [|split; [|split]]].
  - rewrite top_n_scores. apply group_scores_descending.
    by destruct (total_positive _ Hpc Hc).
  - rewrite Hss. destruct (decide (subcat_scores acc = [])) as [-> | Hs].
    + intros i j x y _ Hi. by destruct i.
    + apply group_scores_descending. by destruct (total_positive _ Hps Hs).
  - rewrite <- list_fmap_compose. apply sorted_descending. apply sorted_take.
    eapply sorted_impl; [|apply sorted_desc_sorted].
    intros a b Hab. simpl in *. by apply round4_mono.
  - rewrite length_fmap, length_take. lia.
  - intros n Hn. apply list_elem_of_fmap in Hn as (kv & -> & Hkv).
    apply elem_of_take_sorted in Hkv.
    destruct (Hnb kv Hkv) as (row & Hin & Hsym & _).
    exists row. simpl. split; [|split; [|done]].
    + unfold rows, select_tagged in Hin. apply (subseteq_take limit_rows_default) in Hin.
      by apply list_elem_of_filter in Hin as [_ ?].
    + unfold rows, select_tagged in Hin. apply (subseteq_take limit_rows_default) in Hin.
      by apply list_elem_of_filter in Hin as [? _].
Qed.

(** ** Where suggestions come from *)

Lemma dict_set_keys d k v k' :
  k' ∈ (dict_set d k v).*1 <-> k' = k \/ k' ∈ d.*1.
Proof.
  induction d as [|[k0 v0] d IH]; simpl.
  - rewrite list_elem_of_singleton. split; [by left | by intros [?|?%elem_of_nil]].
  - case_bool_decide as Hk; simpl; rewrite !elem_of_cons.
    + subst k0. tauto.
    + rewrite IH. tauto.
Qed.

Lemma dict_set_NoDup d k v : NoDup d.*1 -> NoDup (dict_set d k v).*1.
Proof.
  induction d as [|[k0 v0] d IH]; simpl; intros Hnd.
  - apply NoDup_singleton.
  - apply NoDup_cons in Hnd as [Hk0 Hnd]. case_bool_decide as Hk; simpl.
    + subst k0. by apply NoDup_cons.
    + apply NoDup_cons. split; [|by apply IH].
      rewrite dict_set_keys. intros [?|?]; [congruence | done].
Qed.

(** The keys of the category aggregates are distinct non-empty categories
    of scanned rows. *)
Lemma scan_cat_keys toks m rows :
  NoDup (cat_scores (scan toks m rows)).*1
  /\ forall c, c ∈ (cat_scores (scan toks m rows)).*1 ->
       c ≠ EmptyString /\ exists row, row ∈ rows /\ Row.cat row = Some c.
Proof.
  unfold scan.
  apply (foldl_scan_ind
           (fun acc => NoDup (cat_scores acc).*1
                       /\ forall c, c ∈ (cat_scores acc).*1 ->
                            c ≠ EmptyString
                            /\ exists row, row ∈ rows /\ Row.cat row = Some c)).
  - split; [apply NoDup_nil_2|]. intros c Hc. by apply elem_of_nil in Hc.
  - intros acc row Hin [Hnd Hk].
    destruct (scan_step_cases toks m acc row) as [-> | (_ & _ & ->)]; [done|].
    simpl. unfold cat_vote. destruct (Row.cat row) as [c0|] eqn:Hc0; [|done].
    destruct (str_truthy c0) eqn:Ht; [|done]. unfold add_vote. split.
    + by apply dict_set_NoDup.
    + intros c Hc. apply dict_set_keys in Hc as [-> | Hc]; [|by apply Hk].
      split; [by apply str_truthy_true|]. by exists row.
Qed.

Lemma top_n_values d n :
  CatSug.value <$> top_n d n = (take n (sorted_desc d)).*1.
Proof. unfold top_n. by rewrite <- list_fmap_compose. Qed.

(** X13. The suggested categories are pairwise distinct, none is empty, and
    each is the category of a stored entry: the suggester never invents a
    category. *)
Theorem suggested_categories_stored symbol text limit_rows min_sim db sg :
  suggest_taxonomy_with symbol text limit_rows min_sim db = Ret (Some sg) ->
  NoDup (CatSug.value <$> Suggestions.cat sg)
  /\ forall c, c ∈ CatSug.value <$> Suggestions.cat sg ->
       c ≠ EmptyString /\ exists row, row ∈ texts db /\ Row.cat row = Some c.
Proof.
  intros Hout. rewrite suggest_taxonomy_with_eq in Hout. cbv zeta in Hout.
  destruct (scan_cat_keys (tokenize (entry_text symbol text) 80) min_sim
              (select_tagged db limit_rows)) as [Hnd Hk].
  set (acc := scan _ _ _) in *. clearbody acc.
  case_bool_decide as Ht; [done|]. case_bool_decide as Hc; [done|].
  destruct (pair_items _ _) as [subcats|e]; [|done]. injection Hout as <-.
  simpl. rewrite top_n_values. split.
  - apply (sublist_NoDup _ (sorted_desc (cat_scores acc)).*1).
    + by rewrite sorted_desc_perm.
    + apply fmap_sublist, sublist_take.
  - intros c Hin. apply list_elem_of_fmap in Hin as (kv & -> & Hkv).
    apply elem_of_take_sorted in Hkv.
    destruct (Hk kv.1) as [Hne (row & Hin & Hrow)]; [by apply list_elem_of_fmap_2|].
    split; [done|]. exists row. split; [|done].
    unfold select_tagged in Hin. apply (subseteq_take limit_rows) in Hin.
    by apply list_elem_of_filter in Hin as [_ ?].
Qed.

(** ** Pair keys *)

Lemma append_assoc (a b c : string) : (a +:+ b) +:+ c = a +:+ (b +:+ c).
Proof.
  induction a as [|x a IH]; [done|].
  change (String x ((a +:+ b) +:+ c) = String x (a +:+ (b +:+ c))). by f_equal.
Qed.

Lemma contains_cons needle x h :
  contains needle (String x h) = String.prefix needle (String x h) || contains needle h.
Proof. reflexivity. Qed.

Lemma prefix_sep x y r :
  String.prefix "::" (String x (String y r))
  = bool_decide (x = ":"%char) && bool_decide (y = ":"%char).
Proof.
  change (String.prefix "::" (String x (String y r)))
    with (if ascii_dec ":" x
          then if ascii_dec ":" y then String.prefix "" r else false
          else false).
  destruct (ascii_dec ":" x) as [<-|Hx].
  - destruct (ascii_dec ":" y) as [<-|Hy]; [by destruct r|].
    by rewrite (bool_decide_eq_false_2 (y = _)).
  - by rewrite (bool_decide_eq_false_2 (x = _)).
Qed.

Lemma split_once_cons x y r :
  split_once (String x (String y r))
  = if bool_decide (x = ":"%char) && bool_decide (y = ":"%char)
    then Some (EmptyString, r)
    else match split_once (String y r) with
         | Some (a, b) => Some (String x a, b)
         | None => None
         end.
Proof. reflexivity. Qed.

(** The key of a pair splits back into the pair when the separator first
    occurs where the key was joined. *)
Lemma split_once_join c s :
  contains "::" (c +:+ ":") = false -> split_once (pair_key c s) = Some (c, s).
Proof.
  unfold pair_key. induction c as [|x c IH]; intros Hc; [done|].
  destruct c as [|y c].
  - change (contains "::" (String x ":") = false) in Hc.
    change (split_once (String x (String ":" (String ":" s))) = Some (String x "", s)).
    rewrite contains_cons, prefix_sep in Hc. apply orb_false_elim in Hc as [Hpre _].
    by rewrite split_once_cons, Hpre.
  - change (contains "::" (String x (String y (c +:+ ":"))) = false) in Hc.
    change (split_once (String x (String y (c +:+ "::" +:+ s)))
            = Some (String x (String y c), s)).
    rewrite contains_cons, prefix_sep in Hc. apply orb_false_elim in Hc as [Hpre Hc].
    rewrite split_once_cons, Hpre.
    change (String y (c +:+ "::" +:+ s)) with (String y c +:+ "::" +:+ s).
    by rewrite (IH Hc).
Qed.

(** X14. Joining a category and a subcategory into a pair key and splitting
    the key again is the identity as long as the category contains no "::"
    and does not end with ":"; a category that contains "::" is cut at the
    first occurrence, the remainder going to the subcategory. *)
Theorem pair_key_round_trip c s :
  (contains "::" (c +:+ ":") = false ->
   split_once (pair_key c s) = Some (c, s))
  /\ (forall a b, c = a +:+ "::" +:+ b ->
        contains "::" (a +:+ ":") = false ->
        split_once (pair_key c s) = Some (a, b +:+ "::" +:+ s)).
Proof.
  split; [apply split_once_join|].
  intros a b -> Ha.
  replace (pair_key (a +:+ "::" +:+ b) s) with (pair_key a (b +:+ "::" +:+ s)).
  - by apply split_once_join.
  - unfold pair_key. by rewrite !append_assoc.
Qed.

(** The keys of the pair aggregates are joined from the category and the
    subcategory of a scanned row. *)
Lemma scan_pair_keys_stored toks m rows k :
  k ∈ (subcat_scores (scan toks m rows)).*1 ->
  exists row c s, row ∈ rows /\ Row.cat row = Some c /\ Row.subcat row = Some s
                  /\ k = pair_key c s.
Proof.
  unfold scan. revert k.
  apply (foldl_scan_ind
           (fun acc => forall k, k ∈ (subcat_scores acc).*1 ->
              exists row c s, row ∈ rows /\ Row.cat row = Some c
                              /\ Row.subcat row = Some s /\ k = pair_key c s)).
  - intros k Hk. by apply elem_of_nil in Hk.
  - intros acc row Hin IH k.
    destruct (scan_step_cases toks m acc row) as [-> | (_ & _ & ->)]; [apply IH|].
    simpl. unfold pair_vote.
    destruct (Row.cat row) as [c|] eqn:Hc; [|apply IH].
    destruct (Row.subcat row) as [s|] eqn:Hs; [|apply IH].
    destruct (_ && _); [|apply IH]. unfold add_vote.
    intros Hk. apply dict_set_keys in Hk as [-> | Hk]; [|by apply IH].
    by exists row, c, s.
Qed.

Lemma pair_items_elem total items out p :
  pair_items total items = Ret out -> p ∈ out ->
  exists kv, kv ∈ items /\ split_once kv.1 = Some (SubSug.cat p, SubSug.value p).
Proof.
  revert out. induction items as [|[k v] items IH]; intros out; simpl.
  - intros [= <-] Hp. by apply elem_of_nil in Hp.
  - destruct (split_once k) as [[c s]|] eqn:Hk; [|done].
    destruct (pair_items total items) as [out'|e]; [|done]. simpl.
    intros [= <-] Hp. apply elem_of_cons in Hp as [-> | Hp].
    + exists (k, v). split; [left | done].
    + destruct (IH out' eq_refl Hp) as (kv & Hkv & Hsplit).
      exists kv. split; [by right | done].
Qed.

(** X15. When no stored category contains "::" or ends with ":", every
    suggested (category, subcategory) pair is the pair of a stored entry:
    scores are never aggregated across different parent categories and no
    pair is invented. *)
Theorem suggested_pairs_stored symbol text limit_rows min_sim db sg :
  (forall row c, row ∈ texts db -> Row.cat row = Some c ->
                 contains "::" (c +:+ ":") = false) ->
  suggest_taxonomy_with symbol text limit_rows min_sim db = Ret (Some sg) ->
  forall p, p ∈ Suggestions.subcat sg ->
    exists row, row ∈ texts db
                /\ Row.cat row = Some (SubSug.cat p)
                /\ Row.subcat row = Some (SubSug.value p).
Proof.
  intros Hclean Hout p Hp. rewrite suggest_taxonomy_with_eq in Hout.
  cbv zeta in Hout.
  pose proof (scan_pair_keys_stored (tokenize (entry_text symbol text) 80) min_sim
                (select_tagged db limit_rows)) as Hk.
  set (acc := scan _ _ _) in *. clearbody acc.
  case_bool_decide as Ht; [done|]. case_bool_decide as Hc; [done|].
  destruct (pair_items _ _) as [subcats|e] eqn:Hpi; [|done]. injection Hout as <-.
  simpl in Hp. destruct (pair_items_elem _ _ _ p Hpi Hp) as (kv & Hkv & Hsplit).
  apply elem_of_take_sorted in Hkv.
  destruct (Hk kv.1) as (row & c & s & Hin & Hcat & Hsub & Hkey);
    [by apply list_elem_of_fmap_2|].
  assert (Hdb : row ∈ texts db).
  { unfold select_tagged in Hin. apply (subseteq_take limit_rows) in Hin.
    by apply list_elem_of_filter in Hin as [_ ?]. }
  rewrite Hkey, (split_once_join c s) in Hsplit by (by apply (Hclean row)).
  injection Hsplit as <- <-. by exists row.
Qed.

(** ** A single category *)

Lemma round_half_even_int q z :
  (q == inject_Z z)%Q -> round_half_even q = z.
Proof.
  intros Hq. unfold round_half_even.
  rewrite (Qfloor_comp _ _ Hq), Qfloor_Z.
  destruct (Qcompare (q - inject_Z z) (1 # 2)) eqn:Hc; [|done|];
    qcompare_in Hc; exfalso; lra.
Qed.

Lemma round4_one q : (q == 1)%Q -> (round4 q == 1)%Q.
Proof.
  intros Hq. unfold round4. rewrite (round_half_even_int _ 10000); [done|].
  rewrite Hq. done.
Qed.

(** X16. When all stored categories that qualify are one and the same
    category, a present suggestion result proposes exactly that category,
    with score 1. *)
Theorem single_category_scores_one symbol text db sg c :
  (forall row c', row ∈ texts db -> Row.cat row = Some c' ->
                  c' ≠ EmptyString -> c' = c) ->
  suggest_taxonomy symbol text db = Ret (Some sg) ->
  exists score, Suggestions.cat sg = [CatSug.mk c score] /\ (score == 1)%Q.
Proof.
  intros Hone Hout. unfold suggest_taxonomy in Hout.
  rewrite suggest_taxonomy_with_eq in Hout. cbv zeta in Hout.
  destruct (scan_cat_keys (tokenize (entry_text symbol text) 80) min_sim_default
              (select_tagged db limit_rows_default)) as [Hnd Hk].
  destruct (scan_positive (tokenize (entry_text symbol text) 80) min_sim_default
              (select_tagged db limit_rows_default)) as [Hpos _]; [done|].
  set (acc := scan _ _ _) in *. clearbody acc.
  case_bool_decide as Ht; [done|]. case_bool_decide as Hc; [done|].
  destruct (pair_items _ _) as [subcats|e]; [|done]. injection Hout as <-.
  simpl.
  assert (Hkeys : forall k, k ∈ (cat_scores acc).*1 -> k = c).
  { intros k Hin. destruct (Hk k Hin) as [Hne (row & Hrow & Hcat)].
    apply (Hone row); [|done..].
    unfold select_tagged in Hrow. apply (subseteq_take limit_rows_default) in Hrow.
    by apply list_elem_of_filter in Hrow as [_ ?]. }
  destruct (cat_scores acc) as [|[k v] [|[k2 v2] d]] eqn:Hd; [done| |].
  - assert (k = c) by (apply Hkeys; left). subst k.
    eexists. split; [reflexivity|]. apply round4_one.
    assert (Hv : (0 < v)%Q) by (apply (Hpos (c, v)); left).
    unfold total, q_or. simpl.
    destruct (q_truthy (v + 0)) eqn:Hq.
    + field. lra.
    + apply q_truthy_false in Hq. lra.
  - exfalso. simpl in Hnd. apply NoDup_cons in Hnd as [Hnk _].
    apply Hnk. rewrite (Hkeys k) by left. rewrite (Hkeys k2); [left|].
    right. left.
Qed.

(** ** Reading through the client *)

Lemma split_char_cons sep c s :
  split_char sep (String c s)
  = if bool_decide (c = sep) then EmptyString :: split_char sep s
    else match split_char sep s with
         | [] => [String c EmptyString]
         | p :: ps => String c p :: ps
         end.
Proof. reflexivity. Qed.

Lemma split_char_not_nil sep s : split_char sep s ≠ [].
Proof.
  destruct s as [|c s]; [done|]. rewrite split_char_cons.
  case_bool_decide; [done|]. by destruct (split_char sep s).
Qed.

Lemma last_cons_cons {A} (x y : A) l d :
  List.last (x :: y :: l) d = List.last (y :: l) d.
Proof. reflexivity. Qed.

(** Without the separator the text is its own single segment. *)
Lemma split_char_none sep s :
  contains (String sep EmptyString) s = false -> split_char sep s = [s].
Proof.
  induction s as [|c s IH]; [done|]. intros Hc.
  rewrite contains_cons in Hc. apply orb_false_elim in Hc as [Hpre Hc].
  rewrite split_char_cons, (IH Hc).
  rewrite bool_decide_eq_false_2; [done|]. intros ->.
  change (String.prefix (String sep "") (String sep s))
    with (if ascii_dec sep sep then String.prefix "" s else false) in Hpre.
  destruct (ascii_dec sep sep); [|done]. by destruct s.
Qed.

(** Whatever precedes a separator does not matter for the last segment. *)
Lemma last_segment_after sep a s :
  List.last (split_char sep (a +:+ String sep s)) EmptyString
  = List.last (split_char sep s) EmptyString.
Proof.
  induction a as [|c a IH].
  - change ("" +:+ String sep s) with (String sep s).
    rewrite split_char_cons, bool_decide_eq_true_2 by done.
    destruct (split_char sep s) eqn:Hs; [by apply split_char_not_nil in Hs|done].
  - change (String c a +:+ String sep s) with (String c (a +:+ String sep s)).
    rewrite split_char_cons.
    destruct (split_char sep (a +:+ String sep s)) as [|p ps] eqn:Hs;
      [by apply split_char_not_nil in Hs|].
    case_bool_decide; [by rewrite last_cons_cons|].
    destruct ps as [|q ps]; [|by rewrite !last_cons_cons in *].
    (* a single segment would hold the separator *)
    exfalso. clear IH.
    assert (Hlen : forall r, (length (split_char sep (r +:+ String sep s)) >= 2)%nat).
    { clear. induction r as [|x r IHr].
      - change ("" +:+ String sep s) with (String sep s).
        rewrite split_char_cons, bool_decide_eq_true_2 by done. simpl.
        pose proof (split_char_not_nil sep s). destruct (split_char sep s); [done|simpl; lia].
      - change (String x r +:+ String sep s) with (String x (r +:+ String sep s)).
        rewrite split_char_cons. case_bool_decide; [simpl; lia|].
        destruct (split_char sep (r +:+ String sep s)); simpl in *; lia. }
    specialize (Hlen a). rewrite Hs in Hlen. simpl in Hlen. lia.
Qed.

Lemma last_segment_resource_uri symbol :
  last_segment (resource_uri symbol) = last_segment symbol.
Proof.
  unfold last_segment, resource_uri.
  change ("resource://sm/v1/texts/" +:+ symbol)
    with ("resource://sm/v1/texts" +:+ String "/" symbol).
  apply last_segment_after.
Qed.

Lemma contains_resource_uri symbol : contains "://" (resource_uri symbol) = true.
Proof. reflexivity. Qed.

Section ClientGetFacts.

Variable sha256_text : string -> string.

(** The value of [cmd_get] in terms of the store's get. *)
Lemma cmd_get_eq symbol ts db :
  cmd_get sha256_text symbol ts db
  = (match get db (last_segment symbol) with
     | Ret body => Ret (PrintText body)
     | Raise _ => Raise (RuntimeError "HTTP error")
     end, db).
Proof.
  unfold cmd_get. rewrite initialize_Ret.
  unfold MCPClient_resources_read, rpc. rewrite mcp_read.
  unfold resources_read. rewrite contains_resource_uri. simpl.
  rewrite last_segment_resource_uri.
  by destruct (get db (last_segment symbol)).
Qed.

(** After a validated save the symbol reads back as the saved text. *)
Lemma get_after_save raw args ts db :
  parse_SaveArgs raw = Ret args ->
  get (save_text sha256_text args ts db).2 (SaveArgs.symbol args)
  = Ret (SaveArgs.text args).
Proof.
  intros Hp. apply parse_SaveArgs_Ret in Hp as (_&_&_&_&_&Hsym&_).
  destruct (select_row_save_eq sha256_text args ts db) as (row & Hrow & _ & Hbody & _).
  rewrite (get_resolved _ _ (SaveArgs.symbol args)).
  - apply str_truthy_true in Hsym. by rewrite Hsym, Hrow, Hbody.
  - unfold resolve_symbol. by rewrite Hrow.
Qed.

(** X17. [cmd_get] never changes the store and looks up only what follows
    the last "/" of the symbol it is given; after a validated save of a
    symbol that contains no "/", [cmd_get] of the symbol prints exactly the
    saved text. *)
Theorem cmd_get_round_trip raw args ts ts' db :
  (forall symbol, (cmd_get sha256_text symbol ts' db).2 = db)
  /\ (forall a b, (cmd_get sha256_text (a +:+ "/" +:+ b) ts' db).1
                  = (cmd_get sha256_text b ts' db).1)
  /\ (parse_SaveArgs raw = Ret args ->
      contains "/" (SaveArgs.symbol args) = false ->
      cmd_get sha256_text (SaveArgs.symbol args) ts'
              (save_text sha256_text args ts db).2
      = (Ret (PrintText (SaveArgs.text args)), (save_text sha256_text args ts db).2)).
Proof.
  split; [intros symbol; by rewrite cmd_get_eq|]. split.
  - intros a b. rewrite !cmd_get_eq. simpl. unfold last_segment.
    change (a +:+ "/" +:+ b) with (a +:+ String "/" b).
    by rewrite (last_segment_after "/" a b).
  - intros Hp Hslash. rewrite cmd_get_eq. unfold last_segment.
    rewrite (split_char_none "/" _ Hslash). simpl.
    by rewrite (get_after_save raw).
Qed.

End ClientGetFacts.

(** ** The decisions of [cmd_save] *)

Section CmdSaveFacts.

Variable sha256_text : string -> string.

Lemma tools_call_save raw ts db :
  tools_call sha256_text "sm.texts.save" raw ts db
  = match tools_save sha256_text raw ts db with
    | (Ret r, db') => (Ret r, db')
    | (Raise _, db') => (Raise (RuntimeError "HTTP error"), db')
    end.
Proof. reflexivity. Qed.

(** The first save of [cmd_save] when the block lacks part of the taxonomy. *)
Lemma first_save symbol blk args ts db :
  parse_SaveArgs (save_payload symbol (DefineBlock.body blk) (DefineBlock.cat blk)
                               (DefineBlock.subcat blk) (DefineBlock.aliases blk))
  = Ret args ->
  bool_decide (is_Some (DefineBlock.cat blk))
  && bool_decide (is_Some (DefineBlock.subcat blk)) = false ->
  exists sgo,
    suggest_taxonomy symbol (DefineBlock.body blk)
                     (save_text sha256_text args ts db).2 = Ret sgo
    /\ tools_call sha256_text "sm.texts.save"
         (save_payload symbol (DefineBlock.body blk) (DefineBlock.cat blk)
                       (DefineBlock.subcat blk) (DefineBlock.aliases blk)) ts db
       = (Ret (SaveOk (save_text sha256_text args ts db).1 sgo),
          (save_text sha256_text args ts db).2).
Proof.
  intros Hp Hhas.
  destruct (suggest_taxonomy_with_Ret symbol (DefineBlock.body blk)
              limit_rows_default min_sim_default
              (save_text sha256_text args ts db).2) as [sgo Hsg].
  exists sgo. split; [exact Hsg|].
  rewrite tools_call_save. unfold tools_save. rewrite Hp.
  pose proof (parse_SaveArgs_Ret _ _ Hp) as (Hs & Ht & Hc & Hsc & _).
  simpl in Hs, Ht, Hc, Hsc. injection Hs as Hs. injection Ht as Ht.
  destruct (save_text sha256_text args ts db) as [res db1]. simpl in *.
  assert (Hmiss : bool_decide (SaveArgs.cat args = None)
                  || bool_decide (SaveArgs.subcat args = None) = true).
  { rewrite Hc, Hsc. by destruct (DefineBlock.cat blk), (DefineBlock.subcat blk). }
  rewrite Hmiss, <- Hs, <- Ht. unfold suggest_taxonomy in Hsg. unfold suggest_taxonomy.
  by rewrite Hsg.
Qed.

(** X18. Reject: when the answer typed at the prompt is not blank and is
    none of y, e and u (in either case), [cmd_save] issues no second save
    and leaves the apply record alone; the only effect is the save of the
    block. *)
Theorem cmd_save_reject arg_symbol blk inp ts1 ts2 w symbol :
  (if truthy arg_symbol then arg_symbol else DefineBlock.symbol blk) = Some symbol ->
  str_truthy symbol = true ->
  str_truthy (strip (answer inp)) = true ->
  lower (strip (answer inp)) ≠ "u" ->
  lower (strip (answer inp)) ≠ "e" ->
  lower (strip (answer inp)) ≠ "y" ->
  (cmd_save sha256_text arg_symbol blk inp ts1 ts2 w).2
  = mkWorld
      (tools_save sha256_text
         (save_payload symbol (DefineBlock.body blk) (DefineBlock.cat blk)
                       (DefineBlock.subcat blk) (DefineBlock.aliases blk))
         ts1 (server w)).2
      (last_apply_file w).
Proof.
  intros Hsym Htruthy Hans Hu He Hy. unfold cmd_save.
  rewrite Hsym, Htruthy, initialize_Ret. simpl.
  rewrite <- tools_call_save_db.
  destruct (tools_call sha256_text "sm.texts.save" _ ts1 (server w))
    as [[result|e] db1]; [|done].
  destruct result as [| |res [sg|]|]; try done.
  destruct (_ && _); [done|].
  destruct (_pick_top_suggestion sg) as [[sug_cat sug_sub] score].
  destruct (_ && _); [done|].
  unfold _prompt_apply. rewrite Hans. simpl.
  rewrite (bool_decide_eq_false_2 (_ = "u")) by done.
  rewrite (bool_decide_eq_false_2 (_ = "e")) by done.
  by rewrite (bool_decide_eq_false_2 (_ = "y")).
Qed.

(** X19. Accept: when the block lacks part of the taxonomy, the suggestion
    result is present, and the answer is y (typed, or taken as the default),
    [cmd_save] saves the block once more with the selected category and
    subcategory; if that save succeeds the apply record becomes the symbol,
    the taxonomy the symbol had before the run, the selection and its
    score; if it fails the record stays as it was. *)
Theorem cmd_save_accept arg_symbol blk inp ts1 ts2 w symbol args sg :
  (if truthy arg_symbol then arg_symbol else DefineBlock.symbol blk) = Some symbol ->
  str_truthy symbol = true ->
  parse_SaveArgs (save_payload symbol (DefineBlock.body blk) (DefineBlock.cat blk)
                               (DefineBlock.subcat blk) (DefineBlock.aliases blk))
  = Ret args ->
  bool_decide (is_Some (DefineBlock.cat blk))
  && bool_decide (is_Some (DefineBlock.subcat blk)) = false ->
  let db1 := (save_text sha256_text args ts1 (server w)).2 in
  suggest_taxonomy symbol (DefineBlock.body blk) db1 = Ret (Some sg) ->
  let sug_cat := (_pick_top_suggestion sg).1.1 in
  let sug_sub := (_pick_top_suggestion sg).1.2 in
  let score := (_pick_top_suggestion sg).2 in
  negb (truthy sug_cat) && negb (truthy sug_sub) = false ->
  lower (_prompt_apply sug_cat sug_sub score (answer inp)) = "y" ->
  let second := tools_save sha256_text
                  (save_payload symbol (DefineBlock.body blk) sug_cat sug_sub
                                (DefineBlock.aliases blk)) ts2 db1 in
  (cmd_save sha256_text arg_symbol blk inp ts1 ts2 w).2
  = mkWorld second.2
      (match second.1 with
       | Ret _ => Some (ApplyRecord.mk symbol
                          (get_existing_meta (server w) symbol).1
                          (get_existing_meta (server w) symbol).2
                          sug_cat sug_sub score)
       | Raise _ => last_apply_file w
       end).
Proof.
  intros Hsym Htruthy Hp Hhas db1 Hsg sug_cat sug_sub score Hpick Hans second.
  destruct (first_save symbol blk args ts1 (server w) Hp Hhas) as (sgo & Hsgo & Hcall).
  fold db1 in Hsgo, Hcall. rewrite Hsg in Hsgo. injection Hsgo as <-.
  unfold cmd_save. rewrite Hsym, Htruthy, initialize_Ret. simpl.
  rewrite Hcall, Hhas.
  subst sug_cat sug_sub score. unfold second. clear second.
  unfold _pick_top_suggestion in *. simpl in *.
  rewrite Hpick, Hans. simpl.
  rewrite tools_call_save. rewrite save_text_prev.
  pose proof (parse_SaveArgs_Ret _ _ Hp) as (Hs & _). simpl in Hs.
  injection Hs as <-.
  by destruct (tools_save sha256_text _ ts2 db1) as [[applied|e] db2].
Qed.

(** X20. Undo on the record's own symbol is a taxonomy rollback only: when
    the record names the symbol being saved, an undo decision leaves the
    entry with the body of the block, as the first save of the run stored
    it, and with the recorded previous category and subcategory; the record
    stays, and the rows of all other symbols are as before the run. *)
Theorem undo_own_symbol arg_symbol blk inp ts1 ts2 w symbol args args2 sg last :
  (if truthy arg_symbol then arg_symbol else DefineBlock.symbol blk) = Some symbol ->
  str_truthy symbol = true ->
  parse_SaveArgs (save_payload symbol (DefineBlock.body blk) (DefineBlock.cat blk)
                               (DefineBlock.subcat blk) (DefineBlock.aliases blk))
  = Ret args ->
  bool_decide (is_Some (DefineBlock.cat blk))
  && bool_decide (is_Some (DefineBlock.subcat blk)) = false ->
  suggest_taxonomy symbol (DefineBlock.body blk)
                   (save_text sha256_text args ts1 (server w)).2 = Ret (Some sg) ->
  negb (truthy (_pick_top_suggestion sg).1.1)
  && negb (truthy (_pick_top_suggestion sg).1.2) = false ->
  lower (strip (answer inp)) = "u" ->
  last_apply_file w = Some last ->
  ApplyRecord.symbol last = symbol ->
  parse_SaveArgs (save_payload symbol (DefineBlock.body blk)
                               (ApplyRecord.prev_cat last) (ApplyRecord.prev_subcat last)
                               (DefineBlock.aliases blk)) = Ret args2 ->
  let w' := (cmd_save sha256_text arg_symbol blk inp ts1 ts2 w).2 in
  last_apply_file w' = Some last
  /\ get (server w') symbol = Ret (DefineBlock.body blk)
  /\ get_existing_meta (server w') symbol
     = (ApplyRecord.prev_cat last, ApplyRecord.prev_subcat last)
  /\ forall x, x ≠ symbol -> select_row (server w') x = select_row (server w) x.
Proof.
  intros Hsym Htruthy Hp Hhas Hsg Hpick Hu Hlast Hown Hp2 w'.
  destruct (first_save symbol blk args ts1 (server w) Hp Hhas) as (sgo & Hsgo & Hcall).
  rewrite Hsg in Hsgo. injection Hsgo as <-.
  assert (Hw : w' = mkWorld (save_text sha256_text args2 ts2
                               (save_text sha256_text args ts1 (server w)).2).2
                            (Some last)).
  { unfold w'.
    rewrite (undo_write sha256_text arg_symbol blk inp ts1 ts2 w symbol _ sg _ last
               Hsym Htruthy Hcall Hhas Hpick Hu Hlast).
    by rewrite Hown, tools_save_db, Hp2. }
  rewrite Hw. simpl.
  pose proof (parse_SaveArgs_Ret _ _ Hp) as (Hs1 & _). simpl in Hs1. injection Hs1 as Hs1.
  pose proof (parse_SaveArgs_Ret _ _ Hp2) as (Hs2 & Ht2 & Hc2 & Hsc2 & _).
  simpl in Hs2, Ht2, Hc2, Hsc2. injection Hs2 as Hs2. injection Ht2 as Ht2.
  destruct (select_row_save_eq sha256_text args2 ts2
              (save_text sha256_text args ts1 (server w)).2)
    as (row & Hrow & _ & Hbody & Hcat & Hsub).
  rewrite <- Hs2 in Hrow.
  split; [done|]. split; [|split].
  - rewrite Hs2, Ht2. exact (get_after_save sha256_text _ args2 ts2 _ Hp2).
  - unfold get_existing_meta. by rewrite Hrow, Hcat, Hsub, Hc2, Hsc2.
  - intros x Hx. rewrite !select_row_save_ne; [done|congruence..].
Qed.

(** X21. Without a symbol [cmd_save] exits before contacting the gateway;
    and when the block carries both a category and a subcategory there is
    no prompt: whatever is typed, the only effect is the save of the
    block. *)
Theorem cmd_save_no_prompt arg_symbol blk inp ts1 ts2 w :
  (truthy (if truthy arg_symbol then arg_symbol else DefineBlock.symbol blk) = false ->
   cmd_save sha256_text arg_symbol blk inp ts1 ts2 w
   = (Raise (SystemExit "Error: symbol missing."), w))
  /\ (forall symbol,
        (if truthy arg_symbol then arg_symbol else DefineBlock.symbol blk) = Some symbol ->
        str_truthy symbol = true ->
        is_Some (DefineBlock.cat blk) -> is_Some (DefineBlock.subcat blk) ->
        (cmd_save sha256_text arg_symbol blk inp ts1 ts2 w).2
        = mkWorld
            (tools_save sha256_text
               (save_payload symbol (DefineBlock.body blk) (DefineBlock.cat blk)
                             (DefineBlock.subcat blk) (DefineBlock.aliases blk))
               ts1 (server w)).2
            (last_apply_file w)).
Proof.
  split.
  - unfold cmd_save.
    destruct (if truthy arg_symbol then arg_symbol else DefineBlock.symbol blk)
      as [symbol|]; [|done].
    simpl. by intros ->.
  - intros symbol Hsym Htruthy Hc Hs. unfold cmd_save.
    rewrite Hsym, Htruthy, initialize_Ret. simpl.
    rewrite <- tools_call_save_db.
    destruct (tools_call sha256_text "sm.texts.save" _ ts1 (server w))
      as [[result|e] db1]; [|done].
    destruct result as [| |res [sg|]|]; try done.
    by rewrite !bool_decide_eq_true_2 by done.
Qed.

Lemma reachable_mcp req ts db :
  reachable sha256_text db -> reachable sha256_text (mcp sha256_text req ts db).2.
Proof.
  intros [reqs ->]. exists (reqs ++ [(req, ts)])%list. unfold run.
  by rewrite foldl_app.
Qed.

Lemma reachable_tools_call raw ts db :
  reachable sha256_text db ->
  reachable sha256_text (tools_call sha256_text "sm.texts.save" raw ts db).2.
Proof.
  intros Hr. rewrite tools_call_save_db.
  apply (reachable_mcp (Request.mk "tools/call" (Some "sm.texts.save") raw None) ts db Hr).
Qed.

(** X22. [cmd_save] keeps the store reachable: whatever the block and the
    answers, the store it leaves is one that the gateway produces from the
    empty store, so every invariant of reachable stores still holds. *)
Theorem cmd_save_reachable arg_symbol blk inp ts1 ts2 w :
  reachable sha256_text (server w) ->
  reachable sha256_text (server (cmd_save sha256_text arg_symbol blk inp ts1 ts2 w).2).
Proof.
  intros Hr. unfold cmd_save.
  destruct (if truthy arg_symbol then arg_symbol else DefineBlock.symbol blk)
    as [symbol|]; [|done].
  destruct (negb (str_truthy symbol)); [done|].
  rewrite initialize_Ret.
  pose proof (reachable_tools_call
                (save_payload symbol (DefineBlock.body blk) (DefineBlock.cat blk)
                              (DefineBlock.subcat blk) (DefineBlock.aliases blk))
                ts1 (server w) Hr) as Hr1.
  destruct (tools_call sha256_text "sm.texts.save" _ ts1 (server w))
    as [[result|e] db1]; [|done].
  simpl in Hr1.
  destruct result as [| |res [sg|]|]; try done.
  destruct (_ && _); [done|].
  destruct (_pick_top_suggestion sg) as [[sug_cat sug_sub] score].
  destruct (_ && _); [done|].
  case_bool_decide as Hu.
  - destruct (_load_last_apply _) as [last|]; [|done].
    pose proof (reachable_tools_call
                  (save_payload (ApplyRecord.symbol last) (DefineBlock.body blk)
                                (ApplyRecord.prev_cat last) (ApplyRecord.prev_subcat last)
                                (DefineBlock.aliases blk)) ts2 db1 Hr1) as Hr2.
    by destruct (tools_call sha256_text "sm.texts.save" _ ts2 db1) as [[rb|e] db2].
  - destruct (if bool_decide _ then _ else _) as [[c s] ans].
    case_bool_decide as Hy; [|done].
    pose proof (reachable_tools_call
                  (save_payload symbol (DefineBlock.body blk) c s
                                (DefineBlock.aliases blk)) ts2 db1 Hr1) as Hr2.
    by destruct (tools_call sha256_text "sm.texts.save" _ ts2 db1) as [[ap|e] db2].
Qed.

End CmdSaveFacts.

(** ** The selection *)

(** X23. The selection step never pairs a category with a subcategory of
    another category: when no pair has an empty category, the selected
    category and subcategory are those of one returned pair.  That pair is
    the first pair of the top category if there is one: it carries the top
    category and no pair before it does.  Otherwise no pair carries the top
    category and it is the first pair.  Without pairs the selection is the
    top category alone. *)
Theorem pick_top_from_one_pair (sg : Suggestions.t) :
  (forall p, p ∈ Suggestions.subcat sg -> SubSug.cat p ≠ EmptyString) ->
  let top := CatSug.value <$> head (Suggestions.cat sg) in
  let cat := (_pick_top_suggestion sg).1.1 in
  let sub := (_pick_top_suggestion sg).1.2 in
  (Suggestions.subcat sg = [] -> cat = top /\ sub = None)
  /\ (Suggestions.subcat sg ≠ [] ->
      exists p, p ∈ Suggestions.subcat sg
        /\ cat = Some (SubSug.cat p) /\ sub = Some (SubSug.value p)
        /\ ((cat = top
             /\ exists l1 l2,
                  Suggestions.subcat sg = (l1 ++ p :: l2)%list
                  /\ forall q, q ∈ l1 -> Some (SubSug.cat q) ≠ top)
            \/ ((forall q, q ∈ Suggestions.subcat sg -> Some (SubSug.cat q) ≠ top)
                /\ head (Suggestions.subcat sg) = Some p))).
Proof.
  intros Hcats top cat sub. unfold cat, sub, _pick_top_suggestion, select_top.
  fold top. simpl. split.
  - by intros ->.
  - intros Hne. destruct (Suggestions.subcat sg) as [|first rest] eqn:Hsub; [done|].
    destruct (List.find _ (first :: rest)) as [p|] eqn:Hfind.
    + destruct (find_split _ _ _ Hfind) as (l1 & l2 & Hsplit & Hp & Hl1).
      apply andb_prop in Hp as [Htop Hp]. apply bool_decide_eq_true in Hp.
      exists p. simpl. split; [rewrite Hsplit; set_solver|].
      split; [done|]. split; [done|]. left. split; [done|].
      exists l1, l2. split; [done|]. intros q Hq Heq.
      specialize (Hl1 q Hq). simpl in Hl1.
      by rewrite Htop, bool_decide_eq_true_2 in Hl1.
    + assert (Hfirst : str_truthy (SubSug.cat first) = true).
      { apply str_truthy_true, Hcats. left. }
      rewrite Hfirst. simpl. exists first. split; [left|]. split; [done|].
      split; [done|]. right. split; [|done].
      intros q Hq Heq. apply list_elem_of_In in Hq.
      pose proof (List.find_none _ _ Hfind q Hq) as Hnone. simpl in Hnone.
      rewrite <- Heq in Hnone. simpl in Hnone.
      rewrite bool_decide_eq_true_2 in Hnone by done.
      rewrite andb_true_r in Hnone.
      assert (str_truthy (SubSug.cat q) = true); [|congruence].
      apply str_truthy_true, Hcats. by apply list_elem_of_In.
Qed.

(** ** DEFINE blocks *)

Lemma append_nil_r (s : string) : s +:+ EmptyString = s.
Proof.
  induction s as [|c s IH]; [done|].
  change (String c (s +:+ EmptyString) = String c s). by f_equal.
Qed.

Lemma key_char_facts c :
  key_char c = true ->
  py_isspace c = false /\ is_linebreak c = false /\ c ≠ ":"%char.
Proof.
  destruct c as [[] [] [] [] [] [] [] []]; vm_compute; intros H;
    try discriminate H; by repeat split.
Qed.

Lemma linebreak_isspace c : is_linebreak c = true -> py_isspace c = true.
Proof.
  destruct c as [[] [] [] [] [] [] [] []]; vm_compute; intros H;
    try discriminate H; done.
Qed.

Lemma all_chars_impl (p q : ascii -> bool) s :
  (forall c, p c = true -> q c = true) ->
  all_chars p s = true -> all_chars q s = true.
Proof.
  intros Hpq. induction s as [|c s IH]; [done|]. simpl.
  intros [Hc Hs]%andb_prop. rewrite (Hpq c Hc). by apply IH.
Qed.

Lemma all_chars_app p a b :
  all_chars p (a +:+ b) = all_chars p a && all_chars p b.
Proof.
  induction a as [|c a IH]; [done|].
  change (p c && all_chars p (a +:+ b) = p c && all_chars p a && all_chars p b).
  by rewrite IH, andb_assoc.
Qed.

(** *** Lines *)

Lemma splitlines_go_line l rest cur :
  all_chars (fun c => negb (is_linebreak c)) l = true ->
  splitlines_go (l +:+ String "010" rest) cur
  = (cur +:+ l) :: splitlines_go rest EmptyString.
Proof.
  revert cur. induction l as [|c l IH]; intros cur Hl.
  - rewrite append_nil_r. change (EmptyString +:+ String "010" rest)
      with (String "010" rest). by destruct rest.
  - simpl in Hl. apply andb_prop in Hl as [Hc Hl]. apply negb_true_iff in Hc.
    change (String c l +:+ String "010" rest)
      with (String c (l +:+ String "010" rest)).
    simpl. rewrite Hc, (IH _ Hl), append_assoc. done.
Qed.

Lemma splitlines_go_last l cur :
  all_chars (fun c => negb (is_linebreak c)) l = true ->
  splitlines_go l cur = if str_truthy (cur +:+ l) then [cur +:+ l] else [].
Proof.
  revert cur. induction l as [|c l IH]; intros cur Hl.
  - by rewrite append_nil_r.
  - simpl in Hl. apply andb_prop in Hl as [Hc Hl]. apply negb_true_iff in Hc.
    simpl. rewrite Hc, (IH _ Hl), append_assoc. done.
Qed.

Lemma splitlines_go_clean_tail s :
  (forall cur,
     all_chars (fun c => negb (is_linebreak c)) cur = true ->
     Forall (fun l => all_chars (fun c => negb (is_linebreak c)) l = true)
            (splitlines_go s cur))
  /\ (forall c s', s = String c s' -> forall cur,
        all_chars (fun c => negb (is_linebreak c)) cur = true ->
        Forall (fun l => all_chars (fun c => negb (is_linebreak c)) l = true)
               (splitlines_go s' cur)).
Proof.
  induction s as [|c s [IH IHtail]].
  - split; [|done]. intros cur Hcur. simpl.
    destruct (str_truthy cur); by repeat constructor.
  - split; [|by intros ? ? [= <- <-]].
    intros cur Hcur. simpl. destruct (is_linebreak c) eqn:Hc.
    + destruct s as [|c' s'].
      * constructor; [done|]. by apply IH.
      * destruct (_ && _).
        -- constructor; [done|]. by apply (IHtail c' s').
        -- constructor; [done|]. by apply IH.
    + apply IH. rewrite all_chars_app, Hcur. simpl. by rewrite Hc.
Qed.

Lemma splitlines_clean s :
  Forall (fun l => all_chars (fun c => negb (is_linebreak c)) l = true) (splitlines s).
Proof. by apply splitlines_go_clean_tail. Qed.

(** *** Blanks *)

Lemma lstrip_head c s : py_isspace c = false -> lstrip (String c s) = String c s.
Proof. intros Hc. simpl. by rewrite Hc. Qed.

Lemma lstrip_cases s :
  lstrip s = EmptyString
  \/ exists c s', lstrip s = String c s' /\ py_isspace c = false.
Proof.
  induction s as [|c s IH]; [by left|]. simpl.
  destruct (py_isspace c) eqn:Hc; [done|]. right. by exists c, s.
Qed.

Lemma lstrip_idemp s : lstrip (lstrip s) = lstrip s.
Proof.
  destruct (lstrip_cases s) as [->|(c & s' & -> & Hc)]; [done|].
  by apply lstrip_head.
Qed.

Lemma rstrip_head c s :
  py_isspace c = false -> exists r, rstrip (String c s) = String c r.
Proof.
  intros Hc. simpl. destruct (rstrip s) as [|c' r]; rewrite ?Hc; by eexists.
Qed.

Lemma rstrip_idemp s : rstrip (rstrip s) = rstrip s.
Proof.
  induction s as [|c s IH]; [done|]. simpl.
  destruct (rstrip s) as [|c' r] eqn:Hr.
  - destruct (py_isspace c) eqn:Hc; [done|]. simpl. by rewrite Hc.
  - change (rstrip (String c (String c' r))) with
      (match rstrip (String c' r) with
       | EmptyString => if py_isspace c then EmptyString else String c EmptyString
       | r' => String c r'
       end).
    by rewrite IH.
Qed.

Lemma strip_idemp s : strip (strip s) = strip s.
Proof.
  unfold strip. destruct (lstrip_cases s) as [->|(c & s' & -> & Hc)]; [done|].
  destruct (rstrip_head c s' Hc) as [r Hr]. rewrite Hr, (lstrip_head _ _ Hc), <- Hr.
  apply rstrip_idemp.
Qed.

Lemma strip_lstrip s : strip (lstrip s) = strip s.
Proof. unfold strip. by rewrite lstrip_idemp. Qed.

Lemma strip_head c s : py_isspace c = false -> strip (String c s) ≠ EmptyString.
Proof.
  intros Hc. unfold strip. rewrite (lstrip_head _ _ Hc).
  by destruct (rstrip_head c s Hc) as [r ->].
Qed.

Lemma rstrip_no_blank s :
  all_chars (fun c => negb (py_isspace c)) s = true -> rstrip s = s.
Proof.
  induction s as [|c s IH]; [done|]. simpl.
  intros [Hc Hs]%andb_prop. apply negb_true_iff in Hc.
  rewrite (IH Hs), Hc. by destruct s.
Qed.

Lemma strip_no_blank s :
  all_chars (fun c => negb (py_isspace c)) s = true -> strip s = s.
Proof.
  intros Hs. unfold strip.
  assert (lstrip s = s) as ->; [|by apply rstrip_no_blank].
  destruct s as [|c s]; [done|]. simpl in *.
  apply andb_prop in Hs as [Hc _]. apply negb_true_iff in Hc. by rewrite Hc.
Qed.

Lemma all_chars_lstrip p s : all_chars p s = true -> all_chars p (lstrip s) = true.
Proof.
  induction s as [|c s IH]; [done|]. simpl.
  intros [Hc Hs]%andb_prop. destruct (py_isspace c); [by apply IH|].
  simpl. by rewrite Hc, Hs.
Qed.

Lemma all_chars_rstrip p s : all_chars p s = true -> all_chars p (rstrip s) = true.
Proof.
  induction s as [|c s IH]; [done|]. simpl.
  intros [Hc Hs]%andb_prop. specialize (IH Hs).
  destruct (rstrip s) as [|c' r].
  - destruct (py_isspace c); [done|]. simpl. by rewrite Hc.
  - simpl in *. by rewrite Hc, IH.
Qed.

Lemma all_chars_strip p s : all_chars p s = true -> all_chars p (strip s) = true.
Proof. intros Hs. by apply all_chars_rstrip, all_chars_lstrip. Qed.

(** *** Header lines *)

Lemma span_key k rest :
  all_chars key_char k = true ->
  span key_char (k +:+ String ":" rest) = (k, String ":" rest).
Proof.
  induction k as [|c k IH]; [done|]. simpl.
  intros [Hc Hk]%andb_prop.
  change (String c k +:+ String ":" rest) with (String c (k +:+ String ":" rest)).
  simpl. by rewrite Hc, (IH Hk).
Qed.

Lemma match_header_line k v :
  k ≠ EmptyString -> all_chars key_char k = true ->
  match_header (k +:+ String ":" v) = Some (k, lstrip v).
Proof.
  intros Hk Hkey. unfold match_header. rewrite (span_key _ _ Hkey).
  apply str_truthy_true in Hk. by rewrite Hk.
Qed.

Lemma span_sound p s a b :
  span p s = (a, b) -> s = a +:+ b /\ all_chars p a = true.
Proof.
  revert a b. induction s as [|c s IH]; intros a b.
  - by intros [= <- <-].
  - simpl. destruct (p c) eqn:Hc.
    + destruct (span p s) as [a' b'] eqn:Hs. intros [= <- <-].
      destruct (IH a' b' eq_refl) as [-> Ha]. simpl. by rewrite Hc, Ha.
    + by intros [= <- <-].
Qed.

Lemma match_header_clean line k v :
  all_chars (fun c => negb (is_linebreak c)) line = true ->
  match_header line = Some (k, v) ->
  all_chars (fun c => negb (is_linebreak c)) v = true.
Proof.
  intros Hline. unfold match_header.
  destruct (span key_char line) as [key rest] eqn:Hspan.
  destruct (span_sound _ _ _ _ Hspan) as [-> _].
  rewrite all_chars_app in Hline. apply andb_prop in Hline as [_ Hrest].
  destruct (negb (str_truthy key)); [done|].
  pose proof (all_chars_lstrip _ _ Hrest) as Hl.
  destruct (lstrip rest) as [|c rest']; [done|].
  case_bool_decide; [|done]. intros [= <- <-].
  simpl in Hl. apply andb_prop in Hl as [_ Hl]. by apply all_chars_lstrip.
Qed.

Lemma headers_loop_acc lines acc :
  headers_loop lines acc
  = ((headers_loop lines ∅).1 ∪ acc, (headers_loop lines ∅).2).
Proof.
  revert acc. induction lines as [|line rest IH]; intros acc.
  - simpl. by rewrite (left_id_L ∅ (∪)).
  - simpl. destruct (negb (str_truthy (strip line))).
    { simpl. by rewrite (left_id_L ∅ (∪)). }
    destruct (match_header line) as [[k v]|].
    + rewrite (IH (<[_ := _]> acc)), (IH (<[_ := _]> ∅)). simpl. f_equal.
      rewrite !insert_union_singleton_l, (right_id_L ∅ (∪)).
      by rewrite (assoc_L (∪)).
    + simpl. by rewrite (left_id_L ∅ (∪)).
Qed.

(** X24. A header line adds one header: a line made of a key, a colon and
    a value is read as the header that maps the lower-cased key to the
    value without the blanks at its ends, and the rest of the block is read
    as it would be alone; a header of the rest with the same key replaces
    it.  A block that ends with such a line has an empty body. *)
Theorem header_line_parsed k v rest :
  k ≠ EmptyString -> all_chars key_char k = true ->
  all_chars (fun c => negb (is_linebreak c)) v = true ->
  _parse_kv_headers (k +:+ String ":" (v +:+ String "010" rest))
  = ((_parse_kv_headers rest).1 ∪ {[ lower k := strip v ]}, (_parse_kv_headers rest).2)
  /\ _parse_kv_headers (k +:+ String ":" v)
     = ({[ lower k := strip v ]}, EmptyString).
Proof.
  intros Hk Hkey Hv.
  assert (Hkv : all_chars (fun c => negb (is_linebreak c)) (k +:+ String ":" v) = true).
  { rewrite all_chars_app. simpl. rewrite Hv, andb_true_r.
    eapply all_chars_impl; [|exact Hkey].
    intros c Hc. by destruct (key_char_facts c Hc) as (_ & -> & _). }
  assert (Hstrip : str_truthy (strip (k +:+ String ":" v)) = true).
  { apply str_truthy_true. destruct k as [|c k]; [done|].
    apply strip_head. simpl in Hkey. apply andb_prop in Hkey as [Hc _].
    by destruct (key_char_facts c Hc) as (-> & _). }
  assert (Hsk : strip k = k).
  { apply strip_no_blank. eapply all_chars_impl; [|exact Hkey].
    intros c Hc. by destruct (key_char_facts c Hc) as (-> & _). }
  split.
  - unfold _parse_kv_headers, splitlines.
    replace (k +:+ String ":" (v +:+ String "010" rest))
      with ((k +:+ String ":" v) +:+ String "010" rest)
      by (by rewrite append_assoc).
    rewrite (splitlines_go_line _ _ _ Hkv).
    change (EmptyString +:+ (k +:+ String ":" v)) with (k +:+ String ":" v). simpl.
    rewrite Hstrip, (match_header_line _ _ Hk Hkey). simpl.
    rewrite headers_loop_acc, Hsk, strip_lstrip.
    destruct (headers_loop (splitlines_go rest EmptyString) ∅) as [h b]. simpl.
    by rewrite insert_empty.
  - unfold _parse_kv_headers, splitlines.
    rewrite (splitlines_go_last _ _ Hkv).
    change (EmptyString +:+ (k +:+ String ":" v)) with (k +:+ String ":" v).
    assert (str_truthy (k +:+ String ":" v) = true) as ->.
    { apply str_truthy_true. by destruct k. }
    simpl. rewrite Hstrip, (match_header_line _ _ Hk Hkey). simpl.
    by rewrite Hsk, strip_lstrip, insert_empty.
Qed.

(** *** The body *)

Lemma append_not_nil (a b : string) : b ≠ EmptyString -> a +:+ b ≠ EmptyString.
Proof. by destruct a. Qed.

Lemma rstrip_newlines_app a b :
  rstrip_newlines (a +:+ b)
  = if bool_decide (rstrip_newlines b = EmptyString) then rstrip_newlines a
    else a +:+ rstrip_newlines b.
Proof.
  induction a as [|c a IH].
  - change (EmptyString +:+ b) with b. by case_bool_decide.
  - change (String c a +:+ b) with (String c (a +:+ b)). simpl. rewrite IH.
    case_bool_decide as Hb; [done|].
    pose proof (append_not_nil a _ Hb) as Hne.
    change (String c a +:+ rstrip_newlines b)
      with (String c (a +:+ rstrip_newlines b)).
    by destruct (a +:+ rstrip_newlines b).
Qed.

Lemma rstrip_newlines_idemp s : rstrip_newlines (rstrip_newlines s) = rstrip_newlines s.
Proof.
  induction s as [|c s IH]; [done|]. simpl.
  destruct (rstrip_newlines s) as [|c' r] eqn:Hr.
  - case_bool_decide as Hc; [done|]. simpl. by rewrite bool_decide_eq_false_2.
  - change (rstrip_newlines (String c (String c' r))) with
      (match rstrip_newlines (String c' r) with
       | EmptyString => if bool_decide (c = "010"%char) then EmptyString
                        else String c EmptyString
       | r' => String c r'
       end).
    by rewrite IH.
Qed.

Lemma join_lines_cons l ls :
  join_lines (l :: ls)
  = match ls with [] => l | _ => l +:+ String "010" (join_lines ls) end.
Proof. by destruct ls. Qed.

Lemma rstrip_newlines_join l ls s :
  rstrip_newlines (join_lines ls) = rstrip_newlines s ->
  rstrip_newlines (join_lines (l :: ls)) = rstrip_newlines (l +:+ String "010" s).
Proof.
  intros Hs. rewrite join_lines_cons, (rstrip_newlines_app l (String "010" s)).
  simpl. rewrite <- Hs. destruct ls as [|l' ls'].
  - done.
  - rewrite (rstrip_newlines_app l (String "010" _)). done.
Qed.

Lemma join_splitlines s cur :
  lf_only s = true ->
  rstrip_newlines (join_lines (splitlines_go s cur)) = rstrip_newlines (cur +:+ s).
Proof.
  revert cur. induction s as [|c s IH]; intros cur Hs.
  - rewrite append_nil_r. simpl. destruct (str_truthy cur) eqn:Hcur; [done|].
    apply negb_false_iff, bool_decide_eq_true in Hcur. by subst.
  - unfold lf_only in Hs. simpl in Hs. apply andb_prop in Hs as [Hc Hs].
    simpl. destruct (is_linebreak c) eqn:Hlb.
    + simpl in Hc. apply bool_decide_eq_true in Hc. subst c.
      assert (match s with
              | String c' s'' =>
                  if bool_decide ("010"%char = "013"%char)
                     && bool_decide (c' = "010"%char)
                  then cur :: splitlines_go s'' EmptyString
                  else cur :: splitlines_go s EmptyString
              | EmptyString => cur :: splitlines_go s EmptyString
              end = cur :: splitlines_go s EmptyString) as -> by (by destruct s).
      apply rstrip_newlines_join. by rewrite (IH EmptyString Hs).
    + rewrite (IH _ Hs), append_assoc. done.
Qed.

(** X25. The end of the headers.  With the newline as the only line
    boundary, a blank first line is dropped and what follows it is the
    body, and a first line that is neither blank nor a header starts the
    body; in both cases no header is read, and the body is the text as it
    is written, without the newlines at its end. *)
Theorem body_verbatim line s :
  all_chars (fun c => negb (is_linebreak c)) line = true ->
  lf_only s = true ->
  (strip line = EmptyString ->
   _parse_kv_headers (line +:+ String "010" s) = (∅, rstrip_newlines s))
  /\ (strip line ≠ EmptyString -> match_header line = None ->
      _parse_kv_headers (line +:+ String "010" s)
      = (∅, rstrip_newlines (line +:+ String "010" s))).
Proof.
  intros Hline Hs. unfold _parse_kv_headers, splitlines.
  rewrite (splitlines_go_line _ _ _ Hline).
  change (EmptyString +:+ line) with line. split.
  - intros Hblank. simpl. rewrite Hblank. simpl.
    by rewrite (join_splitlines _ _ Hs).
  - intros Hblank%str_truthy_true Hmatch. simpl. rewrite Hblank, Hmatch. simpl.
    f_equal. apply rstrip_newlines_join. by rewrite (join_splitlines _ _ Hs).
Qed.

(** *** The fields of a block *)

Lemma headers_loop_values lines acc :
  Forall (fun l => all_chars (fun c => negb (is_linebreak c)) l = true) lines ->
  (forall k v, acc !! k = Some v ->
     strip v = v /\ all_chars (fun c => negb (is_linebreak c)) v = true) ->
  forall k v, (headers_loop lines acc).1 !! k = Some v ->
    strip v = v /\ all_chars (fun c => negb (is_linebreak c)) v = true.
Proof.
  revert acc. induction lines as [|line rest IH]; intros acc Hlines Hacc; [done|].
  apply Forall_cons in Hlines as [Hline Hrest]. simpl.
  destruct (negb (str_truthy (strip line))); [done|].
  destruct (match_header line) as [[k0 v0]|] eqn:Hm; [|done].
  apply IH; [done|]. intros k v.
  destruct (decide (k = lower (strip k0))) as [->|Hne].
  - rewrite lookup_insert_eq. intros [= <-]. split; [apply strip_idemp|].
    apply all_chars_strip. by eapply match_header_clean.
  - rewrite lookup_insert_ne by done. apply Hacc.
Qed.

Lemma header_or_None_clean raw key s :
  header_or_None (_parse_kv_headers raw).1 key = Some s -> clean_value s.
Proof.
  unfold header_or_None, _parse_kv_headers.
  pose proof (headers_loop_values (splitlines raw) ∅ (splitlines_clean raw)) as Hv.
  destruct (headers_loop (splitlines raw) ∅) as [h b]. simpl in *.
  destruct (h !! key) as [v|] eqn:Hkey; [|done].
  destruct (str_truthy v) eqn:Ht; [|done]. intros [= <-].
  destruct (Hv ltac:(done) key v Hkey) as [Hs Hc].
  split; [by apply str_truthy_true|done].
Qed.

Lemma split_char_all p sep s :
  all_chars p s = true -> Forall (fun x => all_chars p x = true) (split_char sep s).
Proof.
  induction s as [|c s IH]; [by repeat constructor|].
  simpl. intros [Hc Hs]%andb_prop. specialize (IH Hs).
  case_bool_decide; [by constructor|].
  destruct (split_char sep s) as [|x xs]; [repeat constructor; simpl; by rewrite Hc|].
  apply Forall_cons in IH as [Hx Hxs]. constructor; [|done]. simpl. by rewrite Hc.
Qed.

Lemma split_char_no_sep sep s :
  Forall (fun x => all_chars (fun c => negb (bool_decide (c = sep))) x = true)
         (split_char sep s).
Proof.
  induction s as [|c s IH]; [by repeat constructor|]. simpl.
  case_bool_decide as Hc; [by constructor|].
  destruct (split_char sep s) as [|x xs].
  - repeat constructor. simpl. by rewrite bool_decide_eq_false_2.
  - apply Forall_cons in IH as [Hx Hxs]. constructor; [|done].
    simpl. by rewrite bool_decide_eq_false_2.
Qed.

Lemma comma_list_clean raw a :
  all_chars (fun c => negb (is_linebreak c)) raw = true ->
  a ∈ comma_list raw ->
  clean_value a
  /\ all_chars (fun c => negb (bool_decide (c = ","%char))) a = true.
Proof.
  intros Hraw. unfold comma_list.
  rewrite list_elem_of_filter, list_elem_of_fmap.
  intros [Ha (x & -> & Hx)].
  pose proof (split_char_all _ "," _ Hraw) as Hall.
  pose proof (split_char_no_sep "," raw) as Hsep.
  rewrite Forall_forall in Hall, Hsep.
  split; [split; [by apply str_truthy_true|split; [apply strip_idemp|]]|].
  - apply all_chars_strip. by apply Hall.
  - apply all_chars_strip. by apply Hsep.
Qed.

(** X26. The fields of a parsed block.  When [parse_last_define_block]
    returns a block, its symbol, category and subcategory, when present,
    and its project are not empty, have no blank at either end and no line
    boundary inside; so are its aliases and tags, which contain no comma
    either; its body is not blank and does not end with a newline. *)
Theorem parsed_block_fields blocks blk :
  parse_last_define_block blocks = Ret blk ->
  (forall s, DefineBlock.symbol blk = Some s \/ DefineBlock.cat blk = Some s
             \/ DefineBlock.subcat blk = Some s -> clean_value s)
  /\ clean_value (DefineBlock.project blk)
  /\ (forall a, a ∈ DefineBlock.aliases blk \/ a ∈ DefineBlock.tags blk ->
        clean_value a
        /\ all_chars (fun c => negb (bool_decide (c = ","%char))) a = true)
  /\ strip (DefineBlock.body blk) ≠ EmptyString
  /\ rstrip_newlines (DefineBlock.body blk) = DefineBlock.body blk.
Proof.
  unfold parse_last_define_block. destruct (last blocks) as [raw|]; [|done].
  pose proof (header_or_None_clean raw) as Hclean.
  assert (Hbody : rstrip_newlines (_parse_kv_headers raw).2 = (_parse_kv_headers raw).2).
  { unfold _parse_kv_headers. destruct (headers_loop _ _) as [h b]. simpl.
    apply rstrip_newlines_idemp. }
  destruct (_parse_kv_headers raw) as [headers body]. simpl in *.
  destruct (negb (str_truthy (strip body))) eqn:Hb; [done|].
  apply negb_false_iff, str_truthy_true in Hb.
  intros [= <-]. simpl.
  assert (Hlist : forall key a,
             a ∈ comma_list (default EmptyString (header_or_None headers key)) ->
             clean_value a
             /\ all_chars (fun c => negb (bool_decide (c = ","%char))) a = true).
  { intros key a. destruct (header_or_None headers key) as [v|] eqn:Hv.
    - apply comma_list_clean. by destruct (Hclean key v Hv) as (_ & _ & ?).
    - by apply comma_list_clean. }
  split; [|split; [|split; [|done]]].
  - intros s [H|[H|H]]; by eapply Hclean.
  - destruct (header_or_None headers "project") as [v|] eqn:Hv; [by eapply Hclean|].
    by vm_compute.
  - intros a [H|H]; by eapply Hlist.
Qed.

(** ** The bridge *)

Section BridgeFacts.

Variable sha256_text : string -> string.
Variable now_iso : nat -> string.
Variable llm : list Message -> option AssistantMsg.t.

Lemma MCP_rpc_store req l :
  store (MCP_rpc sha256_text now_iso req l).2
  = (mcp sha256_text req (now_iso (sent l)) (store l)).2.
Proof.
  unfold MCP_rpc. by destruct (mcp sha256_text req _ _) as [[r|e] db'].
Qed.

Lemma MCP_initialize_eq l :
  MCP_initialize sha256_text now_iso l = mkLink (store l) (S (S (sent l))).
Proof. reflexivity. Qed.

Lemma MCP_resources_read_eq uri l :
  MCP_resources_read sha256_text now_iso uri l
  = (match get (store l) (last_segment uri) with
     | Ret body =>
         if contains "://" uri then Ok (ReadOk [Content.mk uri "text" body])
         else Err HTTPError
     | Raise _ => Err HTTPError
     end, mkLink (store l) (S (sent l))).
Proof.
  unfold MCP_resources_read, MCP_rpc. rewrite mcp_read. simpl.
  destruct (contains "://" uri); simpl.
  - by destruct (get (store l) (last_segment uri)).
  - by destruct (get (store l) (last_segment uri)).
Qed.

(** [exec_tool_call] with the default mapping: the arguments are decoded
    first, then the tool is looked up. *)
Lemma exec_tool_call_default tc l :
  exec_tool_call sha256_text now_iso build_default_tools_for_sm_mcp tc l
  = let name := ToolCall.name tc in
    let tc_id := if truthy (ToolCall.id tc)
                 then default EmptyString (ToolCall.id tc) else EmptyString in
    match json_loads (ToolCall.arguments tc) with
    | Err e => (Err e, l)
    | Ok args =>
        if bool_decide (name = "sm_save") then
          match MCP_tools_call sha256_text now_iso "sm.texts.save" args l with
          | (Ok res, l') => (Ok (tc_id, name, McpResult res), l')
          | (Err e, l') => (Err e, l')
          end
        else if bool_decide (name = "sm_get") then
          match args with
          | DValue => (Err TypeError, l)
          | DObject fields =>
              match RawArgs.symbol fields with
              | None => (Err (KeyError "symbol"), l)
              | Some sym =>
                  match MCP_resources_read sha256_text now_iso (resource_uri sym) l with
                  | (Ok res, l') => (Ok (tc_id, name, McpResult res), l')
                  | (Err e, l') => (Err e, l')
                  end
              end
          end
        else (Ok (tc_id, name, ErrorResult ("unknown tool: " +:+ name)), l)
    end.
Proof.
  unfold exec_tool_call, build_default_tools_for_sm_mcp. simpl.
  destruct (json_loads (ToolCall.arguments tc)) as [args|e]; [|done].
  case_bool_decide as Hsave.
  - rewrite Hsave, lookup_insert_eq. done.
  - rewrite lookup_insert_ne by done. case_bool_decide as Hget.
    + rewrite Hget, lookup_insert_eq. simpl. unfold _get_builder.
      destruct args as [|fields]; [done|].
      by destruct (RawArgs.symbol fields).
    + rewrite lookup_insert_ne by done. by rewrite lookup_empty.
Qed.

Lemma MCP_tools_call_store name args l :
  store (MCP_tools_call sha256_text now_iso name args l).2 = store l
  \/ exists req ts,
       store (MCP_tools_call sha256_text now_iso name args l).2
       = (mcp sha256_text req ts (store l)).2.
Proof.
  destruct args as [|fields]; [by left|]. right.
  exists (Request.mk "tools/call" (Some name) fields None), (now_iso (sent l)).
  apply MCP_rpc_store.
Qed.


(** Whatever the mapping, a tool call changes the store by at most one
    request to the gateway. *)
Lemma exec_tool_call_store mapping tc l :
  store (exec_tool_call sha256_text now_iso mapping tc l).2 = store l
  \/ exists req ts,
       store (exec_tool_call sha256_text now_iso mapping tc l).2
       = (mcp sha256_text req ts (store l)).2.
Proof.
  unfold exec_tool_call.
  destruct (json_loads (ToolCall.arguments tc)) as [args|e]; [|by left].
  destruct (mapping !! ToolCall.name tc) as [entry|]; [|by left].
  destruct (mcp_params_builder entry _) as [[kind params]|e]; [|by left].
  case_bool_decide.
  - destruct params as [n a|uri]; [|by left].
    pose proof (MCP_tools_call_store n a l) as Hstore.
    by destruct (MCP_tools_call _ _ n a l) as [[res|e] l'].
  - case_bool_decide; [|by left].
    destruct params as [n a|uri]; [by left|]. right.
    exists (Request.mk "resources/read" None no_args (Some uri)), (now_iso (sent l)).
    rewrite <- MCP_rpc_store. unfold MCP_resources_read.
    by destruct (MCP_rpc _ _ _ l) as [[res|e] l'].
Qed.

Lemma tool_calls_loop_reachable strict_get mapping tcs messages l :
  reachable sha256_text (store l) ->
  reachable sha256_text
    (store (tool_calls_loop sha256_text now_iso strict_get mapping tcs messages l).2).
Proof.
  revert messages l. induction tcs as [|tc rest IH]; intros messages l Hr; [done|].
  simpl.
  assert (Hr' : reachable sha256_text
                  (store (exec_tool_call sha256_text now_iso mapping tc l).2)).
  { destruct (exec_tool_call_store mapping tc l) as [->|(req & ts & ->)]; [done|].
    by apply reachable_mcp. }
  destruct (exec_tool_call _ _ mapping tc l) as [[[[tc_id tool_name] result]|e] l'];
    [|done].
  simpl in Hr'. destruct (_ && _).
  - by destruct (extract_text_from_resources_read result) as [[txt|]|e].
  - by apply IH.
Qed.

Lemma chat_rounds_S n strict_get mapping messages l :
  chat_rounds sha256_text now_iso llm (S n) strict_get mapping messages l
  = match llm messages with
    | None => (Err ChatError, l)
    | Some msg =>
        if bool_decide (AssistantMsg.tool_calls msg = [])
        then (Ok (default EmptyString (AssistantMsg.content msg)), l)
        else
          match tool_calls_loop sha256_text now_iso strict_get mapping
                  (AssistantMsg.tool_calls msg)
                  (messages ++ [AssistantMessage msg])%list l with
          | (Err e, l') => (Err e, l')
          | (Ok (inl txt), l') => (Ok txt, l')
          | (Ok (inr messages'), l') =>
              chat_rounds sha256_text now_iso llm n strict_get mapping messages' l'
          end
    end.
Proof.
  cbn [chat_rounds]. destruct (llm messages) as [msg|]; [|done].
  by destruct (AssistantMsg.tool_calls msg).
Qed.

Lemma chat_rounds_reachable n strict_get mapping messages l :
  reachable sha256_text (store l) ->
  reachable sha256_text
    (store (chat_rounds sha256_text now_iso llm n strict_get mapping messages l).2).
Proof.
  revert messages l. induction n as [|n IH]; intros messages l Hr; [done|].
  rewrite chat_rounds_S. destruct (llm messages) as [msg|]; [|done].
  case_bool_decide; [done|].
  pose proof (tool_calls_loop_reachable strict_get mapping (AssistantMsg.tool_calls msg)
                (messages ++ [AssistantMessage msg])%list l Hr) as Hr'.
  destruct (tool_calls_loop _ _ strict_get mapping _ _ l)
    as [[[txt|messages']|e] l']; [done| |done].
  by apply IH.
Qed.

(** X27. The bridge keeps the store reachable: whatever the model answers,
    with or without strict get, the store that [run_loop] leaves is one
    the gateway produces from the empty store. *)
Theorem run_loop_reachable user_prompt strict_get l :
  reachable sha256_text (store l) ->
  reachable sha256_text
    (store (run_loop sha256_text now_iso llm user_prompt strict_get l).2).
Proof.
  intros Hr. unfold run_loop. apply chat_rounds_reachable.
  by rewrite MCP_initialize_eq.
Qed.

Lemma tool_calls_loop_reads strict_get tcs messages l :
  (forall tc, tc ∈ tcs -> ToolCall.name tc ≠ "sm_save") ->
  store (tool_calls_loop sha256_text now_iso strict_get
           build_default_tools_for_sm_mcp tcs messages l).2 = store l.
Proof.
  revert messages l. induction tcs as [|tc rest IH]; intros messages l Hns; [done|].
  simpl. rewrite exec_tool_call_default. simpl.
  destruct (json_loads (ToolCall.arguments tc)) as [args|e]; [|done].
  rewrite bool_decide_eq_false_2 by (apply Hns; left).
  assert (Hrest : forall tc', tc' ∈ rest -> ToolCall.name tc' ≠ "sm_save").
  { intros tc' Hin. apply Hns. by right. }
  case_bool_decide as Hget.
  - destruct args as [|fields]; [done|].
    destruct (RawArgs.symbol fields) as [sym|]; [|done].
    rewrite MCP_resources_read_eq.
    destruct (get (store l) (last_segment (resource_uri sym))) as [body|e]; [|done].
    rewrite contains_resource_uri. rewrite Hget. simpl.
    destruct strict_get; simpl; [done|]. by rewrite IH.
  - rewrite (bool_decide_eq_false_2 _ Hget), andb_false_r. by rewrite IH.
Qed.

Lemma chat_rounds_reads n strict_get messages l :
  never_saves llm ->
  store (chat_rounds sha256_text now_iso llm n strict_get
           build_default_tools_for_sm_mcp messages l).2 = store l.
Proof.
  intros Hns. revert messages l. induction n as [|n IH]; intros messages l; [done|].
  rewrite chat_rounds_S. destruct (llm messages) as [msg|] eqn:Hmsg; [|done].
  case_bool_decide; [done|].
  pose proof (tool_calls_loop_reads strict_get (AssistantMsg.tool_calls msg)
                (messages ++ [AssistantMessage msg])%list l
                (fun tc Hin => Hns messages msg tc Hmsg Hin)) as Hl.
  destruct (tool_calls_loop _ _ strict_get _ _ _ l)
    as [[[txt|messages']|e] l']; [done| |done].
  by rewrite IH.
Qed.

End BridgeFacts.

(** X28. Reading through the bridge never writes: when no answer of the
    model asks for the tool [sm_save], the store after [run_loop] is the
    store before it, whatever else the model asks for and however the run
    ends. *)
Theorem run_loop_reads_only sha256_text now_iso llm user_prompt strict_get l :
  never_saves llm ->
  store (run_loop sha256_text now_iso llm user_prompt strict_get l).2 = store l.
Proof.
  intros Hns. unfold run_loop. by rewrite chat_rounds_reads, MCP_initialize_eq.
Qed.

(** X29. Strict get prints the stored text.  When the first answer of the
    model starts with a call of [sm_get] whose arguments are an object with
    a symbol, [run_loop] with strict get prints exactly the body that the
    store's get returns for the last segment of the symbol, and fails with
    the HTTP error when that get fails; the store is unchanged and three
    requests were sent. *)
Theorem strict_get_prints_stored sha256_text now_iso llm user_prompt l msg tc rest
    fields sym :
  llm [UserMessage user_prompt] = Some msg ->
  AssistantMsg.tool_calls msg = tc :: rest ->
  ToolCall.name tc = "sm_get" ->
  ToolCall.arguments tc = Object fields ->
  RawArgs.symbol fields = Some sym ->
  run_loop sha256_text now_iso llm user_prompt true l
  = (match get (store l) (last_segment sym) with
     | Ret body => Ok body
     | Raise _ => Err HTTPError
     end, mkLink (store l) (3 + sent l)).
Proof.
  intros Hmsg Htcs Hname Hargs Hsym. unfold run_loop.
  rewrite MCP_initialize_eq. change MAX_STEPS with (S 7).
  rewrite chat_rounds_S, Hmsg, Htcs. rewrite bool_decide_eq_false_2 by done.
  cbn [tool_calls_loop]. rewrite exec_tool_call_default. cbn zeta.
  rewrite Hname, Hargs. cbn [json_loads]. rewrite Hsym. simpl bool_decide. cbn iota.
  rewrite MCP_resources_read_eq, last_segment_resource_uri, contains_resource_uri.
  cbn [store sent].
  by destruct (get (store l) (last_segment sym)) as [body|e].
Qed.

Section BridgeFaults.

Variable sha256_text : string -> string.
Variable now_iso : nat -> string.
Variable llm : list Message -> option AssistantMsg.t.

Lemma MCP_rpc_fault req l f :
  (MCP_rpc sha256_text now_iso req l).1 = Err f -> f = HTTPError.
Proof.
  unfold MCP_rpc. destruct (mcp sha256_text req _ _) as [[r|e] db']; simpl; congruence.
Qed.




End BridgeFaults.

(** * Instances of the further properties *)

Lemma tokenize_truncates_witness :
  tokenize "a b c" 2 = take (Nat.max 2 1) (tokenize "a b c" 80).
Proof. apply (tokenize_truncates "a b c" 2 80). lia. Defined.

Lemma save_text_upsert_witness :
  SaveResult.status (save_text toy_digest smoke_args "t3" smoke_db).1 = "updated"
  /\ SaveResult.ts_created (save_text toy_digest smoke_args "t3" smoke_db).1 = "t1".
Proof.
  destruct (save_text_upsert toy_digest smoke_args "t3" smoke_db) as [_ Hupd].
  destruct (Hupd smoke_row_one eq_refl) as (Hs & Ht & _). by split.
Defined.

Lemma stored_rows_valid_witness : row_valid toy_digest smoke_row_one.
Proof.
  apply (stored_rows_valid toy_digest smoke_db smoke_db_reachable).
  vm_compute. left.
Defined.

Lemma save_leaves_others_witness :
  get (save_text toy_digest two_args "t3" smoke_db).2 "one" = get smoke_db "one".
Proof.
  apply (save_leaves_others toy_digest two_args "t3" smoke_db "one").
  - discriminate.
  - discriminate.
  - vm_compute. discriminate.
Defined.

Lemma resolve_symbol_stable_witness :
  is_Some (select_row smoke_db "TST.ONE")
  /\ resolve_symbol smoke_db "TST.ONE" = Some "TST.ONE"
  /\ get smoke_db "one" = get smoke_db "TST.ONE".
Proof.
  apply (resolve_symbol_stable toy_digest smoke_db "one" "TST.ONE" smoke_db_reachable).
  reflexivity.
Defined.

Lemma mcp_error_keeps_store_witness :
  (mcp toy_digest (read_request "resource://sm/v1/texts/two") "t3" smoke_db).2 = smoke_db.
Proof.
  destruct (mcp_error_keeps_store toy_digest
              (read_request "resource://sm/v1/texts/two") "t3" smoke_db) as [Hkeep _].
  apply (Hkeep (HTTPException 404 "Not found")). reflexivity.
Defined.

Lemma untagged_store_no_suggestions_witness :
  tools_save toy_digest (RawArgs.mk (Some "A") (Some "body of A") None None (Some ["B"]))
             "t2" shadow_db
  = (Ret (SaveOk (save_text toy_digest shadow_args "t2" shadow_db).1 None),
     (save_text toy_digest shadow_args "t2" shadow_db).2).
Proof.
  apply (untagged_store_no_suggestions toy_digest
           (RawArgs.mk (Some "A") (Some "body of A") None None (Some ["B"]))
           shadow_args "t2" shadow_db).
  - reflexivity.
  - reflexivity.
  - reflexivity.
  - intros r Hr. apply list_elem_of_In in Hr. vm_compute in Hr.
    destruct Hr as [<-|[]]. reflexivity.
Defined.

Lemma suggestions_ranked_witness :
  descending (CatSug.score <$> Suggestions.cat four_cats_suggestions)
  /\ (length (Suggestions.neighbors four_cats_suggestions) <= 5)%nat.
Proof.
  destruct (suggestions_ranked "e" "a b c d" four_cats_db four_cats_suggestions)
    as (Hcat & _ & _ & Hlen & _).
  - by vm_compute.
  - by split.
Defined.

Lemma suggested_categories_stored_witness :
  NoDup (CatSug.value <$> Suggestions.cat four_cats_suggestions).
Proof.
  destruct (suggested_categories_stored "e" "a b c d" limit_rows_default
              min_sim_default four_cats_db four_cats_suggestions) as [Hnd _].
  - by vm_compute.
  - exact Hnd.
Defined.

Lemma pair_key_round_trip_witness :
  split_once (pair_key "ai" "architecture.hybrid") = Some ("ai", "architecture.hybrid")
  /\ split_once (pair_key "a::b" "s") = Some ("a", "b::s").
Proof.
  split.
  - apply (pair_key_round_trip "ai" "architecture.hybrid"). reflexivity.
  - destruct (pair_key_round_trip "a::b" "s") as [_ Hcut].
    apply (Hcut "a" "b"); reflexivity.
Defined.

Lemma suggested_pairs_stored_witness :
  exists row, row ∈ texts four_cats_db
              /\ Row.cat row = Some "c1" /\ Row.subcat row = Some "s".
Proof.
  assert (Hp : exists p, p ∈ Suggestions.subcat four_cats_suggestions
                         /\ SubSug.cat p = "c1" /\ SubSug.value p = "s").
  { unfold four_cats_suggestions. simpl. eexists. split; [left|]. by split. }
  destruct Hp as (p & Hin & Hc & Hv). rewrite <- Hc, <- Hv.
  apply (suggested_pairs_stored "e" "a b c d" limit_rows_default min_sim_default
           four_cats_db four_cats_suggestions); [|by vm_compute|exact Hin].
  intros row c Hrow Hcat. apply list_elem_of_In in Hrow. vm_compute in Hrow.
  destruct Hrow as [<-|[<-|[<-|[<-|[]]]]]; injection Hcat as <-; reflexivity.
Defined.

Lemma single_category_scores_one_witness :
  exists score, Suggestions.cat block_B_suggestions = [CatSug.mk "k" score]
                /\ (score == 1)%Q.
Proof.
  apply (single_category_scores_one "B" "beta gamma" block_B_db block_B_suggestions "k").
  - intros row c' Hrow Hcat Hne. apply list_elem_of_In in Hrow. vm_compute in Hrow.
    destruct Hrow as [<-|[<-|[]]].
    + by injection Hcat as <-.
    + discriminate Hcat.
  - by vm_compute.
Defined.

Lemma cmd_get_round_trip_witness :
  cmd_get toy_digest "TST.ONE" "t4" (save_text toy_digest smoke_args "t3" smoke_db).2
  = (Ret (PrintText "hello world one"), (save_text toy_digest smoke_args "t3" smoke_db).2).
Proof.
  destruct (cmd_get_round_trip toy_digest smoke_raw smoke_args "t3" "t4" smoke_db)
    as (_ & _ & Hget).
  apply Hget; reflexivity.
Defined.

Lemma cmd_save_reject_witness :
  (cmd_save toy_digest None block_B (mkInput "n" "" "") "t1" "t2" start_world).2
  = mkWorld
      (tools_save toy_digest (save_payload "B" "beta gamma" None None []) "t1"
                  (server start_world)).2
      None.
Proof.
  apply (cmd_save_reject toy_digest None block_B (mkInput "n" "" "") "t1" "t2"
           start_world "B").
  - reflexivity.
  - reflexivity.
  - reflexivity.
  - vm_compute. discriminate.
  - vm_compute. discriminate.
  - vm_compute. discriminate.
Defined.

Lemma cmd_save_accept_witness :
  ApplyRecord.symbol
    <$> last_apply_file
          (cmd_save toy_digest None block_B default_input "t1" "t2" start_world).2
  = Some "B"
  /\ get_existing_meta
       (server (cmd_save toy_digest None block_B default_input "t1" "t2" start_world).2)
       "B"
     = (Some "k", Some "s").
Proof.
  pose proof (cmd_save_accept toy_digest None block_B default_input "t1" "t2"
                start_world "B" block_B_args block_B_suggestions
                eq_refl eq_refl eq_refl eq_refl) as Hacc.
  cbv zeta in Hacc. rewrite Hacc; clear Hacc.
  - vm_compute. split; reflexivity.
  - vm_compute. reflexivity.
  - vm_compute. reflexivity.
  - vm_compute. reflexivity.
Defined.

Lemma undo_own_symbol_witness :
  get (server (cmd_save toy_digest None block_B undo_input "t1" "t2" undo_world).2) "B"
  = Ret "beta gamma"
  /\ get_existing_meta
       (server (cmd_save toy_digest None block_B undo_input "t1" "t2" undo_world).2) "B"
     = (None, None).
Proof.
  pose proof (undo_own_symbol toy_digest None block_B undo_input "t1" "t2" undo_world
                "B" block_B_args block_B_args block_B_suggestions
                (ApplyRecord.mk "B" None None (Some "k") (Some "s") 1)
                eq_refl eq_refl eq_refl eq_refl) as Hundo.
  cbv zeta in Hundo.
  destruct Hundo as (_ & Hget & Hmeta & _); [by vm_compute..|].
  by split.
Defined.

Lemma cmd_save_no_prompt_witness :
  (cmd_save toy_digest None block_C (mkInput "u" "" "") "t1" "t2" start_world).2
  = mkWorld
      (tools_save toy_digest
         (save_payload "C" "gamma delta" (Some "k") (Some "s") []) "t1"
         (server start_world)).2
      None.
Proof.
  destruct (cmd_save_no_prompt toy_digest None block_C (mkInput "u" "" "") "t1" "t2"
              start_world) as [_ Hsave].
  apply (Hsave "C"); [reflexivity|reflexivity|by eexists|by eexists].
Defined.

Lemma cmd_save_reachable_witness :
  reachable toy_digest
    (server (cmd_save toy_digest None block_B default_input "t1" "t2" start_world).2).
Proof.
  apply (cmd_save_reachable toy_digest None block_B default_input "t1" "t2" start_world).
  by eexists.
Defined.

Lemma pick_top_from_one_pair_witness :
  exists p, p ∈ Suggestions.subcat four_cats_suggestions
    /\ (_pick_top_suggestion four_cats_suggestions).1.1 = Some (SubSug.cat p)
    /\ (_pick_top_suggestion four_cats_suggestions).1.2 = Some (SubSug.value p).
Proof.
  assert (Hcats : forall p, p ∈ Suggestions.subcat four_cats_suggestions ->
                            SubSug.cat p ≠ EmptyString).
  { intros p Hp. apply list_elem_of_In in Hp. vm_compute in Hp.
    destruct Hp as [<-|[<-|[<-|[]]]]; discriminate. }
  pose proof (pick_top_from_one_pair four_cats_suggestions Hcats) as Hpick.
  cbv zeta in Hpick. destruct Hpick as [_ Hpair].
  destruct Hpair as (p & Hin & Hc & Hs & _); [by vm_compute|].
  by exists p.
Defined.

Lemma header_line_parsed_witness :
  (_parse_kv_headers define_raw).1 !! "symbol" = Some "HGI.DEF"
  /\ _parse_kv_headers "Symbol: HGI.DEF" = ({[ "symbol" := "HGI.DEF" ]}, EmptyString).
Proof.
  destruct (header_line_parsed "Symbol" " HGI.DEF"
              ("cat: ai" +:+ String "010"
               ("aliases: hgi, hybrid ," +:+ String "010"
                (String "010" "HGI is a symbiosis."))))
    as [Hline Hlast]; [discriminate|reflexivity|reflexivity|].
  split; [|exact Hlast].
  change define_raw with
    ("Symbol" +:+ String ":" (" HGI.DEF" +:+ String "010"
       ("cat: ai" +:+ String "010"
        ("aliases: hgi, hybrid ," +:+ String "010"
         (String "010" "HGI is a symbiosis."))))).
  rewrite Hline. by vm_compute.
Defined.

Lemma body_verbatim_witness :
  _parse_kv_headers
    (String "010" ("one" +:+ String "010" ("two" +:+ String "010" EmptyString)))
  = (∅, "one" +:+ String "010" "two").
Proof.
  destruct (body_verbatim EmptyString
              ("one" +:+ String "010" ("two" +:+ String "010" EmptyString)))
    as [Hblank _]; [reflexivity|reflexivity|].
  exact (Hblank eq_refl).
Defined.

Lemma parsed_block_fields_witness :
  clean_value "HGI.DEF"
  /\ DefineBlock.aliases define_block = ["hgi"; "hybrid"].
Proof.
  destruct (parsed_block_fields [define_raw] define_block) as (Hfields & _);
    [by vm_compute|].
  split; [|reflexivity]. apply Hfields. by left.
Defined.

Lemma run_loop_reachable_witness :
  reachable toy_digest
    (store (run_loop toy_digest toy_clock save_llm "save it" false
                     (mkLink smoke_db 0)).2).
Proof.
  apply (run_loop_reachable toy_digest toy_clock save_llm "save it" false
           (mkLink smoke_db 0)).
  exact smoke_db_reachable.
Defined.

Lemma run_loop_reads_only_witness :
  store (run_loop toy_digest toy_clock get_llm "read it" false (mkLink smoke_db 0)).2
  = smoke_db.
Proof.
  apply (run_loop_reads_only toy_digest toy_clock get_llm "read it" false
           (mkLink smoke_db 0)).
  intros messages msg tc [= <-] Hin. apply list_elem_of_In in Hin.
  destruct Hin as [<-|[]]. discriminate.
Defined.

Lemma strict_get_prints_stored_witness :
  run_loop toy_digest toy_clock get_llm "read it" true (mkLink smoke_db 0)
  = (Ok "hello world one", mkLink smoke_db 3).
Proof.
  exact (strict_get_prints_stored toy_digest toy_clock get_llm "read it"
           (mkLink smoke_db 0) _ _ [] _ "one" eq_refl eq_refl eq_refl eq_refl eq_refl).
Defined.

